(** * BPR-MF with adversarial perturbations (APR): a model of [main.ipynb]

    The notebook defines one class, [BPRMF], on top of TensorFlow, and a
    linear sequence of top-level cells that drives it.  The development
    below embeds

    - the tensor operations the class calls (module [TF]), over the reals:
      the float32 arithmetic of TensorFlow is idealised as exact;
    - the class itself (module [BPRMF]): its attributes as a record, its
      methods as functions from a model to a [result] that is either the
      mutated model or the exception that left the method;
    - the two inferences once more in single precision (module [F32]),
      where the rounding of the program is what a property depends on;
    - the top-level cells (module [Notebook]).

    Module [Inv] states the invariants and the notions the theorems speak
    about, module [Tiny] holds small concrete instances.  The lemmas follow
    in modules of their own ([Shapes], [Totality], [Numerics], [Frames],
    [Inference], [Exceptions], [Gradient], ...), then the properties of the
    specification, named by their claim (C1 to C10), and further
    properties of the class and of the cells (X1 to X23), each after the
    lemmas it rests on.

    Rank-2 tensors are lists of rows.  A list cannot remember the column
    count of a tensor without rows, so the few operations that need it
    ([reduce_sum_1], [matmul], [transpose]) take it as an argument, the way
    TensorFlow reads it from the static shape. *)

From Stdlib Require Import String.
From Stdlib Require Import List Arith Bool Lia Reals Lra.
From Stdlib Require Import ZArith QArith Qround Qabs.
Import ListNotations.
Close Scope Q_scope.

(** ** Exceptions and the [result] monad *)

Inductive exn : Type :=
| InvalidArgument_index (idx rows : nat)
    (* tf.errors.InvalidArgumentError: indices = idx is not in [0, rows) *)
| InvalidArgument_shapes (a b : nat)
    (* tf.errors.InvalidArgumentError: incompatible shapes *)
| IndexError
    (* Python: list index out of range *)
| NameError.
    (* Python: name is not defined *)

Inductive result (A : Type) : Type :=
| Ok (a : A)
| Raise (e : exn).
Arguments Ok {A} a.
Arguments Raise {A} e.

Definition bind {A B : Type} (c : result A) (k : A -> result B) : result B :=
  match c with
  | Ok a => k a
  | Raise e => Raise e
  end.

Notation "x <- c1 ;; c2" := (bind c1 (fun x => c2))
  (at level 61, c1 at next level, right associativity).
Notation "' pat <- c1 ;; c2" := (bind c1 (fun x => match x with pat => c2 end))
  (at level 61, pat pattern, c1 at next level, right associativity).

Fixpoint mapM {A B : Type} (f : A -> result B) (xs : list A) : result (list B) :=
  match xs with
  | [] => Ok []
  | x :: xs' => y <- f x ;; ys <- mapM f xs' ;; Ok (y :: ys)
  end.

(** A Python [for] loop whose body may raise: the first exception leaves
    the loop. *)
Fixpoint foldM {A S : Type} (f : S -> A -> result S) (xs : list A) (s : S)
  : result S :=
  match xs with
  | [] => Ok s
  | x :: xs' => s' <- f s x ;; foldM f xs' s'
  end.

(** ** Tensor operations *)

Module TF.

Local Open Scope R_scope.

Abbreviation vec := (list R).
Abbreviation tensor := (list (list R)).

Definition has_shape (t : tensor) (n d : nat) : Prop :=
  length t = n /\ Forall (fun r => length r = d) t.

Definition fill (c : R) (n d : nat) : tensor := repeat (repeat c d) n.

(** [tf.zeros(shape=[n, d])] *)
Definition zeros (n d : nat) : tensor := fill 0 n d.

Definition tmap (f : R -> R) (t : tensor) : tensor := map (map f) t.

(** Broadcasting along one axis: equal lengths are zipped, a length of one
    is stretched, anything else is an error. *)
Definition bcast {A B C : Type} (f : A -> B -> result C)
    (xs : list A) (ys : list B) : result (list C) :=
  if (length xs =? length ys)%nat
  then mapM (fun xy => f (fst xy) (snd xy)) (combine xs ys)
  else match xs, ys with
       | [x], _ => mapM (f x) ys
       | _, [y] => mapM (fun x => f x y) xs
       | _, _ => Raise (InvalidArgument_shapes (length xs) (length ys))
       end.

(** An elementwise binary operator on rank-2 tensors ([+], [-], [*]). *)
Definition binop (op : R -> R -> R) (a b : tensor) : result tensor :=
  bcast (bcast (fun x y => Ok (op x y))) a b.

Definition add := binop Rplus.
Definition sub := binop Rminus.
Definition mul := binop Rmult.

Definition map2 {A B C : Type} (f : A -> B -> C) (xs : list A) (ys : list B)
  : list C :=
  map (fun xy => f (fst xy) (snd xy)) (combine xs ys).

Definition vadd (a b : vec) : vec := map2 Rplus a b.

Definition vsub (a b : vec) : vec := map2 Rminus a b.

Definition vscale (c : R) (a : vec) : vec := map (fun x => c * x) a.

Definition sum (v : vec) : R := fold_right Rplus 0 v.

Definition dot (a b : vec) : R := sum (map2 Rmult a b).

(** [tf.nn.embedding_lookup(params, ids)] for a rank-2 [ids]: the result has
    rank 3.  An id outside [0, rows) raises (CPU kernel). *)
Definition lookup_row (params : tensor) (id : nat) : result vec :=
  match nth_error params id with
  | Some r => Ok r
  | None => Raise (InvalidArgument_index id (length params))
  end.

Definition embedding_lookup (params : tensor) (ids : list (list nat))
  : result (list tensor) :=
  mapM (mapM (lookup_row params)) ids.

(** [tf.reduce_sum(t, 1)] on a rank-3 tensor of shape (b, k, d). *)
Definition vsum (d : nat) (rows : tensor) : vec :=
  match rows with
  | [] => repeat 0 d
  | r :: rs => fold_left vadd rs r
  end.

Definition reduce_sum_1 (d : nat) (t : list tensor) : tensor := map (vsum d) t.

(** [tf.reduce_sum(t)] and [tf.reduce_mean(t)] over all elements. *)
Definition reduce_sum (t : tensor) : R := sum (map sum t).

Definition size (t : tensor) : nat := length (concat t).

Definition reduce_mean (t : tensor) : R := reduce_sum t / INR (size t).

(** [tf.transpose(t)] of a tensor with [cols] columns. *)
Definition column (j : nat) (t : tensor) : vec := map (fun r => nth j r 0) t.

Definition transpose (cols : nat) (t : tensor) : tensor :=
  map (fun j => column j t) (seq 0 cols).

(** [tf.matmul(a, b)] where [b] has [m] columns. *)
Definition matmul (m : nat) (a b : tensor) : result tensor :=
  mapM (fun row =>
          if (length row =? length b)%nat
          then Ok (map (fun j => dot row (column j b)) (seq 0 m))
          else Raise (InvalidArgument_shapes (length row) (length b)))
       a.

(** [tf.clip_by_value(x, lo, hi)] = maximum(minimum(x, hi), lo), and the
    gradient mask TensorFlow registers for it. *)
Definition clip_by_value (lo hi x : R) : R := Rmax (Rmin x hi) lo.

Definition clip_mask (lo hi x : R) : R :=
  if Rlt_dec x lo then 0 else if Rlt_dec hi x then 0 else 1.

(** [tf.nn.softplus] and its derivative. *)
Definition softplus (x : R) : R := ln (1 + exp x).

Definition sigmoid (x : R) : R := / (1 + exp (- x)).

Definition square (x : R) : R := x * x.

(** [tf.nn.l2_normalize(t, 1)]: x * rsqrt(max(sum(x^2), 1e-12)) per row.
    In exact arithmetic a normalised row has norm at most 1; the rounded
    row of the program can exceed it in the last place. *)
Definition l2_epsilon : R := / 1000000000000.

Definition sqnorm (v : vec) : R := sum (map square v).

Definition l2_normalize_row (v : vec) : vec :=
  map (fun x => x * / sqrt (Rmax (sqnorm v) l2_epsilon)) v.

Definition l2_normalize (t : tensor) : tensor := map l2_normalize_row t.

(** [t * epsilon] for a Python float [epsilon]. *)
Definition scale (t : tensor) (c : R) : tensor := tmap (fun x => x * c) t.

(** Dense result of scattering row updates into a zero tensor: what the
    gradient of a gather becomes once it flows back through [+]. *)
Definition scatter_add (n d : nat) (updates : list (nat * vec)) : tensor :=
  map (fun r =>
         fold_right vadd (repeat 0 d)
           (map snd (filter (fun iv => (fst iv =? r)%nat) updates)))
      (seq 0 n).

(** [tf.keras.optimizers.Adagrad]: one dense update of a variable and of
    its accumulator slot, elementwise:
    accum += grad^2; var -= lr * grad / (sqrt(accum) + 1e-7). *)
Definition adagrad_epsilon : R := / 10000000.

Definition initial_accumulator_value : R := / 10.

Definition adagrad_accum (accum grad : tensor) : tensor :=
  map2 (map2 (fun a g => a + g * g)) accum grad.

Definition adagrad_var (lr : R) (var grad accum' : tensor) : tensor :=
  map2 (map2 (fun v ga => v - lr * fst ga / (sqrt (snd ga) + adagrad_epsilon)))
       var (map2 (map2 pair) grad accum').

End TF.

(** ** The data loader *)

(** One training triple: user, positive item, sampled negative item. *)
Definition sample : Type := (nat * nat * nat)%type.

Definition user (s : sample) : nat := fst (fst s).
Definition item_pos (s : sample) : nat := snd (fst s).
Definition item_neg (s : sample) : nat := snd s.

Definition batch : Type := list sample.

(** Modelled from the spec: the class [DataLoader] (src/dataset/dataset.py)
    is imported by the notebook but is not part of the source.  The notebook
    reads [num_users], [num_items] and [_user_input] from it and calls
    [shuffle(batch_size)], which returns three parallel lists of batches
    (users, positive items, negative items), each batch a column of ids.
    The three parallel columns are kept as one list of triples.  The
    notebook seeds [np.random] once, so what the k-th call of [shuffle]
    returns is a function of k and of the batch size. *)
Record DataLoader : Type := {
  dl_num_users : nat;
  dl_num_items : nat;
  _user_input : list nat;
  shuffle : nat -> nat -> list batch
}.

(** The id columns of a batch, shape (b, 1). *)
Definition user_input (b : batch) : list (list nat) := map (fun s => [user s]) b.
Definition item_input_pos (b : batch) : list (list nat) :=
  map (fun s => [item_pos s]) b.
Definition item_input_neg (b : batch) : list (list nat) :=
  map (fun s => [item_neg s]) b.

(** ** The class [BPRMF] *)

Module BPRMF.

Import TF.
Local Open Scope R_scope.

(** The attributes of an instance.  [draws] counts the calls of
    [data.shuffle] made so far (the state of the seeded generator);
    [accum_P] and [accum_Q] are the optimizer's slots for the two
    variables.  Of the scratch attributes the methods assign
    ([output_pos], [result], [embedding_p], ...) only [loss] is kept:
    nothing reads the others back. *)
Record model : Type := {
  data : DataLoader;
  num_users : nat;
  num_items : nat;
  path_output_rec_result : string;
  path_output_rec_weight : string;
  embedding_size : nat;
  learning_rate : R;
  reg : R;
  epochs : nat;
  batch_size : nat;
  embedding_P : tensor;
  embedding_Q : tensor;
  h : tensor;
  delta_P : tensor;
  delta_Q : tensor;
  accum_P : tensor;
  accum_Q : tensor;
  loss : R;
  draws : nat
}.

Definition set_parameters (m : model) (P Q h' : tensor) : model :=
  {| data := data m; num_users := num_users m; num_items := num_items m;
     path_output_rec_result := path_output_rec_result m;
     path_output_rec_weight := path_output_rec_weight m;
     embedding_size := embedding_size m; learning_rate := learning_rate m;
     reg := reg m; epochs := epochs m; batch_size := batch_size m;
     embedding_P := P; embedding_Q := Q; h := h';
     delta_P := delta_P m; delta_Q := delta_Q m;
     accum_P := accum_P m; accum_Q := accum_Q m;
     loss := loss m; draws := draws m |}.

Definition set_perturbations (m : model) (dP dQ : tensor) : model :=
  {| data := data m; num_users := num_users m; num_items := num_items m;
     path_output_rec_result := path_output_rec_result m;
     path_output_rec_weight := path_output_rec_weight m;
     embedding_size := embedding_size m; learning_rate := learning_rate m;
     reg := reg m; epochs := epochs m; batch_size := batch_size m;
     embedding_P := embedding_P m; embedding_Q := embedding_Q m; h := h m;
     delta_P := dP; delta_Q := dQ;
     accum_P := accum_P m; accum_Q := accum_Q m;
     loss := loss m; draws := draws m |}.

Definition set_slots (m : model) (aP aQ : tensor) : model :=
  {| data := data m; num_users := num_users m; num_items := num_items m;
     path_output_rec_result := path_output_rec_result m;
     path_output_rec_weight := path_output_rec_weight m;
     embedding_size := embedding_size m; learning_rate := learning_rate m;
     reg := reg m; epochs := epochs m; batch_size := batch_size m;
     embedding_P := embedding_P m; embedding_Q := embedding_Q m; h := h m;
     delta_P := delta_P m; delta_Q := delta_Q m;
     accum_P := aP; accum_Q := aQ;
     loss := loss m; draws := draws m |}.

Definition set_loss (m : model) (l : R) : model :=
  {| data := data m; num_users := num_users m; num_items := num_items m;
     path_output_rec_result := path_output_rec_result m;
     path_output_rec_weight := path_output_rec_weight m;
     embedding_size := embedding_size m; learning_rate := learning_rate m;
     reg := reg m; epochs := epochs m; batch_size := batch_size m;
     embedding_P := embedding_P m; embedding_Q := embedding_Q m; h := h m;
     delta_P := delta_P m; delta_Q := delta_Q m;
     accum_P := accum_P m; accum_Q := accum_Q m;
     loss := l; draws := draws m |}.

(** [self.data.shuffle(size)]: returns the batches and advances the
    generator. *)
Definition next_shuffle (m : model) (size : nat) : list batch * model :=
  (shuffle (data m) (draws m) size,
   {| data := data m; num_users := num_users m; num_items := num_items m;
      path_output_rec_result := path_output_rec_result m;
      path_output_rec_weight := path_output_rec_weight m;
      embedding_size := embedding_size m; learning_rate := learning_rate m;
      reg := reg m; epochs := epochs m; batch_size := batch_size m;
      embedding_P := embedding_P m; embedding_Q := embedding_Q m; h := h m;
      delta_P := delta_P m; delta_Q := delta_Q m;
      accum_P := accum_P m; accum_Q := accum_Q m;
      loss := loss m; draws := S (draws m) |}).

(** [tf.random.truncated_normal(shape=[n, d], ...)]: the drawn values are an
    input of the model, the shape is the requested one. *)
Definition truncated_normal (noise : nat -> nat -> R) (n d : nat) : tensor :=
  map (fun r => map (fun c => noise r c) (seq 0 d)) (seq 0 n).

Definition initialize_model_parameters (noise_P noise_Q : nat -> nat -> R)
    (m : model) : model :=
  set_parameters m
    (truncated_normal noise_P (num_users m) (embedding_size m))
    (truncated_normal noise_Q (num_items m) (embedding_size m))
    (fill 1 (embedding_size m) 1).

Definition initialize_optimizer (m : model) : model :=
  set_slots m
    (fill initial_accumulator_value (num_users m) (embedding_size m))
    (fill initial_accumulator_value (num_items m) (embedding_size m)).

Definition initialize_perturbations (m : model) : model :=
  set_perturbations m
    (zeros (num_users m) (embedding_size m))
    (zeros (num_items m) (embedding_size m)).

Definition TOPK : nat := 100.

(** [BPRMF.__init__].  The base class [RecommenderModel] is not part of the
    source; its constructor is taken to store the data loader, the two
    counts it reads from it, and the two paths.  The evaluator the
    constructor creates keeps a reference to the instance; it appears where
    it is called, in module [Notebook]. *)
Definition init (data_loader : DataLoader)
    (path_result path_weight : string) (noise_P noise_Q : nat -> nat -> R)
  : model :=
  let m :=
    {| data := data_loader;
       num_users := dl_num_users data_loader;
       num_items := dl_num_items data_loader;
       path_output_rec_result := path_result;
       path_output_rec_weight := path_weight;
       embedding_size := 64; learning_rate := 5 / 100;
       reg := 0; epochs := 5; batch_size := 512;
       embedding_P := []; embedding_Q := []; h := [];
       delta_P := []; delta_Q := []; accum_P := []; accum_Q := [];
       loss := 0; draws := 0 |} in
  initialize_optimizer
    (initialize_perturbations
       (initialize_model_parameters noise_P noise_Q m)).

(** [get_inference]: scores of the given (user, item) rows, with the two
    gathered embedding blocks. *)
Definition get_inference (m : model) (users items : list (list nat))
  : result (tensor * tensor * tensor) :=
  P' <- add (embedding_P m) (delta_P m) ;;
  gathered_p <- embedding_lookup P' users ;;
  let embedding_p := reduce_sum_1 (embedding_size m) gathered_p in
  Q' <- add (embedding_Q m) (delta_Q m) ;;
  gathered_q <- embedding_lookup Q' items ;;
  let embedding_q := reduce_sum_1 (embedding_size m) gathered_q in
  pq <- mul embedding_p embedding_q ;;
  out <- matmul 1 pq (h m) ;;
  Ok (out, embedding_p, embedding_q).

Definition get_full_inference (m : model) : result tensor :=
  P' <- add (embedding_P m) (delta_P m) ;;
  Q' <- add (embedding_Q m) (delta_Q m) ;;
  matmul (length Q') P' (transpose (embedding_size m) Q').

(** The lines that [_train_step], [_adversarial_train_step] and
    [execute_adversarial_attack] repeat: the two inferences of a batch, the
    clipped score difference and the BPR loss. *)
Definition clip_lo : R := -80.
Definition clip_hi : R := 100000000.

Record scores : Type := {
  embed_p_pos : tensor;
  embed_q_pos : tensor;
  embed_q_neg : tensor;
  diff : tensor;
  bpr_loss : R
}.

Definition bpr_scores (m : model) (b : batch) : result scores :=
  ' (output_pos, p_pos, q_pos) <-
      get_inference m (user_input b) (item_input_pos b) ;;
  ' (output_neg, _, q_neg) <-
      get_inference m (user_input b) (item_input_neg b) ;;
  d <- sub output_pos output_neg ;;
  let result := tmap (clip_by_value clip_lo clip_hi) d in
  Ok {| embed_p_pos := p_pos; embed_q_pos := q_pos; embed_q_neg := q_neg;
        diff := d;
        bpr_loss := reduce_sum (tmap softplus (tmap Ropp result)) |}.

(** [tf.square(embed_p_pos) + tf.square(embed_q_pos) + tf.square(embed_q_neg)] *)
Definition reg_squares (sc : scores) : result tensor :=
  s <- add (tmap square (embed_p_pos sc)) (tmap square (embed_q_pos sc)) ;;
  add s (tmap square (embed_q_neg sc)).

Definition reg_loss (m : model) (sq : tensor) : R := reg m * reduce_mean sq.

(** What [GradientTape.gradient] returns for
    [w * bpr_loss + c * sum(squares) / 2] with respect to
    [embedding_P] and [embedding_Q]: the derivative of
    softplus(-clip(x)) in the score difference x of a sample, pushed back
    through the products to the gathered rows and scattered into tensors of
    the variables' shapes. *)
Definition dloss (x : R) : R :=
  clip_mask clip_lo clip_hi x * - sigmoid (- clip_by_value clip_lo clip_hi x).

Definition tape_rows (b : batch) (sc : scores)
  : list (sample * (vec * (vec * (vec * R)))) :=
  combine b
    (combine (embed_p_pos sc)
       (combine (embed_q_pos sc)
          (combine (embed_q_neg sc) (column 0 (diff sc))))).

Definition updates_P (w c : R) (row : sample * (vec * (vec * (vec * R))))
  : list (nat * vec) :=
  let '(s, (p, (q, (q', x)))) := row in
  [(user s, vadd (vscale (w * dloss x) (vsub q q')) (vscale c p))].

Definition updates_Q (w c : R) (row : sample * (vec * (vec * (vec * R))))
  : list (nat * vec) :=
  let '(s, (p, (q, (q', x)))) := row in
  [(item_pos s, vadd (vscale (w * dloss x) p) (vscale c q));
   (item_neg s, vadd (vscale (- (w * dloss x)) p) (vscale c q'))].

Definition gradient (m : model) (b : batch) (sc : scores) (w c : R)
  : tensor * tensor :=
  (scatter_add (length (embedding_P m)) (embedding_size m)
     (flat_map (updates_P w c) (tape_rows b sc)),
   scatter_add (length (embedding_Q m)) (embedding_size m)
     (flat_map (updates_Q w c) (tape_rows b sc))).

(** The coefficient of the regulariser's gradient: the mean divides by the
    number of elements and the square contributes the factor 2. *)
Definition reg_coeff (m : model) (sq : tensor) : R :=
  reg m * 2 / INR (size sq).

(** [self.optimizer.apply_gradients(zip(gradients, [P, Q]))] *)
Definition apply_gradients (m : model) (g : tensor * tensor) : model :=
  let aP := adagrad_accum (accum_P m) (fst g) in
  let aQ := adagrad_accum (accum_Q m) (snd g) in
  set_slots
    (set_parameters m
       (adagrad_var (learning_rate m) (embedding_P m) (fst g) aP)
       (adagrad_var (learning_rate m) (embedding_Q m) (snd g) aQ)
       (h m))
    aP aQ.

(** One iteration of the loop of [_train_step]. *)
Definition _train_batch (m : model) (b : batch) : result model :=
  sc <- bpr_scores m b ;;
  sq <- reg_squares sc ;;
  let m1 := set_loss m (bpr_loss sc) in
  Ok (apply_gradients m1 (gradient m1 b sc 1 (reg_coeff m1 sq))).

Definition _train_step (m : model) (batches : list batch) : result model :=
  foldM _train_batch batches m.

Definition train (m : model) : result model :=
  foldM (fun m' _ =>
           let (batches, m1) := next_shuffle m' (batch_size m') in
           _train_step m1 batches)
        (seq 0 (epochs m)) m.

(** The gradient [execute_adversarial_attack] evaluates on the first batch
    of its own shuffle (lines "Evaluate Current Model Inference" to
    "Evaluate the Gradient"). *)
Definition attack_gradient (m : model) (batches : list batch)
  : result (tensor * tensor) :=
  b0 <- match batches with
        | b0 :: _ => Ok b0
        | [] => Raise IndexError
        end ;;
  sc <- bpr_scores m b0 ;;
  sq <- reg_squares sc ;;
  Ok (gradient m b0 sc 1 (reg_coeff m sq)).

Definition execute_adversarial_attack (m : model) (epsilon : R)
  : result model :=
  let (batches, m1) := next_shuffle m (length (_user_input (data m))) in
  let m2 := initialize_perturbations m1 in
  g <- attack_gradient m2 batches ;;
  Ok (set_perturbations m2
        (scale (l2_normalize (fst g)) epsilon)
        (scale (l2_normalize (snd g)) epsilon)).

Definition adv_reg : R := 1.

(** One iteration of the loop of [_adversarial_train_step].  The gradient of
    [amf_loss] is the sum of the gradient of the plain loss, taken with the
    perturbations the batch started with, and of the gradient of the
    adversarial loss, taken with the fresh perturbations held constant
    ([tf.stop_gradient]). *)
Definition _adversarial_train_batch (epsilon : R) (m : model) (b : batch)
  : result model :=
  sc <- bpr_scores m b ;;
  sq <- reg_squares sc ;;
  let m1 := set_loss m (bpr_loss sc) in
  m2 <- execute_adversarial_attack m1 epsilon ;;
  sc_adver <- bpr_scores m2 b ;;
  let g := gradient m b sc 1 (reg_coeff m sq) in
  let g_adver := gradient m2 b sc_adver adv_reg 0 in
  Ok (apply_gradients m2
        (map2 vadd (fst g) (fst g_adver), map2 vadd (snd g) (snd g_adver))).

Definition _adversarial_train_step (epsilon : R) (m : model)
    (batches : list batch) : result model :=
  m' <- foldM (_adversarial_train_batch epsilon) batches m ;;
  Ok (initialize_perturbations m').

Definition adversarial_train (m : model) (adversarial_epochs : nat)
    (epsilon : R) : result model :=
  foldM (fun m' _ =>
           let (batches, m1) := next_shuffle m' (batch_size m') in
           _adversarial_train_step epsilon m1 batches)
        (seq 0 adversarial_epochs) m.

End BPRMF.

(** ** Single precision

    TensorFlow computes in float32.  The modules above idealise its
    arithmetic as exact; this one keeps the rounding, for the two inferences,
    whose results are compared with each other.  A finite binary32 number is
    a rational; an operation is the exact operation followed by rounding to
    nearest, ties to even.  Numbers beyond the finite range (overflow to
    infinity, NaN) are not modelled. *)

Module F32.

Local Open Scope Q_scope.

Abbreviation vec := (list Q).
Abbreviation tensor := (list (list Q)).

(** The exponent of the leading bit of a non-zero rational:
    floor(log2 |x|). *)
Definition ilog2 (x : Q) : Z :=
  let e := (Z.log2 (Z.abs (Qnum x)) - Z.log2 (Zpos (Qden x)))%Z in
  if Qle_bool (2 ^ e) (Qabs x) then e else (e - 1)%Z.

(** The nearest integer, ties to the even one. *)
Definition nearest_even (x : Q) : Z :=
  let f := Qfloor x in
  match Qcompare (x - inject_Z f) (1 # 2) with
  | Lt => f
  | Gt => (f + 1)%Z
  | Eq => if Z.even f then f else (f + 1)%Z
  end.

(** Rounding to binary32: 24 significant bits, the last place no finer than
    2^-149. *)
Definition round (x : Q) : Q :=
  if Qeq_bool x 0 then 0
  else let e := Z.max (ilog2 x - 23) (-149) in
       Qred (inject_Z (nearest_even (x / 2 ^ e)) * 2 ^ e).

Definition fadd (x y : Q) : Q := round (x + y).
Definition fmul (x y : Q) : Q := round (x * y).
Definition fma (x y z : Q) : Q := round (x * y + z).

(** The tensor operations of the two inferences, as in module [TF], each
    scalar operation rounded.  [tf.matmul] accumulates a row-by-column
    product term by term in the order of the index, with one fused
    multiply-add, hence one rounding, per term. *)
Definition binop (op : Q -> Q -> Q) (a b : tensor) : result tensor :=
  TF.bcast (TF.bcast (fun x y => Ok (op x y))) a b.

Definition add := binop fadd.
Definition mul := binop fmul.

Definition lookup_row (params : tensor) (id : nat) : result vec :=
  match nth_error params id with
  | Some r => Ok r
  | None => Raise (InvalidArgument_index id (length params))
  end.

Definition embedding_lookup (params : tensor) (ids : list (list nat))
  : result (list tensor) :=
  mapM (mapM (lookup_row params)) ids.

Definition vsum (d : nat) (rows : tensor) : vec :=
  match rows with
  | [] => repeat 0 d
  | r :: rs => fold_left (TF.map2 fadd) rs r
  end.

Definition reduce_sum_1 (d : nat) (t : list tensor) : tensor :=
  map (vsum d) t.

Definition column (j : nat) (t : tensor) : vec := map (fun r => nth j r 0) t.

Definition transpose (cols : nat) (t : tensor) : tensor :=
  map (fun j => column j t) (seq 0 cols).

Definition dot (a b : vec) : Q :=
  fold_left (fun acc xy => fma (fst xy) (snd xy) acc) (combine a b) 0.

Definition matmul (m : nat) (a b : tensor) : result tensor :=
  mapM (fun row =>
          if (length row =? length b)%nat
          then Ok (map (fun j => dot row (column j b)) (seq 0 m))
          else Raise (InvalidArgument_shapes (length row) (length b)))
       a.

(** What the inferences read of an instance. *)
Record weights : Type := {
  embedding_size : nat;
  embedding_P : tensor;
  embedding_Q : tensor;
  h : tensor;
  delta_P : tensor;
  delta_Q : tensor
}.

(** [get_inference] and [get_full_inference], statement by statement as in
    module [BPRMF]. *)
Definition get_inference (m : weights) (users items : list (list nat))
  : result (tensor * tensor * tensor) :=
  P' <- add (embedding_P m) (delta_P m) ;;
  gathered_p <- embedding_lookup P' users ;;
  let embedding_p := reduce_sum_1 (embedding_size m) gathered_p in
  Q' <- add (embedding_Q m) (delta_Q m) ;;
  gathered_q <- embedding_lookup Q' items ;;
  let embedding_q := reduce_sum_1 (embedding_size m) gathered_q in
  pq <- mul embedding_p embedding_q ;;
  out <- matmul 1 pq (h m) ;;
  Ok (out, embedding_p, embedding_q).

Definition get_full_inference (m : weights) : result tensor :=
  P' <- add (embedding_P m) (delta_P m) ;;
  Q' <- add (embedding_Q m) (delta_Q m) ;;
  matmul (length Q') P' (transpose (embedding_size m) Q').

(** One user, one item, two factors, the embedding (1, 4097) for both and
    no perturbation: the product 4097 * 4097 = 16785409 needs 25 bits. *)
Definition odd_square : weights :=
  {| embedding_size := 2;
     embedding_P := [[1; 4097]];
     embedding_Q := [[1; 4097]];
     h := [[1]; [1]];
     delta_P := [[0; 0]];
     delta_Q := [[0; 0]] |}.

End F32.

(** ** Invariants and derived notions *)

Module Inv.

Import TF BPRMF.
Local Open Scope R_scope.

(** The shape discipline of an instance: the two embedding matrices, the
    two perturbations and the two optimizer slots are (users x d) and
    (items x d). *)
Record shape_inv (m : model) : Prop := {
  shape_P : has_shape (embedding_P m) (num_users m) (embedding_size m);
  shape_Q : has_shape (embedding_Q m) (num_items m) (embedding_size m);
  shape_delta_P : has_shape (delta_P m) (num_users m) (embedding_size m);
  shape_delta_Q : has_shape (delta_Q m) (num_items m) (embedding_size m);
  shape_accum_P : has_shape (accum_P m) (num_users m) (embedding_size m);
  shape_accum_Q : has_shape (accum_Q m) (num_items m) (embedding_size m)
}.

Definition valid_ids (n : nat) (ids : list (list nat)) : Prop :=
  Forall (Forall (fun id => (id < n)%nat)) ids.

Definition valid_batch (m : model) (b : batch) : Prop :=
  Forall (fun s => (user s < num_users m)%nat /\
                   (item_pos s < num_items m)%nat /\
                   (item_neg s < num_items m)%nat) b.

(** The attributes no method assigns after construction. *)
Definition same_config (m m' : model) : Prop :=
  data m' = data m /\ num_users m' = num_users m /\
  num_items m' = num_items m /\ embedding_size m' = embedding_size m /\
  h m' = h m /\ reg m' = reg m /\ learning_rate m' = learning_rate m /\
  epochs m' = epochs m /\ batch_size m' = batch_size m /\
  path_output_rec_result m' = path_output_rec_result m /\
  path_output_rec_weight m' = path_output_rec_weight m.

(** The perturbed tables [embedding + delta], and what [get_inference]
    returns for ids inside them, written out. *)
Definition perturbed_P (m : model) : tensor :=
  map2 vadd (embedding_P m) (delta_P m).

Definition perturbed_Q (m : model) : tensor :=
  map2 vadd (embedding_Q m) (delta_Q m).

Definition gathered (d : nat) (t : tensor) (ids : list (list nat)) : tensor :=
  reduce_sum_1 d (map (map (fun id => nth id t [])) ids).

Definition inference_scores (m : model) (users items : list (list nat))
  : tensor :=
  map (fun row => map (fun j => dot row (column j (h m))) (seq 0 1))
      (map2 (map2 Rmult)
         (gathered (embedding_size m) (perturbed_P m) users)
         (gathered (embedding_size m) (perturbed_Q m) items)).

(** The model is usable for inference: shapes agree and [h] is a column of
    [embedding_size] entries. *)
Definition model_ok (m : model) : Prop :=
  shape_inv m /\ length (h m) = embedding_size m.

(** Every batch the loader hands out uses known ids, and a shuffle into
    one batch of the whole data set is not empty. *)
Definition valid_data (m : model) : Prop :=
  forall k size, Forall (valid_batch m) (shuffle (data m) k size).

Definition nonempty_data (m : model) : Prop :=
  forall k, shuffle (data m) k (length (_user_input (data m))) <> [].

Definition same_perturbations (m m' : model) : Prop :=
  delta_P m' = delta_P m /\ delta_Q m' = delta_Q m.

(** The bodies of the two epoch loops. *)
Definition epoch (m : model) : result model :=
  let (batches, m1) := next_shuffle m (batch_size m) in
  _train_step m1 batches.

Definition adversarial_epoch (epsilon : R) (m : model) : result model :=
  let (batches, m1) := next_shuffle m (batch_size m) in
  _adversarial_train_step epsilon m1 batches.

Definition run_adversarial_epochs (epsilon : R) (n : nat) (m : model)
  : result model :=
  foldM (fun m' (_ : nat) => adversarial_epoch epsilon m') (seq 0 n) m.

Definition zero_perturbations (m : model) : Prop :=
  delta_P m = zeros (num_users m) (embedding_size m) /\
  delta_Q m = zeros (num_items m) (embedding_size m).

(** The shuffle [execute_adversarial_attack] draws and the model it
    differentiates: the whole data set in one batch, perturbations reset. *)
Definition attack_batches (m : model) : list batch :=
  fst (next_shuffle m (length (_user_input (data m)))).

Definition attack_model (m : model) : model :=
  initialize_perturbations
    (snd (next_shuffle m (length (_user_input (data m))))).

(** The perturbation in the words of the specification ("L2-normalize
    gradient, scale by epsilon, clip, add"): the normalised gradient, scaled
    by epsilon, clipped to some range and added to the embeddings. *)
Definition stated_perturbation (lo hi epsilon : R) (embedding grad : tensor)
  : result tensor :=
  add embedding
      (tmap (clip_by_value lo hi) (scale (l2_normalize grad) epsilon)).

(** The first [n] iterations of the loop of [train]. *)
Definition run_epochs (n : nat) (m : model) : result model :=
  foldM (fun m' (_ : nat) => epoch m') (seq 0 n) m.

(** One Adagrad update of a single entry, for the learning rate 0.05 of the
    constructor. *)
Definition adagrad_step (v g a : R) : R :=
  v - 5 / 100 * g / (sqrt (a + g * g) + adagrad_epsilon).

(** A relation that holds between two tensors of one shape entry by
    entry. *)
Definition entrywise (Rel : R -> R -> Prop) (t t' : tensor) : Prop :=
  Forall2 (Forall2 Rel) t t'.

(** The optimizer's slots hold at least the value they start from, 0.1. *)
Definition slots_ok (m : model) : Prop :=
  Forall (Forall (Rle initial_accumulator_value)) (accum_P m) /\
  Forall (Forall (Rle initial_accumulator_value)) (accum_Q m).

Definition slots_grow (m m' : model) : Prop :=
  entrywise Rle (accum_P m) (accum_P m') /\
  entrywise Rle (accum_Q m) (accum_Q m').



Definition sized (nu ni : nat) (m : model) : Prop :=
  shape_inv m /\ num_users m = nu /\ num_items m = ni.

(** The models a program can hold: what the constructor returns, and what
    the methods return on such a model. *)
Inductive reachable : model -> Prop :=
| reach_init (dl : DataLoader) (p1 p2 : string)
    (noise_P noise_Q : nat -> nat -> R) :
    reachable (init dl p1 p2 noise_P noise_Q)
| reach__train_step (m m' : model) (batches : list batch) :
    reachable m -> _train_step m batches = Ok m' -> reachable m'
| reach_train (m m' : model) :
    reachable m -> train m = Ok m' -> reachable m'
| reach_attack (m m' : model) (epsilon : R) :
    reachable m -> execute_adversarial_attack m epsilon = Ok m' ->
    reachable m'
| reach__adversarial_train_step (m m' : model) (epsilon : R)
    (batches : list batch) :
    reachable m -> _adversarial_train_step epsilon m batches = Ok m' ->
    reachable m'
| reach_adversarial_train (m m' : model) (n : nat) (epsilon : R) :
    reachable m -> adversarial_train m n epsilon = Ok m' -> reachable m'.

(** The attributes as the constructor sets them. *)
Definition constructor_config (m : model) : Prop :=
  h m = fill 1 64 1 /\ embedding_size m = 64%nat /\
  learning_rate m = 5 / 100 /\ reg m = 0 /\
  epochs m = 5%nat /\ batch_size m = 512%nat /\
  num_users m = dl_num_users (data m) /\
  num_items m = dl_num_items (data m).

(** The loss of one triple as a function of its score difference:
    softplus(-clip(x)). *)
Definition sample_loss (x : R) : R :=
  softplus (- clip_by_value clip_lo clip_hi x).


(** The exceptions of TensorFlow, as opposed to those of Python itself. *)
Definition tf_error (e : exn) : Prop :=
  match e with
  | InvalidArgument_index _ _ | InvalidArgument_shapes _ _ => True
  | IndexError | NameError => False
  end.

(** Every exception a computation can raise satisfies [P]. *)
Definition raises_only {A : Type} (P : exn -> Prop) (c : result A) : Prop :=
  forall e, c = Raise e -> P e.

Definition tf_or_index_error (e : exn) : Prop := tf_error e \/ e = IndexError.

(** A row of the tape whose three gathered embeddings are zero. *)
Definition flat_tape (d : nat) (row : sample * (vec * (vec * (vec * R))))
  : Prop :=
  let '(_, (p, (q, (q', _)))) := row in
  p = repeat 0 d /\ q = repeat 0 d /\ q' = repeat 0 d.

(** A model whose embeddings and perturbations are all zero. *)
Definition zero_model (m : model) : Prop :=
  embedding_P m = zeros (num_users m) (embedding_size m) /\
  embedding_Q m = zeros (num_items m) (embedding_size m) /\
  zero_perturbations m.

(** A model at zero that agrees with [m] on what is fixed at construction
    and on the optimizer's slots. *)
Definition still (m s : model) : Prop :=
  model_ok s /\ same_config m s /\ zero_model s /\
  accum_P s = accum_P m /\ accum_Q s = accum_Q m.

(** What the inferences and the gradient read of a model. *)
Definition same_parameters (m m' : model) : Prop :=
  embedding_P m' = embedding_P m /\ embedding_Q m' = embedding_Q m /\
  delta_P m' = delta_P m /\ delta_Q m' = delta_Q m /\
  h m' = h m /\ embedding_size m' = embedding_size m /\ reg m' = reg m.

(** The users and the items a batch names. *)
Definition users_of (b : batch) : list nat := map user b.

Definition items_of (b : batch) : list nat :=
  map item_pos b ++ map item_neg b.

(** Row [u] of a tensor, and what the model keeps for a user or an item:
    its embedding and the optimizer's slot for it. *)
Definition row (u : nat) (t : tensor) : vec := nth u t [].

Definition same_user_rows (u : nat) (m m' : model) : Prop :=
  row u (embedding_P m') = row u (embedding_P m) /\
  row u (accum_P m') = row u (accum_P m).

Definition same_item_rows (i : nat) (m m' : model) : Prop :=
  row i (embedding_Q m') = row i (embedding_Q m) /\
  row i (accum_Q m') = row i (accum_Q m).



(** What the tape differentiates in [_train_step] and in the attack:
    [loss_opt = loss + reg_loss]. *)
Definition loss_opt (m : model) (b : batch) : result R :=
  sc <- bpr_scores m b ;;
  sq <- reg_squares sc ;;
  Ok (bpr_loss sc + reg_loss m sq).

(** A list with [f] applied to its element [n]. *)
Fixpoint adjust {A : Type} (f : A -> A) (n : nat) (l : list A) : list A :=
  match l, n with
  | [], _ => []
  | x :: l', O => f x :: l'
  | x :: l', S n' => x :: adjust f n' l'
  end.

(** A tensor with [t] added to its entry (r, k), and a model with [t] added
    to one entry of an embedding matrix. *)
Definition nudge (r k : nat) (t : R) (T : tensor) : tensor :=
  adjust (adjust (fun x => x + t) k) r T.

Definition nudge_P (m : model) (u k : nat) (t : R) : model :=
  set_parameters m (nudge u k t (embedding_P m)) (embedding_Q m) (h m).

Definition nudge_Q (m : model) (i k : nat) (t : R) : model :=
  set_parameters m (embedding_P m) (nudge i k t (embedding_Q m)) (h m).

(** [g] holds, entry by entry, the partial derivatives of [loss_opt] on the
    batch [b] with respect to the entries of [embedding_P] and of
    [embedding_Q], at the embeddings of [m]. *)
Definition is_gradient_at (m : model) (b : batch) (g : tensor * tensor)
  : Prop :=
  (forall u k, (u < num_users m)%nat -> (k < embedding_size m)%nat ->
     exists L : R -> R,
       (forall t, loss_opt (nudge_P m u k t) b = Ok (L t)) /\
       derivable_pt_lim L 0 (nth k (row u (fst g)) 0)) /\
  (forall i k, (i < num_items m)%nat -> (k < embedding_size m)%nat ->
     exists L : R -> R,
       (forall t, loss_opt (nudge_Q m i k t) b = Ok (L t)) /\
       derivable_pt_lim L 0 (nth k (row i (snd g)) 0)).

(** No score difference of the batch sits at an end of the clipping range,
    where the clipped loss has no derivative. *)
Definition off_the_kinks (sc : scores) : Prop :=
  Forall (Forall (fun x => x <> clip_lo /\ x <> clip_hi)) (diff sc).

(** The score difference of a triple on two tables, the squares the
    regulariser sums for it, and the row the tape holds for it: the three
    gathered embeddings and the score difference. *)
Definition pair_difference (P Q : tensor) (s : sample) : R :=
  dot (row (user s) P) (row (item_pos s) Q)
  - dot (row (user s) P) (row (item_neg s) Q).

Definition squares_of (P Q : tensor) (s : sample) : R :=
  sqnorm (row (user s) P) + sqnorm (row (item_pos s) Q)
  + sqnorm (row (item_neg s) Q).

Definition taped (P Q : tensor) (s : sample)
  : sample * (vec * (vec * (vec * R))) :=
  (s, (row (user s) P,
       (row (item_pos s) Q, (row (item_neg s) Q, pair_difference P Q s)))).

(** A triple names rows of the two tables, all of length [d]. *)
Definition in_tables (P Q : tensor) (d : nat) (s : sample) : Prop :=
  ((user s < length P)%nat /\ (item_pos s < length Q)%nat /\
   (item_neg s < length Q)%nat) /\
  length (row (user s) P) = d /\ length (row (item_pos s) Q) = d /\
  length (row (item_neg s) Q) = d.

(** The instance with other output paths. *)
Definition set_paths (m : model) (p1 p2 : string) : model :=
  {| data := data m; num_users := num_users m; num_items := num_items m;
     path_output_rec_result := p1;
     path_output_rec_weight := p2;
     embedding_size := embedding_size m; learning_rate := learning_rate m;
     reg := reg m; epochs := epochs m; batch_size := batch_size m;
     embedding_P := embedding_P m; embedding_Q := embedding_Q m; h := h m;
     delta_P := delta_P m; delta_Q := delta_Q m;
     accum_P := accum_P m; accum_Q := accum_Q m;
     loss := loss m; draws := draws m |}.

End Inv.

(** ** Small instances

    Two users, two items, two latent factors, one training triple: user 0
    prefers item 0 to item 1.  User 1 has no interaction. *)

Module Tiny.

Import TF BPRMF.
Local Open Scope R_scope.

Definition loader : DataLoader :=
  {| dl_num_users := 2;
     dl_num_items := 2;
     _user_input := [0%nat];
     shuffle := fun _ _ => [[(0%nat, 0%nat, 1%nat)]] |}.

Definition start : model :=
  {| data := loader;
     num_users := 2; num_items := 2;
     path_output_rec_result := "../rec_result/";
     path_output_rec_weight := "../rec_weights/";
     embedding_size := 2; learning_rate := 5 / 100;
     reg := 0; epochs := 2; batch_size := 512;
     embedding_P := [[1; 2]; [1; 2]];
     embedding_Q := [[1; 0]; [0; 0]];
     h := fill 1 2 1;
     delta_P := zeros 2 2; delta_Q := zeros 2 2;
     accum_P := fill initial_accumulator_value 2 2;
     accum_Q := fill initial_accumulator_value 2 2;
     loss := 0; draws := 0 |}.

(** The same instance with all embeddings at zero, after [k] shuffles and
    with [l] as the last loss. *)
Definition flat (l : R) (k : nat) : model :=
  {| data := loader;
     num_users := 2; num_items := 2;
     path_output_rec_result := "../rec_result/";
     path_output_rec_weight := "../rec_weights/";
     embedding_size := 2; learning_rate := 5 / 100;
     reg := 0; epochs := 2; batch_size := 512;
     embedding_P := zeros 2 2;
     embedding_Q := zeros 2 2;
     h := fill 1 2 1;
     delta_P := zeros 2 2; delta_Q := zeros 2 2;
     accum_P := fill initial_accumulator_value 2 2;
     accum_Q := fill initial_accumulator_value 2 2;
     loss := l; draws := k |}.

(** The instance of [Tiny] with a data set that names user 5, who does not
    exist. *)
Definition stray : model :=
  {| data := {| dl_num_users := 2; dl_num_items := 2;
                _user_input := [5%nat];
                shuffle := fun _ _ => [[(5%nat, 0%nat, 1%nat)]] |};
     num_users := 2; num_items := 2;
     path_output_rec_result := "../rec_result/";
     path_output_rec_weight := "../rec_weights/";
     embedding_size := 2; learning_rate := 5 / 100;
     reg := 0; epochs := 2; batch_size := 512;
     embedding_P := [[1; 2]; [1; 2]];
     embedding_Q := [[1; 0]; [0; 0]];
     h := fill 1 2 1;
     delta_P := zeros 2 2; delta_Q := zeros 2 2;
     accum_P := fill initial_accumulator_value 2 2;
     accum_Q := fill initial_accumulator_value 2 2;
     loss := 0; draws := 0 |}.

(** The instance of [Tiny] with a data set without interactions: every
    shuffle is empty. *)
Definition idle : model :=
  {| data := {| dl_num_users := 2; dl_num_items := 2;
                _user_input := [];
                shuffle := fun _ _ => [] |};
     num_users := 2; num_items := 2;
     path_output_rec_result := "../rec_result/";
     path_output_rec_weight := "../rec_weights/";
     embedding_size := 2; learning_rate := 5 / 100;
     reg := 0; epochs := 2; batch_size := 512;
     embedding_P := [[1; 2]; [1; 2]];
     embedding_Q := [[1; 0]; [0; 0]];
     h := fill 1 2 1;
     delta_P := zeros 2 2; delta_Q := zeros 2 2;
     accum_P := fill initial_accumulator_value 2 2;
     accum_Q := fill initial_accumulator_value 2 2;
     loss := 0; draws := 0 |}.

(** One user, three items, one latent factor.  The user's only positive
    item is item 0; the first shuffle samples item 2 as the negative, every
    later shuffle samples item 1. *)
Definition resampling_loader : DataLoader :=
  {| dl_num_users := 1; dl_num_items := 3;
     _user_input := [0%nat];
     shuffle := fun k _ => if (k =? 0)%nat
                           then [[(0%nat, 0%nat, 2%nat)]]
                           else [[(0%nat, 0%nat, 1%nat)]] |}.

Definition duel (p q0 q1 q2 aP a0 a1 a2 l : R) (k : nat) : model :=
  {| data := resampling_loader;
     num_users := 1; num_items := 3;
     path_output_rec_result := "../rec_result/";
     path_output_rec_weight := "../rec_weights/";
     embedding_size := 1; learning_rate := 5 / 100;
     reg := 0; epochs := 2; batch_size := 512;
     embedding_P := [[p]];
     embedding_Q := [[q0]; [q1]; [q2]];
     h := fill 1 1 1;
     delta_P := zeros 1 1; delta_Q := zeros 3 1;
     accum_P := [[aP]];
     accum_Q := [[a0]; [a1]; [a2]];
     loss := l; draws := k |}.

(** Embeddings of the size the constructor draws (0.01, 0.01, 0.02, 0) and
    fresh optimizer slots. *)
Definition duel0 : model :=
  duel (1 / 100) (1 / 100) (2 / 100) 0 (/ 10) (/ 10) (/ 10) (/ 10) 0 0.

End Tiny.

(** ** The top-level cells *)

Module Notebook.

Import TF BPRMF Inv.
Local Open Scope R_scope.

(** The statements of the code cells that act on the data or the model.
    Imports, the seeding of the generator and the prints are left out; the
    prints after the second and the fourth evaluation divide the new
    metrics by [before_adv_*], with the arithmetic of whatever number type
    the evaluator returns. *)
Inductive statement : Type :=
| LoadData (path_train_data path_test_data : string)
| Construct (path_output_rec_result path_output_rec_weight : string)
| Train
| Evaluate (before : bool)
| Attack (epsilon : R)
| AdversarialTrain (adversarial_epochs : nat) (epsilon : R).

Definition notebook : list statement :=
  [ LoadData "./data/movielens-500/trainingset.tsv"
             "./data/movielens-500/testset.tsv";
    Construct "../rec_result/" "../rec_weights/";
    Train;
    Evaluate true;
    Attack (1 / 2);
    Evaluate false;
    AdversarialTrain 1 (1 / 2);
    Evaluate true;
    Attack (1 / 2);
    Evaluate false ].

(** The steps the specification names. *)
Inductive step : Type :=
| LoadDataStep
| ConstructModelStep
| TrainStep
| EvaluateStep
| PerturbStep
| AdversariallyTrainStep.

Definition step_of (s : statement) : step :=
  match s with
  | LoadData _ _ => LoadDataStep
  | Construct _ _ => ConstructModelStep
  | Train => TrainStep
  | Evaluate _ => EvaluateStep
  | Attack _ => PerturbStep
  | AdversarialTrain _ _ => AdversariallyTrainStep
  end.

(** "load data, construct model, train, evaluate, perturb, evaluate,
    adversarially train, evaluate" *)
Definition specified_steps : list step :=
  [ LoadDataStep; ConstructModelStep; TrainStep; EvaluateStep; PerturbStep;
    EvaluateStep; AdversariallyTrainStep; EvaluateStep ].

(** The state of the notebook's kernel: its variables and the statements
    executed so far. *)
Record kernel : Type := {
  data_var : option DataLoader;
  recommender_model : option model;
  before_adv : option (R * R * R);
  after_adv : option (R * R * R);
  executed : list statement
}.

Definition fresh_kernel : kernel :=
  {| data_var := None; recommender_model := None;
     before_adv := None; after_adv := None;
     executed := [] |}.

Definition set_model (k : kernel) (m : model) : kernel :=
  {| data_var := data_var k; recommender_model := Some m;
     before_adv := before_adv k; after_adv := after_adv k;
     executed := executed k |}.

Definition set_metrics (k : kernel) (before : bool) (r : R * R * R) : kernel :=
  {| data_var := data_var k; recommender_model := recommender_model k;
     before_adv := if before then Some r else before_adv k;
     after_adv := if before then after_adv k else Some r;
     executed := executed k |}.

Definition log_statement (k : kernel) (s : statement) : kernel :=
  {| data_var := data_var k; recommender_model := recommender_model k;
     before_adv := before_adv k; after_adv := after_adv k;
     executed := executed k ++ [s] |}.

Definition the_model (k : kernel) : result model :=
  match recommender_model k with
  | Some m => Ok m
  | None => Raise NameError
  end.

(** A kernel whose model can be trained, attacked and evaluated. *)
Definition ready (k : kernel) : Prop :=
  exists m, recommender_model k = Some m /\
            model_ok m /\ valid_data m /\ nonempty_data m.

Definition acts_on_model (s : statement) : Prop :=
  match s with
  | LoadData _ _ | Construct _ _ => False
  | _ => True
  end.

Definition loads_data (s : statement) : Prop :=
  match s with
  | LoadData _ _ => True
  | _ => False
  end.

Section Cells.

(** Modelled from the spec: the constructor of [DataLoader]
    (src/dataset/dataset.py, not part of the source) loads the training and
    the test set from the two TSV files it is given. *)
Variable read_dataset : string -> string -> DataLoader.

(** The values drawn for the two embedding matrices. *)
Variables noise_P noise_Q : nat -> nat -> R.

(** Modelled from the spec: [Evaluator.evaluate]
    (src/recommender/Evaluator.py, not part of the source) computes the
    top-K metrics (HR, nDCG, AUC) of the model it was built for: an
    aggregation over the model's predictions that uses no file. *)
Variable evaluate : model -> result (R * R * R).

Definition exec_statement (k : kernel) (s : statement) : result kernel :=
  match s with
  | LoadData tr te =>
      Ok {| data_var := Some (read_dataset tr te);
            recommender_model := recommender_model k;
            before_adv := before_adv k; after_adv := after_adv k;
            executed := executed k |}
  | Construct p1 p2 =>
      match data_var k with
      | Some d => Ok (set_model k (init d p1 p2 noise_P noise_Q))
      | None => Raise NameError
      end
  | Train =>
      m <- the_model k ;; m' <- train m ;; Ok (set_model k m')
  | Evaluate before =>
      m <- the_model k ;; r <- evaluate m ;; Ok (set_metrics k before r)
  | Attack epsilon =>
      m <- the_model k ;;
      m' <- execute_adversarial_attack m epsilon ;; Ok (set_model k m')
  | AdversarialTrain n epsilon =>
      m <- the_model k ;;
      m' <- adversarial_train m n epsilon ;; Ok (set_model k m')
  end.

Definition exec (k : kernel) (s : statement) : result kernel :=
  k' <- exec_statement k s ;; Ok (log_statement k' s).

Definition run (statements : list statement) (k : kernel) : result kernel :=
  foldM exec statements k.

Definition run_notebook : result kernel := run notebook fresh_kernel.

End Cells.



(** A stand-in for the parts of the repository outside the notebook: the
    loader of the small instance, embeddings drawn as zero, an evaluator
    that reports zeros. *)
Definition tiny_dataset (_ _ : string) : DataLoader := Tiny.loader.
Definition zero_noise (_ _ : nat) : R := 0.
Definition null_evaluate (_ : model) : result (R * R * R) := Ok (0, 0, 0).

(** The same with embeddings drawn as 0.01 and an evaluator that reports
    one half for each metric. *)
Definition small_noise (_ _ : nat) : R := 1 / 100.
Definition level_evaluate (_ : model) : result (R * R * R) :=
  Ok (1 / 2, 1 / 2, 1 / 2).

End Notebook.

(** ** Proof automation *)

(** Evaluation of the model on concrete tensors: the list structure is
    computed, the real-number expressions in the entries are left as they
    are. *)
Ltac run :=
  lazy -[Rplus Rmult Rminus Ropp Rinv Rdiv IZR INR sqrt exp ln Rmax Rmin
         Rlt_dec TF.softplus TF.clip_by_value TF.sqnorm TF.l2_epsilon
         BPRMF.dloss BPRMF.clip_lo BPRMF.clip_hi].

(** Equality of two real expressions that differ by ring identities under
    a function such as [sqrt]. *)
Ltac req := first [ring | (unfold Rdiv; ring) | (f_equal; req)].

(** The model a kernel holds after a cell, read off an equation
    [recommender_model k = Some m]. *)
Ltac model_of H :=
  cbn [Notebook.recommender_model Notebook.set_model Notebook.log_statement
       Notebook.set_metrics] in H;
  injection H as <-.

Ltac entries :=
  repeat match goal with |- _ :: _ = _ :: _ => f_equal end; try req.

(** * Lemmas *)

(** ** Lemmas on the monad and on tensors *)

Lemma bind_Ok {A B : Type} (c : result A) (k : A -> result B) (b : B) :
  bind c k = Ok b -> exists a, c = Ok a /\ k a = Ok b.
Proof.
  destruct c as [a|e]; simpl; intros H; [eauto | discriminate].
Qed.

Lemma bind_Raise {A B : Type} (c : result A) (k : A -> result B) (e : exn) :
  bind c k = Raise e ->
  c = Raise e \/ exists a, c = Ok a /\ k a = Raise e.
Proof.
  destruct c as [a|e']; simpl; intros H; [right; eauto | left; congruence].
Qed.

Lemma mapM_Ok_map {A B : Type} (f : A -> result B) (g : A -> B) (xs : list A) :
  Forall (fun x => f x = Ok (g x)) xs -> mapM f xs = Ok (map g xs).
Proof.
  induction 1 as [|x xs Hx _ IH]; simpl; [reflexivity|].
  rewrite Hx; simpl. rewrite IH; reflexivity.
Qed.

Lemma mapM_length {A B : Type} (f : A -> result B) (xs : list A) (ys : list B) :
  mapM f xs = Ok ys -> length ys = length xs.
Proof.
  revert ys; induction xs as [|x xs IH]; simpl; intros ys H.
  - injection H as <-; reflexivity.
  - apply bind_Ok in H as (y & _ & H).
    apply bind_Ok in H as (ys' & Hys & H).
    injection H as <-; simpl; f_equal; auto.
Qed.

Lemma mapM_Forall2 {A B : Type} (f : A -> result B) (xs : list A) (ys : list B) :
  mapM f xs = Ok ys -> Forall2 (fun x y => f x = Ok y) xs ys.
Proof.
  revert ys; induction xs as [|x xs IH]; simpl; intros ys H.
  - injection H as <-; constructor.
  - apply bind_Ok in H as (y & Hy & H).
    apply bind_Ok in H as (ys' & Hys & H).
    injection H as <-; constructor; auto.
Qed.

Lemma foldM_app {A S : Type} (f : S -> A -> result S) (xs ys : list A) (s : S) :
  foldM f (xs ++ ys) s = (s' <- foldM f xs s ;; foldM f ys s').
Proof.
  revert s; induction xs as [|x xs IH]; simpl; intros s; [reflexivity|].
  destruct (f s x); simpl; auto.
Qed.

(** An invariant of the loop body is an invariant of the loop. *)
Lemma foldM_invariant {A S : Type} (I : S -> Prop) (f : S -> A -> result S)
    (xs : list A) :
  (forall s x s', I s -> f s x = Ok s' -> I s') ->
  forall s s', I s -> foldM f xs s = Ok s' -> I s'.
Proof.
  intros Hf; induction xs as [|x xs IH]; simpl; intros s s' Hs H.
  - injection H as <-; exact Hs.
  - apply bind_Ok in H as (s1 & H1 & H). eauto.
Qed.

Module TFLemmas.

Import TF.
Local Open Scope R_scope.

Lemma map2_length {A B C : Type} (f : A -> B -> C) (xs : list A) (ys : list B) :
  length xs = length ys -> length (map2 f xs ys) = length xs.
Proof.
  intros H; unfold map2.
  rewrite length_map, length_combine, H, Nat.min_id; reflexivity.
Qed.

Lemma has_shape_nil (d : nat) : has_shape [] 0 d.
Proof. split; [reflexivity | constructor]. Qed.

Lemma has_shape_cons (r : vec) (t : tensor) (n d : nat) :
  has_shape (r :: t) (S n) d <-> length r = d /\ has_shape t n d.
Proof.
  unfold has_shape; simpl; split.
  - intros [Hl Hf]; inversion Hf; subst; auto.
  - intros (Hr & Hl & Hf); split; [congruence | constructor; auto].
Qed.

Lemma has_shape_fill (c : R) (n d : nat) : has_shape (fill c n d) n d.
Proof.
  unfold has_shape, fill; split; [apply repeat_length|].
  apply Forall_forall; intros r Hr.
  apply repeat_spec in Hr; subst; apply repeat_length.
Qed.

Lemma has_shape_zeros (n d : nat) : has_shape (zeros n d) n d.
Proof. apply has_shape_fill. Qed.

Lemma has_shape_tmap (f : R -> R) (t : tensor) (n d : nat) :
  has_shape t n d -> has_shape (tmap f t) n d.
Proof.
  unfold has_shape, tmap; intros [Hl Hf]; split.
  - rewrite length_map; exact Hl.
  - apply Forall_map. eapply Forall_impl; [|exact Hf].
    simpl; intros r Hr; rewrite length_map; exact Hr.
Qed.

Lemma has_shape_scale (t : tensor) (c : R) (n d : nat) :
  has_shape t n d -> has_shape (scale t c) n d.
Proof. apply has_shape_tmap. Qed.

Lemma has_shape_l2_normalize (t : tensor) (n d : nat) :
  has_shape t n d -> has_shape (l2_normalize t) n d.
Proof.
  unfold has_shape, l2_normalize; intros [Hl Hf]; split.
  - rewrite length_map; exact Hl.
  - apply Forall_map. eapply Forall_impl; [|exact Hf].
    simpl; intros r Hr; unfold l2_normalize_row; rewrite length_map; exact Hr.
Qed.

Lemma map2_rect {A B C : Type} (f : A -> B -> C) (t : list (list A))
    (u : list (list B)) (d : nat) :
  length t = length u ->
  Forall (fun r => length r = d) t -> Forall (fun r => length r = d) u ->
  length (map2 (map2 f) t u) = length t /\
  Forall (fun r => length r = d) (map2 (map2 f) t u).
Proof.
  revert u; induction t as [|r t IH]; intros u Hl Hf Hfu.
  - split; [reflexivity | constructor].
  - destruct u as [|s u]; [discriminate|].
    inversion Hf; subst. inversion Hfu; subst.
    change (map2 (map2 f) (r :: t) (s :: u))
      with (map2 f r s :: map2 (map2 f) t u).
    destruct (IH u) as [IH1 IH2]; auto.
    split; simpl; [congruence|].
    constructor; [apply map2_length; congruence | exact IH2].
Qed.

Lemma has_shape_map2 {A : Type} (f : R -> A -> R) (t : tensor)
    (u : list (list A)) (n d : nat) :
  has_shape t n d ->
  length u = n -> Forall (fun r => length r = d) u ->
  has_shape (map2 (map2 f) t u) n d.
Proof.
  intros [Hl Hf] Hu Hfu.
  destruct (map2_rect f t u d) as [H1 H2];
    [rewrite Hl, Hu; reflexivity | assumption | assumption |].
  split; [rewrite H1; exact Hl | exact H2].
Qed.

Lemma has_shape_tensor_map2 (f : R -> R -> R) (t u : tensor) (n d : nat) :
  has_shape t n d -> has_shape u n d -> has_shape (map2 (map2 f) t u) n d.
Proof. intros Ht [Hu Hfu]; apply has_shape_map2; auto. Qed.

(** Tensors of one shape are combined element by element: broadcasting
    plays no part. *)
Lemma bcast_same_length {A B C : Type} (f : A -> B -> result C)
    (xs : list A) (ys : list B) :
  length xs = length ys ->
  bcast f xs ys = mapM (fun xy => f (fst xy) (snd xy)) (combine xs ys).
Proof. intros H; unfold bcast; rewrite H, Nat.eqb_refl; reflexivity. Qed.

Lemma binop_same_shape (op : R -> R -> R) (a b : tensor) (n d : nat) :
  has_shape a n d -> has_shape b n d ->
  binop op a b = Ok (map2 (map2 op) a b).
Proof.
  intros [Ha Hfa] [Hb Hfb]; unfold binop.
  rewrite bcast_same_length by congruence.
  apply (mapM_Ok_map _ (fun xy => map2 op (fst xy) (snd xy))).
  apply Forall_forall; intros [x y] Hin; simpl.
  assert (Hx : length x = d)
    by (eapply Forall_forall in Hfa; [exact Hfa | eapply in_combine_l; eauto]).
  assert (Hy : length y = d)
    by (eapply Forall_forall in Hfb; [exact Hfb | eapply in_combine_r; eauto]).
  rewrite bcast_same_length by congruence.
  apply (mapM_Ok_map _ (fun xy => op (fst xy) (snd xy))).
  apply Forall_forall; reflexivity.
Qed.

Lemma vadd_length (a b : vec) (d : nat) :
  length a = d -> length b = d -> length (vadd a b) = d.
Proof. intros Ha Hb; unfold vadd; rewrite map2_length; congruence. Qed.

Lemma vsub_length (a b : vec) (d : nat) :
  length a = d -> length b = d -> length (vsub a b) = d.
Proof. intros Ha Hb; unfold vsub; rewrite map2_length; congruence. Qed.

Lemma vscale_length (c : R) (a : vec) : length (vscale c a) = length a.
Proof. apply length_map. Qed.

Lemma vsum_length (d : nat) (rows : tensor) :
  Forall (fun r => length r = d) rows -> length (vsum d rows) = d.
Proof.
  destruct rows as [|r rs]; simpl; intros H; [apply repeat_length|].
  apply Forall_cons_iff in H as [Hr Hrs].
  revert r Hr; induction Hrs as [|s rs Hs _ IH]; simpl; intros r Hr; auto.
  apply IH, vadd_length; auto.
Qed.

Lemma lookup_row_length (t : tensor) (id d : nat) (r : vec) :
  Forall (fun r => length r = d) t -> lookup_row t id = Ok r -> length r = d.
Proof.
  intros Hf; unfold lookup_row.
  destruct (nth_error t id) as [r'|] eqn:E; [|discriminate].
  intros H; injection H as <-.
  eapply Forall_forall in Hf; [exact Hf | eapply nth_error_In; eauto].
Qed.

Lemma lookup_rows_length (t : tensor) (ids : list nat) (d : nat)
    (rows : tensor) :
  Forall (fun r => length r = d) t ->
  mapM (lookup_row t) ids = Ok rows -> Forall (fun r => length r = d) rows.
Proof.
  intros Hf H; apply mapM_Forall2 in H.
  induction H as [|id r ids' rs Hr _ IH]; constructor; auto.
  exact (lookup_row_length t id d r Hf Hr).
Qed.

Lemma embedding_lookup_shape (t : tensor) (ids : list (list nat)) (d : nat)
    (g : list tensor) :
  Forall (fun r => length r = d) t ->
  embedding_lookup t ids = Ok g ->
  has_shape (reduce_sum_1 d g) (length ids) d.
Proof.
  intros Hf H; unfold embedding_lookup in H.
  split.
  - unfold reduce_sum_1; rewrite length_map. eapply mapM_length; eauto.
  - apply mapM_Forall2 in H. unfold reduce_sum_1. apply Forall_map.
    induction H as [|i rows ids' g' Hi _ IH]; constructor; auto.
    apply vsum_length. eapply lookup_rows_length; eauto.
Qed.

Lemma fold_vadd_length (d : nat) (vs : list vec) :
  Forall (fun v => length v = d) vs ->
  length (fold_right vadd (repeat 0 d) vs) = d.
Proof.
  induction 1 as [|v vs Hv _ IH]; simpl; [apply repeat_length|].
  apply vadd_length; auto.
Qed.

Lemma has_shape_scatter_add (n d : nat) (updates : list (nat * vec)) :
  Forall (fun iv => length (snd iv) = d) updates ->
  has_shape (scatter_add n d updates) n d.
Proof.
  intros H; unfold scatter_add; split.
  - rewrite length_map, length_seq; reflexivity.
  - apply Forall_map, Forall_forall; intros r _.
    apply fold_vadd_length, Forall_map.
    apply Forall_forall; intros iv Hin.
    apply filter_In in Hin as [Hin _].
    eapply Forall_forall in H; eauto.
Qed.

Lemma has_shape_adagrad_accum (accum grad : tensor) (n d : nat) :
  has_shape accum n d -> has_shape grad n d ->
  has_shape (adagrad_accum accum grad) n d.
Proof. apply has_shape_tensor_map2. Qed.

Lemma has_shape_adagrad_var (lr : R) (var grad accum' : tensor) (n d : nat) :
  has_shape var n d -> has_shape grad n d -> has_shape accum' n d ->
  has_shape (adagrad_var lr var grad accum') n d.
Proof.
  intros Hv [Hg Hfg] [Ha Hfa]; unfold adagrad_var.
  destruct (map2_rect (@pair R R) grad accum' d) as [H1 H2];
    [rewrite Hg, Ha; reflexivity | assumption | assumption |].
  apply has_shape_map2; auto. rewrite H1; exact Hg.
Qed.

End TFLemmas.

(** ** Shapes of the model's tensors *)

Module Shapes.

Import TF TFLemmas BPRMF Inv.
Local Open Scope R_scope.

Lemma has_shape_truncated_normal (noise : nat -> nat -> R) (n d : nat) :
  has_shape (truncated_normal noise n d) n d.
Proof.
  unfold truncated_normal; split.
  - rewrite length_map, length_seq; reflexivity.
  - apply Forall_map, Forall_forall; intros r _.
    rewrite length_map, length_seq; reflexivity.
Qed.

Lemma shape_inv_init (dl : DataLoader) (p1 p2 : string)
    (noise_P noise_Q : nat -> nat -> R) :
  shape_inv (init dl p1 p2 noise_P noise_Q).
Proof.
  constructor; simpl;
    auto using has_shape_truncated_normal, has_shape_zeros, has_shape_fill.
Qed.

Lemma shape_inv_initialize_perturbations (m : model) :
  shape_inv m -> shape_inv (initialize_perturbations m).
Proof.
  intros []; constructor; simpl; auto using has_shape_zeros.
Qed.

Lemma shape_inv_set_loss (m : model) (l : R) :
  shape_inv m -> shape_inv (set_loss m l).
Proof. intros []; constructor; simpl; auto. Qed.

Lemma shape_inv_next_shuffle (m : model) (size : nat) :
  shape_inv m -> shape_inv (snd (next_shuffle m size)).
Proof. intros []; constructor; simpl; auto. Qed.

Lemma shape_inv_set_perturbations (m : model) (dP dQ : tensor) :
  shape_inv m ->
  has_shape dP (num_users m) (embedding_size m) ->
  has_shape dQ (num_items m) (embedding_size m) ->
  shape_inv (set_perturbations m dP dQ).
Proof. intros [] HP HQ; constructor; simpl; auto. Qed.

Lemma shape_inv_apply_gradients (m : model) (g : tensor * tensor) :
  shape_inv m ->
  has_shape (fst g) (num_users m) (embedding_size m) ->
  has_shape (snd g) (num_items m) (embedding_size m) ->
  shape_inv (apply_gradients m g).
Proof.
  intros [] HP HQ; constructor; simpl;
    auto using has_shape_adagrad_var, has_shape_adagrad_accum.
Qed.

(** The perturbed matrices [embedding + delta] that both inferences read. *)
Lemma add_perturbation (E D : tensor) (n d : nat) :
  has_shape E n d -> has_shape D n d ->
  add E D = Ok (map2 vadd E D) /\ has_shape (map2 vadd E D) n d.
Proof.
  intros HE HD; split.
  - exact (binop_same_shape Rplus E D n d HE HD).
  - exact (has_shape_tensor_map2 Rplus E D n d HE HD).
Qed.

Lemma get_inference_shape (m : model) (users items : list (list nat))
    (out p q : tensor) :
  shape_inv m ->
  get_inference m users items = Ok (out, p, q) ->
  has_shape p (length users) (embedding_size m) /\
  has_shape q (length items) (embedding_size m).
Proof.
  intros [HP HQ HdP HdQ _ _] H; unfold get_inference in H.
  destruct (add_perturbation _ _ _ _ HP HdP) as [EP [_ SP]].
  destruct (add_perturbation _ _ _ _ HQ HdQ) as [EQ [_ SQ]].
  rewrite EP in H; simpl in H.
  apply bind_Ok in H as (gp & Hgp & H).
  rewrite EQ in H; simpl in H.
  apply bind_Ok in H as (gq & Hgq & H).
  apply bind_Ok in H as (pq & _ & H).
  apply bind_Ok in H as (o & _ & H).
  injection H as _ <- <-.
  split; [exact (embedding_lookup_shape _ _ _ _ SP Hgp)
         | exact (embedding_lookup_shape _ _ _ _ SQ Hgq)].
Qed.

Lemma bpr_scores_shape (m : model) (b : batch) (sc : scores) :
  shape_inv m ->
  bpr_scores m b = Ok sc ->
  Forall (fun r => length r = embedding_size m) (embed_p_pos sc) /\
  Forall (fun r => length r = embedding_size m) (embed_q_pos sc) /\
  Forall (fun r => length r = embedding_size m) (embed_q_neg sc).
Proof.
  intros Hm H; unfold bpr_scores in H.
  apply bind_Ok in H as ([[o1 p1] q1] & H1 & H).
  apply bind_Ok in H as ([[o2 p2] q2] & H2 & H).
  apply bind_Ok in H as (d & _ & H).
  injection H as <-; simpl.
  destruct (get_inference_shape _ _ _ _ _ _ Hm H1) as [[_ A] [_ B]].
  destruct (get_inference_shape _ _ _ _ _ _ Hm H2) as [_ [_ C]].
  auto.
Qed.

Lemma tape_rows_lengths (b : batch) (sc : scores) (d : nat) :
  Forall (fun r => length r = d) (embed_p_pos sc) ->
  Forall (fun r => length r = d) (embed_q_pos sc) ->
  Forall (fun r => length r = d) (embed_q_neg sc) ->
  Forall (fun row =>
            let '(_, (p, (q, (q', _)))) := row in
            length p = d /\ length q = d /\ length q' = d)
         (tape_rows b sc).
Proof.
  intros HP HQ HQ'; apply Forall_forall.
  intros (s & p & q & q' & x) Hin; unfold tape_rows in Hin.
  apply in_combine_r in Hin.
  pose proof (in_combine_l _ _ _ _ Hin) as Ip.
  apply in_combine_r in Hin.
  pose proof (in_combine_l _ _ _ _ Hin) as Iq.
  apply in_combine_r in Hin.
  pose proof (in_combine_l _ _ _ _ Hin) as Iq'.
  rewrite Forall_forall in HP, HQ, HQ'; auto.
Qed.

Lemma gradient_shape (m : model) (b : batch) (sc : scores) (w c : R) :
  Forall (fun r => length r = embedding_size m) (embed_p_pos sc) ->
  Forall (fun r => length r = embedding_size m) (embed_q_pos sc) ->
  Forall (fun r => length r = embedding_size m) (embed_q_neg sc) ->
  has_shape (fst (gradient m b sc w c))
            (length (embedding_P m)) (embedding_size m) /\
  has_shape (snd (gradient m b sc w c))
            (length (embedding_Q m)) (embedding_size m).
Proof.
  intros HP HQ HQ'.
  pose proof (tape_rows_lengths b sc _ HP HQ HQ') as Hrows.
  rewrite Forall_forall in Hrows.
  split; simpl; apply has_shape_scatter_add, Forall_forall;
    intros [i v] Hin; apply in_flat_map in Hin as (row & Hrow & Hin);
    specialize (Hrows row Hrow);
    destruct row as (s & p & q & q' & x); destruct Hrows as (Lp & Lq & Lq');
    simpl in Hin.
  - destruct Hin as [E|[]]; injection E as _ <-; simpl.
    apply vadd_length; rewrite vscale_length; auto using vsub_length.
  - destruct Hin as [E|[E|[]]]; injection E as _ <-; simpl;
      apply vadd_length; rewrite vscale_length; auto.
Qed.

Lemma gradient_shape_inv (m : model) (b : batch) (sc : scores) (w c : R) :
  shape_inv m ->
  Forall (fun r => length r = embedding_size m) (embed_p_pos sc) ->
  Forall (fun r => length r = embedding_size m) (embed_q_pos sc) ->
  Forall (fun r => length r = embedding_size m) (embed_q_neg sc) ->
  has_shape (fst (gradient m b sc w c)) (num_users m) (embedding_size m) /\
  has_shape (snd (gradient m b sc w c)) (num_items m) (embedding_size m).
Proof.
  intros Hm HP HQ HQ'.
  destruct (gradient_shape m b sc w c HP HQ HQ') as [[L1 F1] [L2 F2]].
  split; split; auto.
  - rewrite L1; exact (proj1 (shape_P m Hm)).
  - rewrite L2; exact (proj1 (shape_Q m Hm)).
Qed.

Lemma shape_inv__train_batch (m m' : model) (b : batch) :
  shape_inv m -> _train_batch m b = Ok m' -> shape_inv m'.
Proof.
  intros Hm H; unfold _train_batch in H.
  apply bind_Ok in H as (sc & Hsc & H).
  apply bind_Ok in H as (sq & _ & H).
  injection H as <-.
  destruct (bpr_scores_shape _ _ _ Hm Hsc) as (A & B & C).
  pose proof (shape_inv_set_loss m (bpr_loss sc) Hm) as Hm1.
  destruct (gradient_shape_inv (set_loss m (bpr_loss sc)) b sc 1
              (reg_coeff (set_loss m (bpr_loss sc)) sq) Hm1 A B C) as [GP GQ].
  apply shape_inv_apply_gradients; [exact Hm1 | exact GP | exact GQ].
Qed.

Lemma shape_inv__train_step (m m' : model) (batches : list batch) :
  shape_inv m -> _train_step m batches = Ok m' -> shape_inv m'.
Proof.
  unfold _train_step; apply foldM_invariant.
  intros s x s' Hs H; eapply shape_inv__train_batch; eauto.
Qed.

Lemma shape_inv_attack_gradient (m : model) (batches : list batch)
    (g : tensor * tensor) :
  shape_inv m -> attack_gradient m batches = Ok g ->
  has_shape (fst g) (num_users m) (embedding_size m) /\
  has_shape (snd g) (num_items m) (embedding_size m).
Proof.
  intros Hm H; unfold attack_gradient in H.
  apply bind_Ok in H as (b0 & _ & H).
  apply bind_Ok in H as (sc & Hsc & H).
  apply bind_Ok in H as (sq & _ & H).
  injection H as <-.
  destruct (bpr_scores_shape _ _ _ Hm Hsc) as (A & B & C).
  exact (gradient_shape_inv m b0 sc 1 (reg_coeff m sq) Hm A B C).
Qed.

Lemma shape_inv_execute_adversarial_attack (m m' : model) (epsilon : R) :
  shape_inv m -> execute_adversarial_attack m epsilon = Ok m' -> shape_inv m'.
Proof.
  intros Hm H; unfold execute_adversarial_attack in H.
  destruct (next_shuffle m (length (_user_input (data m))))
    as [batches m1] eqn:E.
  assert (Hm1 : shape_inv m1)
    by (change m1 with (snd (batches, m1)); rewrite <- E;
        apply shape_inv_next_shuffle, Hm).
  apply shape_inv_initialize_perturbations in Hm1.
  apply bind_Ok in H as (g & Hg & H).
  injection H as <-.
  destruct (shape_inv_attack_gradient _ _ _ Hm1 Hg) as [GP GQ].
  apply shape_inv_set_perturbations;
    auto using has_shape_scale, has_shape_l2_normalize.
Qed.

Lemma shape_inv__adversarial_train_batch (epsilon : R) (m m' : model)
    (b : batch) :
  shape_inv m -> _adversarial_train_batch epsilon m b = Ok m' -> shape_inv m'.
Proof.
  intros Hm H; unfold _adversarial_train_batch in H.
  apply bind_Ok in H as (sc & Hsc & H).
  apply bind_Ok in H as (sq & _ & H).
  apply bind_Ok in H as (m2 & Hatt & H).
  apply bind_Ok in H as (sc' & Hsc' & H).
  injection H as <-.
  pose proof (shape_inv_set_loss m (bpr_loss sc) Hm) as Hm1.
  pose proof (shape_inv_execute_adversarial_attack _ _ _ Hm1 Hatt) as Hm2.
  destruct (bpr_scores_shape _ _ _ Hm Hsc) as (A & B & C).
  destruct (bpr_scores_shape _ _ _ Hm2 Hsc') as (A' & B' & C').
  destruct (gradient_shape_inv m b sc 1 (reg_coeff m sq) Hm A B C)
    as [GP GQ].
  destruct (gradient_shape_inv m2 b sc' adv_reg 0 Hm2 A' B' C')
    as [GP' GQ'].
  assert (Hn : num_users m2 = num_users m /\ num_items m2 = num_items m /\
               embedding_size m2 = embedding_size m).
  { clear - Hatt. unfold execute_adversarial_attack in Hatt; simpl in Hatt.
    apply bind_Ok in Hatt as (g & _ & Hatt). injection Hatt as <-; auto. }
  destruct Hn as (N1 & N2 & N3).
  rewrite <- N1, <- N3 in GP. rewrite <- N2, <- N3 in GQ.
  apply shape_inv_apply_gradients; auto;
    apply (has_shape_tensor_map2 Rplus); assumption.
Qed.

Lemma shape_inv__adversarial_train_step (epsilon : R) (m m' : model)
    (batches : list batch) :
  shape_inv m -> _adversarial_train_step epsilon m batches = Ok m' ->
  shape_inv m'.
Proof.
  intros Hm H; unfold _adversarial_train_step in H.
  apply bind_Ok in H as (m1 & H1 & H). injection H as <-.
  apply shape_inv_initialize_perturbations.
  revert H1; apply foldM_invariant; auto.
  intros s x s' Hs Hx; eapply shape_inv__adversarial_train_batch; eauto.
Qed.

Lemma shape_inv_train (m m' : model) :
  shape_inv m -> train m = Ok m' -> shape_inv m'.
Proof.
  unfold train; apply foldM_invariant.
  intros s x s' Hs H.
  destruct (next_shuffle s (batch_size s)) as [bs s1] eqn:E.
  eapply shape_inv__train_step; [|exact H].
  change s1 with (snd (bs, s1)); rewrite <- E.
  apply shape_inv_next_shuffle, Hs.
Qed.

Lemma shape_inv_adversarial_train (m m' : model) (n : nat) (epsilon : R) :
  shape_inv m -> adversarial_train m n epsilon = Ok m' -> shape_inv m'.
Proof.
  unfold adversarial_train; apply foldM_invariant.
  intros s x s' Hs H.
  destruct (next_shuffle s (batch_size s)) as [bs s1] eqn:E.
  eapply shape_inv__adversarial_train_step; [|exact H].
  change s1 with (snd (bs, s1)); rewrite <- E.
  apply shape_inv_next_shuffle, Hs.
Qed.

End Shapes.


(** ** When the methods return

    With tensors of the right shapes and every id of a batch inside the
    embedding tables, no tensor operation raises. *)

Module Totality.

Import TF TFLemmas BPRMF Inv Shapes.
Local Open Scope R_scope.

Lemma same_config_refl (m : model) : same_config m m.
Proof. repeat split. Qed.

Lemma same_config_trans (m1 m2 m3 : model) :
  same_config m1 m2 -> same_config m2 m3 -> same_config m1 m3.
Proof.
  unfold same_config; intros H1 H2.
  repeat match goal with H : _ /\ _ |- _ => destruct H end.
  repeat split; congruence.
Qed.

Lemma lookup_row_total (t : tensor) (id : nat) :
  (id < length t)%nat -> lookup_row t id = Ok (nth id t []).
Proof.
  intros H; unfold lookup_row. rewrite (nth_error_nth' t [] H); reflexivity.
Qed.

Lemma embedding_lookup_total (t : tensor) (ids : list (list nat)) :
  valid_ids (length t) ids ->
  embedding_lookup t ids = Ok (map (map (fun id => nth id t [])) ids).
Proof.
  intros H; unfold embedding_lookup.
  apply mapM_Ok_map. eapply Forall_impl; [|exact H].
  intros row Hrow; apply mapM_Ok_map.
  eapply Forall_impl; [|exact Hrow].
  intros id Hid; apply lookup_row_total, Hid.
Qed.

Lemma matmul_total (m : nat) (a b : tensor) :
  Forall (fun r => length r = length b) a ->
  matmul m a b =
  Ok (map (fun row => map (fun j => dot row (column j b)) (seq 0 m)) a).
Proof.
  intros H; unfold matmul; apply mapM_Ok_map.
  eapply Forall_impl; [|exact H].
  intros r Hr; simpl. rewrite Hr, Nat.eqb_refl; reflexivity.
Qed.

Lemma has_shape_matmul (m : nat) (a b : tensor) :
  has_shape (map (fun row => map (fun j => dot row (column j b)) (seq 0 m)) a)
            (length a) m.
Proof.
  split; [apply length_map|].
  apply Forall_map, Forall_forall; intros r _.
  rewrite length_map, length_seq; reflexivity.
Qed.

Lemma get_inference_total (m : model) (users items : list (list nat)) :
  shape_inv m -> length (h m) = embedding_size m ->
  valid_ids (num_users m) users -> valid_ids (num_items m) items ->
  length users = length items ->
  get_inference m users items =
  Ok (inference_scores m users items,
      gathered (embedding_size m) (perturbed_P m) users,
      gathered (embedding_size m) (perturbed_Q m) items).
Proof.
  intros Hm Hh Hu Hi Hlen; unfold get_inference.
  destruct (add_perturbation _ _ _ _ (shape_P m Hm) (shape_delta_P m Hm))
    as [EP SP].
  destruct (add_perturbation _ _ _ _ (shape_Q m Hm) (shape_delta_Q m Hm))
    as [EQ SQ].
  fold (perturbed_P m) in EP, SP. fold (perturbed_Q m) in EQ, SQ.
  rewrite EP; simpl.
  assert (LP : embedding_lookup (perturbed_P m) users =
               Ok (map (map (fun id => nth id (perturbed_P m) [])) users))
    by (apply embedding_lookup_total; rewrite (proj1 SP); exact Hu).
  assert (LQ : embedding_lookup (perturbed_Q m) items =
               Ok (map (map (fun id => nth id (perturbed_Q m) [])) items))
    by (apply embedding_lookup_total; rewrite (proj1 SQ); exact Hi).
  rewrite LP; simpl. rewrite EQ; simpl. rewrite LQ; simpl.
  pose proof (embedding_lookup_shape _ _ _ _ (proj2 SP) LP) as Sp.
  pose proof (embedding_lookup_shape _ _ _ _ (proj2 SQ) LQ) as Sq.
  rewrite <- Hlen in Sq.
  fold (gathered (embedding_size m) (perturbed_P m) users) in Sp |- *.
  fold (gathered (embedding_size m) (perturbed_Q m) items) in Sq |- *.
  unfold mul; rewrite (binop_same_shape Rmult _ _ _ _ Sp Sq); simpl.
  rewrite matmul_total; [reflexivity|].
  rewrite Hh.
  exact (proj2 (has_shape_tensor_map2 Rmult _ _ _ _ Sp Sq)).
Qed.

Lemma gathered_shape (t : tensor) (ids : list (list nat)) (n d : nat) :
  has_shape t n d -> valid_ids n ids ->
  has_shape (gathered d t ids) (length ids) d.
Proof.
  intros [Hn Hf] Hids.
  apply (embedding_lookup_shape t ids d _ Hf).
  apply embedding_lookup_total; rewrite Hn; exact Hids.
Qed.

Lemma perturbed_P_shape (m : model) :
  shape_inv m -> has_shape (perturbed_P m) (num_users m) (embedding_size m).
Proof.
  intros Hm.
  exact (proj2 (add_perturbation _ _ _ _ (shape_P m Hm) (shape_delta_P m Hm))).
Qed.

Lemma perturbed_Q_shape (m : model) :
  shape_inv m -> has_shape (perturbed_Q m) (num_items m) (embedding_size m).
Proof.
  intros Hm.
  exact (proj2 (add_perturbation _ _ _ _ (shape_Q m Hm) (shape_delta_Q m Hm))).
Qed.

Lemma inference_scores_shape (m : model) (users items : list (list nat)) :
  shape_inv m ->
  valid_ids (num_users m) users -> valid_ids (num_items m) items ->
  length users = length items ->
  has_shape (inference_scores m users items) (length users) 1.
Proof.
  intros Hm Hu Hi Hlen.
  pose proof (gathered_shape _ _ _ _ (perturbed_P_shape m Hm) Hu) as Sp.
  pose proof (gathered_shape _ _ _ _ (perturbed_Q_shape m Hm) Hi) as Sq.
  rewrite <- Hlen in Sq.
  pose proof (has_shape_tensor_map2 Rmult _ _ _ _ Sp Sq) as [L _].
  unfold inference_scores.
  rewrite <- L. apply has_shape_matmul.
Qed.

Lemma valid_batch_ids (m : model) (b : batch) :
  valid_batch m b ->
  valid_ids (num_users m) (user_input b) /\
  valid_ids (num_items m) (item_input_pos b) /\
  valid_ids (num_items m) (item_input_neg b).
Proof.
  intros H; unfold valid_ids, user_input, item_input_pos, item_input_neg.
  repeat split; apply Forall_map; (eapply Forall_impl; [|exact H]);
    intros s (Hu & Hp & Hn); repeat constructor; assumption.
Qed.

Lemma bpr_scores_total (m : model) (b : batch) :
  model_ok m -> valid_batch m b ->
  exists sc, bpr_scores m b = Ok sc /\
    has_shape (embed_p_pos sc) (length b) (embedding_size m) /\
    has_shape (embed_q_pos sc) (length b) (embedding_size m) /\
    has_shape (embed_q_neg sc) (length b) (embedding_size m).
Proof.
  intros [Hm Hh] Hb.
  destruct (valid_batch_ids m b Hb) as (Vu & Vp & Vn).
  assert (Lu : length (user_input b) = length b) by apply length_map.
  assert (Lp : length (item_input_pos b) = length b) by apply length_map.
  assert (Ln : length (item_input_neg b) = length b) by apply length_map.
  unfold bpr_scores.
  rewrite (get_inference_total m _ _ Hm Hh Vu Vp) by congruence.
  simpl.
  rewrite (get_inference_total m _ _ Hm Hh Vu Vn) by congruence.
  simpl.
  pose proof (inference_scores_shape m _ _ Hm Vu Vp ltac:(congruence)) as S1.
  pose proof (inference_scores_shape m _ _ Hm Vu Vn ltac:(congruence)) as S2.
  unfold sub; rewrite (binop_same_shape Rminus _ _ _ _ S1 S2); simpl.
  eexists; split; [reflexivity|]; simpl.
  split; [|split].
  - rewrite <- Lu.
    apply (gathered_shape _ _ _ _ (perturbed_P_shape m Hm) Vu).
  - rewrite <- Lp.
    apply (gathered_shape _ _ _ _ (perturbed_Q_shape m Hm) Vp).
  - rewrite <- Ln.
    apply (gathered_shape _ _ _ _ (perturbed_Q_shape m Hm) Vn).
Qed.

Lemma reg_squares_total (sc : scores) (n d : nat) :
  has_shape (embed_p_pos sc) n d -> has_shape (embed_q_pos sc) n d ->
  has_shape (embed_q_neg sc) n d ->
  exists sq, reg_squares sc = Ok sq.
Proof.
  intros A B C; unfold reg_squares.
  apply (has_shape_tmap square) in A, B, C.
  unfold add; rewrite (binop_same_shape Rplus _ _ _ _ A B); simpl.
  pose proof (has_shape_tensor_map2 Rplus _ _ _ _ A B) as AB.
  rewrite (binop_same_shape Rplus _ _ _ _ AB C).
  eexists; reflexivity.
Qed.

Lemma foldM_total {A S : Type} (I : S -> Prop) (P : A -> Prop)
    (f : S -> A -> result S) (xs : list A) :
  (forall s x, I s -> P x -> exists s', f s x = Ok s' /\ I s') ->
  forall s, I s -> Forall P xs -> exists s', foldM f xs s = Ok s' /\ I s'.
Proof.
  intros Hf; induction xs as [|x xs IH]; simpl; intros s Hs Hxs.
  - eauto.
  - apply Forall_cons_iff in Hxs as [Hx Hxs].
    destruct (Hf s x Hs Hx) as (s1 & E & Hs1).
    rewrite E; simpl; auto.
Qed.

(** *** The attributes fixed at construction stay fixed *)

Lemma same_config_apply_gradients (m : model) (g : tensor * tensor) :
  same_config m (apply_gradients m g).
Proof. repeat split. Qed.

Lemma same_config__train_batch (m m' : model) (b : batch) :
  _train_batch m b = Ok m' -> same_config m m'.
Proof.
  unfold _train_batch; intros H.
  apply bind_Ok in H as (sc & _ & H).
  apply bind_Ok in H as (sq & _ & H).
  injection H as <-. repeat split.
Qed.

Lemma same_config__train_step (m m' : model) (batches : list batch) :
  _train_step m batches = Ok m' -> same_config m m'.
Proof.
  unfold _train_step; intros H.
  revert H; apply (foldM_invariant (same_config m)).
  - intros s x s' Hs Hx. eapply same_config_trans; [exact Hs|].
    eapply same_config__train_batch; eauto.
  - apply same_config_refl.
Qed.

Lemma same_config_execute_adversarial_attack (m m' : model) (epsilon : R) :
  execute_adversarial_attack m epsilon = Ok m' -> same_config m m'.
Proof.
  unfold execute_adversarial_attack; simpl; intros H.
  apply bind_Ok in H as (g & _ & H). injection H as <-. repeat split.
Qed.

Lemma same_config__adversarial_train_batch (epsilon : R) (m m' : model)
    (b : batch) :
  _adversarial_train_batch epsilon m b = Ok m' -> same_config m m'.
Proof.
  unfold _adversarial_train_batch; intros H.
  apply bind_Ok in H as (sc & _ & H).
  apply bind_Ok in H as (sq & _ & H).
  apply bind_Ok in H as (m2 & Hatt & H).
  apply bind_Ok in H as (sc' & _ & H).
  injection H as <-.
  apply same_config_execute_adversarial_attack in Hatt.
  eapply same_config_trans; [|apply same_config_apply_gradients].
  eapply same_config_trans; [|exact Hatt]. repeat split.
Qed.

Lemma same_config__adversarial_train_step (epsilon : R) (m m' : model)
    (batches : list batch) :
  _adversarial_train_step epsilon m batches = Ok m' -> same_config m m'.
Proof.
  unfold _adversarial_train_step; intros H.
  apply bind_Ok in H as (m1 & H1 & H). injection H as <-.
  eapply same_config_trans; [|repeat split].
  revert H1; apply (foldM_invariant (same_config m)).
  - intros s x s' Hs Hx. eapply same_config_trans; [exact Hs|].
    eapply same_config__adversarial_train_batch; eauto.
  - apply same_config_refl.
Qed.

Lemma same_config_next_shuffle (m : model) (size : nat) :
  same_config m (snd (next_shuffle m size)).
Proof. repeat split. Qed.

(** *** Totality of the steps *)

Lemma model_ok_same_config (m m' : model) :
  shape_inv m' -> same_config m m' -> model_ok m -> model_ok m'.
Proof.
  intros Hs (_ & _ & _ & Hd & Hh & _) [_ L]; split; [exact Hs|].
  rewrite Hh, Hd; exact L.
Qed.

Lemma valid_batch_same_config (m m' : model) (b : batch) :
  same_config m m' -> valid_batch m b -> valid_batch m' b.
Proof.
  intros (_ & Hu & Hi & _) H; unfold valid_batch in *.
  rewrite Hu, Hi; exact H.
Qed.

Lemma _train_batch_total (m : model) (b : batch) :
  model_ok m -> valid_batch m b ->
  exists m', _train_batch m b = Ok m' /\ model_ok m' /\ same_config m m'.
Proof.
  intros Hm Hb.
  destruct (bpr_scores_total m b Hm Hb) as (sc & Hsc & A & B & C).
  destruct (reg_squares_total sc _ _ A B C) as (sq & Hsq).
  assert (E : _train_batch m b =
              Ok (apply_gradients (set_loss m (bpr_loss sc))
                    (gradient (set_loss m (bpr_loss sc)) b sc 1
                       (reg_coeff (set_loss m (bpr_loss sc)) sq))))
    by (unfold _train_batch; rewrite Hsc; simpl; rewrite Hsq; reflexivity).
  eexists; split; [exact E|].
  pose proof (same_config__train_batch _ _ _ E) as Hc.
  split; [|exact Hc].
  eapply model_ok_same_config; [|exact Hc|exact Hm].
  eapply shape_inv__train_batch; [exact (proj1 Hm)|exact E].
Qed.

Lemma _train_step_total (m : model) (batches : list batch) :
  model_ok m -> Forall (valid_batch m) batches ->
  exists m', _train_step m batches = Ok m' /\ model_ok m' /\ same_config m m'.
Proof.
  intros Hm Hb; unfold _train_step.
  apply (foldM_total (fun s => model_ok s /\ same_config m s)
           (valid_batch m)); auto using same_config_refl.
  intros s x [Hs Hc] Hx.
  destruct (_train_batch_total s x Hs (valid_batch_same_config _ _ _ Hc Hx))
    as (s' & E & Hs' & Hc').
  eauto using same_config_trans.
Qed.

Lemma valid_data_same_config (m m' : model) :
  same_config m m' -> valid_data m -> valid_data m'.
Proof.
  intros Hc H k size. pose proof Hc as (Hd & _). rewrite Hd.
  eapply Forall_impl; [|apply H].
  intros b; apply valid_batch_same_config, Hc.
Qed.

Lemma nonempty_data_same_config (m m' : model) :
  same_config m m' -> nonempty_data m -> nonempty_data m'.
Proof. intros (Hd & _) H k; rewrite Hd; apply H. Qed.

Lemma model_ok_initialize_perturbations (m : model) :
  model_ok m -> model_ok (initialize_perturbations m).
Proof.
  intros [Hs Hh]; split; [apply shape_inv_initialize_perturbations, Hs|].
  exact Hh.
Qed.

Lemma model_ok_next_shuffle (m : model) (size : nat) :
  model_ok m -> model_ok (snd (next_shuffle m size)).
Proof. intros [Hs Hh]; split; [apply shape_inv_next_shuffle, Hs | exact Hh]. Qed.

Lemma model_ok_set_loss (m : model) (l : R) :
  model_ok m -> model_ok (set_loss m l).
Proof. intros [Hs Hh]; split; [apply shape_inv_set_loss, Hs | exact Hh]. Qed.

Lemma execute_adversarial_attack_total (m : model) (epsilon : R) :
  model_ok m -> valid_data m -> nonempty_data m ->
  exists m', execute_adversarial_attack m epsilon = Ok m' /\
             model_ok m' /\ same_config m m'.
Proof.
  intros Hm Hv Hn.
  set (m2 := initialize_perturbations
               (snd (next_shuffle m (length (_user_input (data m)))))).
  assert (Hm2 : model_ok m2)
    by apply model_ok_initialize_perturbations, model_ok_next_shuffle, Hm.
  assert (Hg : exists g,
             attack_gradient m2
               (shuffle (data m) (draws m) (length (_user_input (data m))))
             = Ok g).
  { unfold attack_gradient.
    specialize (Hn (draws m)). specialize (Hv (draws m)
                                 (length (_user_input (data m)))).
    destruct (shuffle (data m) (draws m) (length (_user_input (data m))))
      as [|b0 rest]; [congruence|]; simpl.
    apply Forall_cons_iff in Hv as [Hb0 _].
    destruct (bpr_scores_total m2 b0 Hm2 Hb0) as (sc & Hsc & A & B & C).
    destruct (reg_squares_total sc _ _ A B C) as (sq & Hsq).
    rewrite Hsc; simpl. rewrite Hsq; simpl. eauto. }
  destruct Hg as (g & Hg).
  assert (E : execute_adversarial_attack m epsilon =
              Ok (set_perturbations m2 (scale (l2_normalize (fst g)) epsilon)
                    (scale (l2_normalize (snd g)) epsilon)))
    by (change (execute_adversarial_attack m epsilon)
          with (g' <- attack_gradient m2
                        (shuffle (data m) (draws m)
                           (length (_user_input (data m)))) ;;
                Ok (set_perturbations m2
                      (scale (l2_normalize (fst g')) epsilon)
                      (scale (l2_normalize (snd g')) epsilon)));
        rewrite Hg; reflexivity).
  eexists; split; [exact E|].
  pose proof (same_config_execute_adversarial_attack _ _ _ E) as Hc.
  split; [|exact Hc].
  eapply model_ok_same_config; [|exact Hc|exact Hm].
  eapply shape_inv_execute_adversarial_attack; [exact (proj1 Hm)|exact E].
Qed.

Lemma _adversarial_train_batch_total (epsilon : R) (m : model) (b : batch) :
  model_ok m -> valid_data m -> nonempty_data m -> valid_batch m b ->
  exists m', _adversarial_train_batch epsilon m b = Ok m' /\
             model_ok m' /\ same_config m m'.
Proof.
  intros Hm Hv Hn Hb.
  destruct (bpr_scores_total m b Hm Hb) as (sc & Hsc & A & B & C).
  destruct (reg_squares_total sc _ _ A B C) as (sq & Hsq).
  set (m1 := set_loss m (bpr_loss sc)).
  assert (Hc1 : same_config m m1) by (repeat split).
  destruct (execute_adversarial_attack_total m1 epsilon
              (model_ok_set_loss m _ Hm)
              (valid_data_same_config _ _ Hc1 Hv)
              (nonempty_data_same_config _ _ Hc1 Hn))
    as (m2 & Hatt & Hm2 & Hc2).
  pose proof (same_config_trans _ _ _ Hc1 Hc2) as Hc12.
  destruct (bpr_scores_total m2 b Hm2 (valid_batch_same_config _ _ _ Hc12 Hb))
    as (sc' & Hsc' & _).
  assert (E : exists m', _adversarial_train_batch epsilon m b = Ok m').
  { unfold _adversarial_train_batch.
    rewrite Hsc; simpl. rewrite Hsq; simpl. fold m1. rewrite Hatt; simpl.
    rewrite Hsc'; simpl. eauto. }
  destruct E as (m' & E). exists m'; split; [exact E|].
  pose proof (same_config__adversarial_train_batch _ _ _ _ E) as Hc.
  split; [|exact Hc].
  eapply model_ok_same_config; [|exact Hc|exact Hm].
  eapply shape_inv__adversarial_train_batch; [exact (proj1 Hm)|exact E].
Qed.

Lemma _adversarial_train_step_total (epsilon : R) (m : model)
    (batches : list batch) :
  model_ok m -> valid_data m -> nonempty_data m ->
  Forall (valid_batch m) batches ->
  exists m', _adversarial_train_step epsilon m batches = Ok m' /\
             model_ok m' /\ same_config m m'.
Proof.
  intros Hm Hv Hn Hb; unfold _adversarial_train_step.
  destruct (foldM_total (fun s => model_ok s /\ same_config m s)
              (valid_batch m) (_adversarial_train_batch epsilon) batches)
    with (s := m) as (m1 & E & Hm1 & Hc1); auto using same_config_refl.
  - intros s x [Hs Hc] Hx.
    destruct (_adversarial_train_batch_total epsilon s x Hs
                (valid_data_same_config _ _ Hc Hv)
                (nonempty_data_same_config _ _ Hc Hn)
                (valid_batch_same_config _ _ _ Hc Hx))
      as (s' & E & Hs' & Hc').
    eauto using same_config_trans.
  - rewrite E; simpl. eexists; split; [reflexivity|]. split.
    + apply model_ok_initialize_perturbations, Hm1.
    + eapply same_config_trans; [exact Hc1 | repeat split].
Qed.

Lemma train_total (m : model) :
  model_ok m -> valid_data m ->
  exists m', train m = Ok m' /\ model_ok m' /\ same_config m m'.
Proof.
  intros Hm Hv; unfold train.
  apply (foldM_total (fun s => model_ok s /\ same_config m s)
           (fun _ : nat => True)); auto using same_config_refl.
  - intros s x [Hs Hc] _.
    destruct (_train_step_total (snd (next_shuffle s (batch_size s)))
                (fst (next_shuffle s (batch_size s))))
      as (s' & E & Hs' & Hc').
    + apply model_ok_next_shuffle, Hs.
    + exact (valid_data_same_config m _
               (same_config_trans _ _ _ Hc
                  (same_config_next_shuffle s (batch_size s)))
               Hv (draws s) (batch_size s)).
    + exists s'; split; [exact E|]. split; [exact Hs'|].
      eapply same_config_trans; [exact Hc|].
      eapply same_config_trans; [apply same_config_next_shuffle | exact Hc'].
  - apply Forall_forall; auto.
Qed.

Lemma adversarial_train_total (m : model) (n : nat) (epsilon : R) :
  model_ok m -> valid_data m -> nonempty_data m ->
  exists m', adversarial_train m n epsilon = Ok m' /\
             model_ok m' /\ same_config m m'.
Proof.
  intros Hm Hv Hn; unfold adversarial_train.
  apply (foldM_total (fun s => model_ok s /\ same_config m s)
           (fun _ : nat => True)); auto using same_config_refl.
  - intros s x [Hs Hc] _.
    pose proof (same_config_trans _ _ _ Hc
                  (same_config_next_shuffle s (batch_size s))) as Hc1.
    destruct (_adversarial_train_step_total epsilon
                (snd (next_shuffle s (batch_size s)))
                (fst (next_shuffle s (batch_size s))))
      as (s' & E & Hs' & Hc').
    + apply model_ok_next_shuffle, Hs.
    + exact (valid_data_same_config _ _ Hc1 Hv).
    + exact (nonempty_data_same_config _ _ Hc1 Hn).
    + exact (valid_data_same_config m _ Hc1 Hv (draws s) (batch_size s)).
    + exists s'; split; [exact E|]. split; [exact Hs'|].
      eapply same_config_trans; [exact Hc1 | exact Hc'].
  - apply Forall_forall; auto.
Qed.

Lemma same_config_train (m m' : model) : train m = Ok m' -> same_config m m'.
Proof.
  unfold train.
  apply (foldM_invariant (same_config m)); [|apply same_config_refl].
  intros s x s' Hs H.
  apply same_config__train_step in H.
  eapply same_config_trans; [exact Hs|].
  eapply same_config_trans; [|exact H]. repeat split.
Qed.

Lemma same_config_adversarial_train (m m' : model) (n : nat) (epsilon : R) :
  adversarial_train m n epsilon = Ok m' -> same_config m m'.
Proof.
  unfold adversarial_train.
  apply (foldM_invariant (same_config m)); [|apply same_config_refl].
  intros s x s' Hs H.
  apply same_config__adversarial_train_step in H.
  eapply same_config_trans; [exact Hs|].
  eapply same_config_trans; [|exact H]. repeat split.
Qed.

End Totality.


(** ** Numeric facts: clipping, softplus, normalisation, Adagrad *)

Module Numerics.

Import TF TFLemmas BPRMF Inv.
Local Open Scope R_scope.

Lemma l2_epsilon_pos : 0 < l2_epsilon.
Proof. unfold l2_epsilon. apply Rinv_0_lt_compat. lra. Qed.

Lemma sqnorm_cons (x : R) (v : vec) : sqnorm (x :: v) = x * x + sqnorm v.
Proof. reflexivity. Qed.





Lemma rsqrt_pos (s : R) : 0 < / sqrt (Rmax s l2_epsilon).
Proof.
  apply Rinv_0_lt_compat, sqrt_lt_R0.
  pose proof (Rmax_r s l2_epsilon). pose proof l2_epsilon_pos. lra.
Qed.

Lemma normalized_nonzero (g s epsilon : R) :
  g <> 0 -> epsilon <> 0 -> g * / sqrt (Rmax s l2_epsilon) * epsilon <> 0.
Proof.
  intros Hg He. pose proof (rsqrt_pos s).
  apply Rmult_integral_contrapositive_currified; auto.
  apply Rmult_integral_contrapositive_currified; auto. lra.
Qed.

Lemma sigmoid_pos (x : R) : 0 < sigmoid x.
Proof.
  unfold sigmoid. apply Rinv_0_lt_compat. pose proof (exp_pos (- x)). lra.
Qed.

Lemma clip_mask_inside (x : R) :
  clip_lo <= x <= clip_hi -> clip_mask clip_lo clip_hi x = 1.
Proof.
  intros [H1 H2]; unfold clip_mask.
  destruct (Rlt_dec x clip_lo); [lra|].
  destruct (Rlt_dec clip_hi x); [lra|reflexivity].
Qed.

(** Inside the clipping range the loss strictly decreases in the score
    difference. *)
Lemma dloss_neg (x : R) : clip_lo <= x <= clip_hi -> dloss x < 0.
Proof.
  intros H; unfold dloss. rewrite (clip_mask_inside x H).
  pose proof (sigmoid_pos (- clip_by_value clip_lo clip_hi x)). lra.
Qed.

Lemma zero_clipped : clip_by_value clip_lo clip_hi 0 = 0.
Proof.
  unfold clip_by_value, clip_lo, clip_hi.
  rewrite Rmin_left by lra. rewrite Rmax_left by lra. reflexivity.
Qed.

Lemma softplus_pos (x : R) : 0 < softplus x.
Proof.
  unfold softplus. rewrite <- ln_1.
  apply ln_increasing; [lra|]. pose proof (exp_pos x); lra.
Qed.

Lemma sum_softplus_nonneg (r : vec) : 0 <= sum (map softplus r).
Proof.
  induction r as [|x r IH]; [simpl; lra|].
  pose proof (softplus_pos x).
  change (sum (map softplus (x :: r)))
    with (softplus x + sum (map softplus r)). lra.
Qed.

Lemma reduce_sum_softplus_nonneg (t : tensor) :
  0 <= reduce_sum (tmap softplus t).
Proof.
  unfold reduce_sum, tmap.
  induction t as [|r t IH]; [simpl; lra|].
  pose proof (sum_softplus_nonneg r).
  change (sum (map sum (map (map softplus) (r :: t))))
    with (sum (map softplus r) + sum (map sum (map (map softplus) t))).
  lra.
Qed.

Lemma clip_inside (x : R) :
  clip_lo <= x <= clip_hi -> clip_by_value clip_lo clip_hi x = x.
Proof.
  intros [H1 H2]; unfold clip_by_value.
  rewrite Rmin_left by exact H2. rewrite Rmax_left by exact H1. reflexivity.
Qed.

Lemma clip_pos (x : R) :
  0 < x <= clip_hi -> 0 < clip_by_value clip_lo clip_hi x.
Proof.
  intros [H1 H2]; unfold clip_by_value, clip_lo.
  rewrite Rmin_left by exact H2. rewrite Rmax_left by lra. exact H1.
Qed.

Lemma clip_neg (x : R) : x < 0 -> clip_by_value clip_lo clip_hi x < 0.
Proof.
  intros H; unfold clip_by_value, clip_lo, clip_hi.
  rewrite Rmin_left by lra.
  unfold Rmax; destruct (Rle_dec x (-80)); lra.
Qed.

Lemma clip_monotone (x y : R) :
  x <= y ->
  clip_by_value clip_lo clip_hi x <= clip_by_value clip_lo clip_hi y.
Proof.
  intros H; unfold clip_by_value.
  apply Rle_max_compat_r, Rle_min_compat_r, H.
Qed.

Lemma sigmoid_lt_1 (x : R) : sigmoid x < 1.
Proof.
  unfold sigmoid. pose proof (exp_pos (- x)).
  rewrite <- Rinv_1 at 2. apply Rinv_lt_contravar; lra.
Qed.

Lemma sigmoid_alt (x : R) : sigmoid x = exp x * / (1 + exp x).
Proof.
  unfold sigmoid. rewrite exp_Ropp.
  pose proof (exp_pos x). field. lra.
Qed.

(** [sigmoid] is the derivative of [softplus], and the loss of one sample
    has derivative [- sigmoid (- x)] in its score difference [x]: the value
    [dloss] takes inside the clipping range.  Outside of it [dloss] is 0. *)
Lemma softplus_derivative (x : R) : derivable_pt_lim softplus x (sigmoid x).
Proof.
  rewrite sigmoid_alt.
  replace (exp x * / (1 + exp x)) with (/ (1 + exp x) * (0 + exp x)) by ring.
  apply (derivable_pt_lim_comp (fun y => 1 + exp y) ln).
  - apply (derivable_pt_lim_plus (fun _ => 1) exp).
    + apply derivable_pt_lim_const.
    + apply derivable_pt_lim_exp.
  - apply derivable_pt_lim_ln. pose proof (exp_pos x); lra.
Qed.

Lemma sample_loss_derivative (x : R) :
  derivable_pt_lim (fun y => softplus (- y)) x (- sigmoid (- x)).
Proof.
  replace (- sigmoid (- x)) with (sigmoid (- x) * -1) by ring.
  apply (derivable_pt_lim_comp Ropp softplus).
  - apply derivable_pt_lim_opp_fwd.
    replace (- (-1)) with 1 by ring. apply derivable_pt_lim_id.
  - apply softplus_derivative.
Qed.

Lemma dloss_inside (x : R) :
  clip_lo <= x <= clip_hi -> dloss x = - sigmoid (- x).
Proof.
  intros H; unfold dloss.
  rewrite clip_inside by exact H. rewrite (clip_mask_inside x H). ring.
Qed.

Lemma dloss_outside (x : R) : x < clip_lo \/ clip_hi < x -> dloss x = 0.
Proof.
  intros H; unfold dloss, clip_mask.
  destruct (Rlt_dec x clip_lo); [ring|].
  destruct (Rlt_dec clip_hi x); [ring|]. lra.
Qed.

Lemma dloss_range (x : R) : clip_lo <= x <= clip_hi -> -1 < dloss x < 0.
Proof.
  intros H; split; [|apply dloss_neg, H].
  unfold dloss. rewrite (clip_mask_inside x H).
  pose proof (sigmoid_lt_1 (- clip_by_value clip_lo clip_hi x)). lra.
Qed.

Lemma softplus_increasing (x y : R) : x < y -> softplus x < softplus y.
Proof.
  intros H; unfold softplus.
  pose proof (exp_pos x). pose proof (exp_increasing x y H).
  apply ln_increasing; lra.
Qed.

Lemma adagrad_denominator (a g : R) :
  / 10 <= a -> / 10 < sqrt (a + g * g) + adagrad_epsilon.
Proof.
  intros Ha.
  assert (H1 : sqrt (/ 10 * / 10) <= sqrt (a + g * g)).
  { apply sqrt_le_1_alt.
    pose proof (Rle_0_sqr g) as H; unfold Rsqr in H. lra. }
  rewrite sqrt_square in H1 by lra.
  unfold adagrad_epsilon. lra.
Qed.

(** A step against a non-positive gradient moves the entry up, by at most
    half the size of the gradient. *)
Lemma adagrad_step_bounds (v g a : R) :
  / 10 <= a -> g <= 0 ->
  v <= adagrad_step v g a <= v - g / 2.
Proof.
  intros Ha Hg; unfold adagrad_step.
  pose proof (adagrad_denominator a g Ha) as HD.
  set (D := sqrt (a + g * g) + adagrad_epsilon) in *.
  assert (HI : 0 < / D < 10).
  { split; [apply Rinv_0_lt_compat; lra|].
    replace 10 with (/ / 10) by field.
    apply Rinv_lt_contravar; [|exact HD].
    apply Rmult_lt_0_compat; lra. }
  unfold Rdiv. nra.
Qed.

End Numerics.


(** ** The small instances *)

Module TinyFacts.

Import TF TFLemmas BPRMF Inv Shapes Totality Tiny.
Local Open Scope R_scope.

Lemma has_shape_2_2 (a b c d : R) : has_shape [[a; b]; [c; d]] 2 2.
Proof. split; [reflexivity | repeat constructor]. Qed.

Lemma start_ok : model_ok start.
Proof.
  split; [|reflexivity].
  constructor; simpl; apply has_shape_2_2.
Qed.

Lemma start_valid_batch : valid_batch start [(0%nat, 0%nat, 1%nat)].
Proof. repeat constructor. Qed.

Lemma start_valid_data : valid_data start.
Proof. intros k size; simpl. repeat constructor. Qed.

Lemma start_nonempty_data : nonempty_data start.
Proof. intros k; simpl; discriminate. Qed.

(** With all embeddings at zero every gradient vanishes: a training batch
    changes nothing but the recorded loss, which is ln 2 for the one
    sample. *)
Lemma flat_batch (l : R) (k : nat) :
  _train_batch (flat l k) [(0, 0, 1)]%nat = Ok (flat (ln 2) k).
Proof.
  run. do 2 f_equal.
  1-4: repeat f_equal; unfold Rdiv; ring.
  match goal with
  | |- context [clip_by_value _ _ ?x] => replace x with 0 by ring
  end.
  rewrite Numerics.zero_clipped, Ropp_0. unfold softplus. rewrite exp_0.
  replace (1 + 1) with 2 by ring. ring.
Qed.

Lemma flat_epoch (l : R) (k : nat) :
  (let (batches, m1) := next_shuffle (flat l k) (batch_size (flat l k)) in
   _train_step m1 batches) = Ok (flat (ln 2) (S k)).
Proof.
  change (bind (_train_batch (flat l (S k)) [(0, 0, 1)]%nat) (fun s => Ok s)
          = Ok (flat (ln 2) (S k))).
  rewrite flat_batch; reflexivity.
Qed.

Lemma flat_epochs (a n : nat) (l : R) (k : nat) :
  foldM (fun m' (_ : nat) =>
           let (batches, m1) := next_shuffle m' (batch_size m') in
           _train_step m1 batches)
        (seq a (S n)) (flat l k) = Ok (flat (ln 2) (k + S n)).
Proof.
  revert a l k; induction n as [|n IH]; intros a l k.
  - cbn [seq foldM]. rewrite flat_epoch; simpl. do 2 f_equal; lia.
  - change (seq a (S (S n))) with (a :: seq (S a) (S n)).
    cbn [foldM]. rewrite flat_epoch. cbn [bind].
    rewrite IH. do 2 f_equal; lia.
Qed.

Lemma train_run_epochs (m : model) : train m = run_epochs (epochs m) m.
Proof. reflexivity. Qed.

Lemma run_epochs_1 (m : model) : run_epochs 1 m = (m1 <- epoch m ;; Ok m1).
Proof. reflexivity. Qed.

Lemma run_epochs_2 (m : model) :
  run_epochs 2 m = (m1 <- epoch m ;; m2 <- epoch m1 ;; Ok m2).
Proof. reflexivity. Qed.

(** One batch with the negative item 2: every entry takes one Adagrad
    step along its gradient, item 1 stays. *)
Lemma duel_batch_2 (p q0 q1 q2 aP a0 a1 a2 l : R) (k : nat) :
  _train_batch (duel p q0 q1 q2 aP a0 a1 a2 l k) [(0, 0, 2)]%nat =
  Ok (duel (adagrad_step p (dloss (p * q0 - p * q2) * (q0 - q2)) aP)
           (adagrad_step q0 (dloss (p * q0 - p * q2) * p) a0) q1
           (adagrad_step q2 (- dloss (p * q0 - p * q2) * p) a2)
           (aP + dloss (p * q0 - p * q2) * (q0 - q2)
                 * (dloss (p * q0 - p * q2) * (q0 - q2)))
           (a0 + dloss (p * q0 - p * q2) * p * (dloss (p * q0 - p * q2) * p))
           a1
           (a2 + - dloss (p * q0 - p * q2) * p
                 * (- dloss (p * q0 - p * q2) * p))
           (softplus (- clip_by_value clip_lo clip_hi (p * q0 - p * q2))) k).
Proof.
  run.
  match goal with
  | |- context [dloss ?X] => replace X with (p * q0 - p * q2) by ring
  end.
  match goal with
  | |- context [clip_by_value _ _ ?X] =>
      replace X with (p * q0 - p * q2) by ring
  end.
  unfold adagrad_step, adagrad_epsilon.
  do 2 f_equal; entries.
Qed.

(** One batch with the negative item 1: the loss it records. *)
Lemma duel_batch_1_loss (p q0 q1 q2 aP a0 a1 a2 l : R) (k : nat) :
  exists m',
    _train_batch (duel p q0 q1 q2 aP a0 a1 a2 l k) [(0, 0, 1)]%nat = Ok m' /\
    loss m' = softplus (- clip_by_value clip_lo clip_hi (p * q0 - p * q1)).
Proof.
  eexists; split; [run; reflexivity|].
  run.
  match goal with
  | |- context [clip_by_value _ _ ?X] =>
      replace X with (p * q0 - p * q1) by ring
  end.
  ring.
Qed.

Lemma duel_first_epoch (p q0 q1 q2 aP a0 a1 a2 l : R) :
  epoch (duel p q0 q1 q2 aP a0 a1 a2 l 0) =
  Ok (duel (adagrad_step p (dloss (p * q0 - p * q2) * (q0 - q2)) aP)
           (adagrad_step q0 (dloss (p * q0 - p * q2) * p) a0) q1
           (adagrad_step q2 (- dloss (p * q0 - p * q2) * p) a2)
           (aP + dloss (p * q0 - p * q2) * (q0 - q2)
                 * (dloss (p * q0 - p * q2) * (q0 - q2)))
           (a0 + dloss (p * q0 - p * q2) * p * (dloss (p * q0 - p * q2) * p))
           a1
           (a2 + - dloss (p * q0 - p * q2) * p
                 * (- dloss (p * q0 - p * q2) * p))
           (softplus (- clip_by_value clip_lo clip_hi (p * q0 - p * q2))) 1).
Proof.
  change (epoch (duel p q0 q1 q2 aP a0 a1 a2 l 0))
    with (m' <- _train_batch (duel p q0 q1 q2 aP a0 a1 a2 l 1)
                  [(0, 0, 2)]%nat ;; Ok m').
  rewrite duel_batch_2; reflexivity.
Qed.

Lemma duel_later_epoch (p q0 q1 q2 aP a0 a1 a2 l : R) (k : nat) :
  exists m',
    epoch (duel p q0 q1 q2 aP a0 a1 a2 l (S k)) = Ok m' /\
    loss m' = softplus (- clip_by_value clip_lo clip_hi (p * q0 - p * q1)).
Proof.
  destruct (duel_batch_1_loss p q0 q1 q2 aP a0 a1 a2 l (S (S k)))
    as (m' & E & L).
  exists m'; split; [|exact L].
  change (epoch (duel p q0 q1 q2 aP a0 a1 a2 l (S k)))
    with (m1 <- _train_batch (duel p q0 q1 q2 aP a0 a1 a2 l (S (S k)))
                  [(0, 0, 1)]%nat ;; Ok m1).
  rewrite E; reflexivity.
Qed.

End TinyFacts.


(** ** Frame properties of the training steps *)

Module Frames.

Import TF TFLemmas BPRMF Inv Shapes Totality.
Local Open Scope R_scope.

Lemma same_perturbations__train_batch (m m' : model) (b : batch) :
  _train_batch m b = Ok m' -> same_perturbations m m'.
Proof.
  unfold _train_batch; intros H.
  apply bind_Ok in H as (sc & _ & H).
  apply bind_Ok in H as (sq & _ & H).
  injection H as <-. split; reflexivity.
Qed.

Lemma same_perturbations__train_step (m m' : model) (batches : list batch) :
  _train_step m batches = Ok m' -> same_perturbations m m'.
Proof.
  unfold _train_step.
  apply (foldM_invariant (same_perturbations m)); [|split; reflexivity].
  intros s x s' [H1 H2] Hx.
  apply same_perturbations__train_batch in Hx as [H3 H4].
  split; congruence.
Qed.

Lemma same_perturbations_train (m m' : model) :
  train m = Ok m' -> same_perturbations m m'.
Proof.
  unfold train.
  apply (foldM_invariant (same_perturbations m)); [|split; reflexivity].
  intros s x s' [H1 H2] Hx.
  apply same_perturbations__train_step in Hx as [H3 H4].
  simpl in H3, H4. split; congruence.
Qed.

(** Adding a zero perturbation gives back the tensor. *)
Lemma vadd_zeros (r : vec) : vadd r (repeat 0 (length r)) = r.
Proof.
  induction r as [|x r IH]; [reflexivity|].
  change (vadd (x :: r) (repeat 0 (length (x :: r))))
    with (x + 0 :: vadd r (repeat 0 (length r))).
  rewrite IH, Rplus_0_r; reflexivity.
Qed.

Lemma add_zeros (t : tensor) (n d : nat) :
  has_shape t n d -> map2 vadd t (zeros n d) = t.
Proof.
  revert n; induction t as [|r t IH]; intros n [Hn Hf].
  - reflexivity.
  - simpl in Hn; subst n. apply Forall_cons_iff in Hf as [Hr Hf].
    change (map2 vadd (r :: t) (zeros (S (length t)) d))
      with (vadd r (repeat 0 d) :: map2 vadd t (zeros (length t) d)).
    rewrite (IH (length t)) by (split; auto).
    rewrite <- Hr, vadd_zeros; reflexivity.
Qed.

(** With zero perturbations the full prediction matrix is that of the
    unperturbed embeddings. *)
Lemma get_full_inference_unperturbed (m : model) :
  shape_inv m ->
  delta_P m = zeros (num_users m) (embedding_size m) ->
  delta_Q m = zeros (num_items m) (embedding_size m) ->
  get_full_inference m =
  matmul (num_items m) (embedding_P m)
         (transpose (embedding_size m) (embedding_Q m)).
Proof.
  intros Hm HP HQ; unfold get_full_inference.
  destruct (add_perturbation _ _ _ _ (shape_P m Hm) (shape_delta_P m Hm))
    as [EP _].
  destruct (add_perturbation _ _ _ _ (shape_Q m Hm) (shape_delta_Q m Hm))
    as [EQ _].
  rewrite EP, EQ; simpl.
  rewrite HP, HQ.
  rewrite (add_zeros _ _ _ (shape_P m Hm)), (add_zeros _ _ _ (shape_Q m Hm)).
  rewrite (proj1 (shape_Q m Hm)); reflexivity.
Qed.

Lemma zero_perturbations__adversarial_train_step (epsilon : R) (m m' : model)
    (batches : list batch) :
  _adversarial_train_step epsilon m batches = Ok m' ->
  delta_P m' = zeros (num_users m') (embedding_size m') /\
  delta_Q m' = zeros (num_items m') (embedding_size m').
Proof.
  unfold _adversarial_train_step; intros H.
  apply bind_Ok in H as (m1 & _ & H). injection H as <-.
  split; reflexivity.
Qed.

Lemma adversarial_train_S (m : model) (n : nat) (epsilon : R) :
  adversarial_train m (S n) epsilon =
  (m1 <- adversarial_train m n epsilon ;;
   _adversarial_train_step epsilon (snd (next_shuffle m1 (batch_size m1)))
     (fst (next_shuffle m1 (batch_size m1)))).
Proof.
  unfold adversarial_train.
  rewrite seq_S, foldM_app; simpl.
  destruct (foldM _ (seq 0 n) m) as [m1|e]; simpl; [|reflexivity].
  destruct (_adversarial_train_step _ _ _); reflexivity.
Qed.

End Frames.


(** ** Pairwise scores and the full prediction matrix *)

Module Inference.

Import TF TFLemmas BPRMF Inv Shapes Totality.
Local Open Scope R_scope.

Lemma nth_nil_0 (j : nat) : nth j (@nil R) 0 = 0.
Proof. destruct j; reflexivity. Qed.

Lemma nth_map {A B : Type} (f : A -> B) (l : list A) (n : nat) (da : A)
    (db : B) :
  (n < length l)%nat -> nth n (map f l) db = f (nth n l da).
Proof.
  intros Hn. rewrite (nth_indep _ db (f da)) by (rewrite length_map; exact Hn).
  apply map_nth.
Qed.

Lemma map_nth_seq (l : vec) :
  map (fun j => nth j l 0) (seq 0 (length l)) = l.
Proof.
  induction l as [|x l IH]; [reflexivity|].
  simpl. f_equal. rewrite <- seq_shift, map_map. exact IH.
Qed.

(** Column [i] of the transpose is row [i]. *)
Lemma column_transpose (t : tensor) (i d : nat) :
  length (nth i t []) = d -> column i (transpose d t) = nth i t [].
Proof.
  intros Hd; unfold column, transpose. rewrite map_map.
  transitivity (map (fun j => nth j (nth i t []) 0) (seq 0 d));
    [|rewrite <- Hd; apply map_nth_seq].
  apply map_ext; intros j.
  destruct (Nat.lt_ge_cases i (length t)) as [Hi|Hi].
  - exact (nth_map (fun r => nth j r 0) t i [] 0 Hi).
  - rewrite (nth_overflow t) by exact Hi.
    unfold column.
    rewrite nth_overflow by (rewrite length_map; exact Hi).
    symmetry; apply nth_nil_0.
Qed.

Lemma column_ones (d : nat) : column 0 (fill 1 d 1) = repeat 1 d.
Proof.
  unfold column, fill. induction d as [|d IH]; simpl; [reflexivity|].
  f_equal; exact IH.
Qed.

(** Multiplying by the all-ones column sums the entries. *)
Lemma dot_ones (v : vec) : dot v (repeat 1 (length v)) = sum v.
Proof.
  unfold dot; induction v as [|x v IH]; [reflexivity|].
  change (x * 1 + sum (map2 Rmult v (repeat 1 (length v))) = x + sum v).
  rewrite IH; ring.
Qed.

Lemma nth_row_length (t : tensor) (n d i : nat) :
  has_shape t n d -> (i < n)%nat -> length (nth i t []) = d.
Proof.
  intros [Hn Hf] Hi. rewrite Forall_forall in Hf.
  apply Hf, nth_In; lia.
Qed.

Lemma matmul_entry (m : nat) (a b : tensor) (u i : nat) :
  (u < length a)%nat -> (i < m)%nat ->
  nth i (nth u (map (fun row => map (fun j => dot row (column j b)) (seq 0 m))
                    a) []) 0
  = dot (nth u a []) (column i b).
Proof.
  intros Hu Hi.
  rewrite (nth_map _ a u []) by exact Hu.
  rewrite (nth_map _ (seq 0 m) i 0%nat) by (rewrite length_seq; exact Hi).
  rewrite seq_nth by exact Hi. reflexivity.
Qed.

Lemma get_full_inference_total (m : model) :
  shape_inv m ->
  get_full_inference m =
  Ok (map (fun row =>
             map (fun j =>
                    dot row
                      (column j (transpose (embedding_size m) (perturbed_Q m))))
                 (seq 0 (num_items m)))
          (perturbed_P m)).
Proof.
  intros Hm; unfold get_full_inference.
  destruct (add_perturbation _ _ _ _ (shape_P m Hm) (shape_delta_P m Hm))
    as [EP [LP FP]].
  destruct (add_perturbation _ _ _ _ (shape_Q m Hm) (shape_delta_Q m Hm))
    as [EQ [LQ FQ]].
  rewrite EP, EQ; simpl. rewrite LQ.
  apply matmul_total.
  unfold transpose; rewrite length_map, length_seq. exact FP.
Qed.

End Inference.


(** ** Loops and exceptions *)

Module Exceptions.

Import TF BPRMF Inv.
Local Open Scope R_scope.


Lemma bind_Raise_iff {A B : Type} (c : result A) (k : A -> result B)
    (e : exn) :
  bind c k = Raise e <->
  c = Raise e \/ exists a, c = Ok a /\ k a = Raise e.
Proof.
  split; [apply bind_Raise|].
  intros [->|(a & -> & H)]; [reflexivity | exact H].
Qed.




End Exceptions.


(** ** The notebook's kernel *)

Module NotebookFacts.

Import TF BPRMF Inv Shapes Totality Notebook.
Local Open Scope R_scope.

Section Cells.

Variable read_dataset : string -> string -> DataLoader.
Variables noise_P noise_Q : nat -> nat -> R.
Variable evaluate : model -> result (R * R * R).

Lemma exec_logs (k k' : kernel) (s : statement) :
  exec read_dataset noise_P noise_Q evaluate k s = Ok k' ->
  executed k' = executed k ++ [s].
Proof.
  unfold exec; intros H. apply bind_Ok in H as (k1 & H1 & H).
  injection H as <-; simpl.
  assert (E : executed k1 = executed k).
  { destruct s; simpl in H1.
    - injection H1 as <-; auto.
    - destruct (data_var k); [|discriminate].
      injection H1 as <-; auto.
    - apply bind_Ok in H1 as (m & _ & H1).
      apply bind_Ok in H1 as (m' & _ & H1).
      injection H1 as <-; auto.
    - apply bind_Ok in H1 as (m & _ & H1).
      apply bind_Ok in H1 as (r & _ & H1).
      injection H1 as <-; auto.
    - apply bind_Ok in H1 as (m & _ & H1).
      apply bind_Ok in H1 as (m' & _ & H1).
      injection H1 as <-; auto.
    - apply bind_Ok in H1 as (m & _ & H1).
      apply bind_Ok in H1 as (m' & _ & H1).
      injection H1 as <-; auto. }
  rewrite E; auto.
Qed.

Lemma run_logs (statements : list statement) (k k' : kernel) :
  run read_dataset noise_P noise_Q evaluate statements k = Ok k' ->
  executed k' = executed k ++ statements.
Proof.
  unfold run; revert k; induction statements as [|s ss IH]; simpl; intros k H.
  - injection H as <-; rewrite !app_nil_r; auto.
  - apply bind_Ok in H as (k1 & H1 & H).
    apply exec_logs in H1 as E1. apply IH in H as E.
    rewrite E, E1, <- !app_assoc; auto.
Qed.

Lemma exec_total (k : kernel) (s : statement) :
  (forall m, exists r, evaluate m = Ok r) ->
  ready k -> acts_on_model s ->
  exists k', exec read_dataset noise_P noise_Q evaluate k s = Ok k' /\ ready k'.
Proof.
  intros Hev (m & Hk & Hok & Hv & Hn) Hs; unfold exec.
  destruct s as [| | |before|epsilon|n epsilon]; simpl in Hs; try contradiction;
    simpl; unfold the_model; rewrite Hk; simpl.
  - destruct (train_total m Hok Hv) as (m' & E & Hok' & Hc).
    rewrite E; simpl. eexists; split; [reflexivity|].
    exists m'; simpl.
    split; [reflexivity|]. split; [exact Hok'|].
    split; [exact (valid_data_same_config _ _ Hc Hv)
           | exact (nonempty_data_same_config _ _ Hc Hn)].
  - destruct (Hev m) as (r & E). rewrite E; simpl.
    eexists; split; [reflexivity|]. exists m; simpl; auto.
  - destruct (execute_adversarial_attack_total m epsilon Hok Hv Hn)
      as (m' & E & Hok' & Hc).
    rewrite E; simpl. eexists; split; [reflexivity|].
    exists m'; simpl.
    split; [reflexivity|]. split; [exact Hok'|].
    split; [exact (valid_data_same_config _ _ Hc Hv)
           | exact (nonempty_data_same_config _ _ Hc Hn)].
  - destruct (adversarial_train_total m n epsilon Hok Hv Hn)
      as (m' & E & Hok' & Hc).
    rewrite E; simpl. eexists; split; [reflexivity|].
    exists m'; simpl.
    split; [reflexivity|]. split; [exact Hok'|].
    split; [exact (valid_data_same_config _ _ Hc Hv)
           | exact (nonempty_data_same_config _ _ Hc Hn)].
Qed.

Lemma model_ok_init (dl : DataLoader) (p1 p2 : string) :
  model_ok (init dl p1 p2 noise_P noise_Q).
Proof.
  split; [apply shape_inv_init | reflexivity].
Qed.

Lemma exec_LoadData (k : kernel) (tr te : string) :
  exec read_dataset noise_P noise_Q evaluate k (LoadData tr te) =
  Ok (log_statement
        {| data_var := Some (read_dataset tr te);
           recommender_model := recommender_model k;
           before_adv := before_adv k; after_adv := after_adv k;
           executed := executed k |}
        (LoadData tr te)).
Proof. reflexivity. Qed.

Lemma exec_Construct (k : kernel) (d : DataLoader) (p1 p2 : string) :
  data_var k = Some d ->
  exec read_dataset noise_P noise_Q evaluate k (Construct p1 p2) =
  Ok (log_statement (set_model k (init d p1 p2 noise_P noise_Q))
        (Construct p1 p2)).
Proof. intros H; unfold exec; simpl. rewrite H; reflexivity. Qed.

Lemma foldM_two {A St : Type} (f : St -> A -> result St) (a b : A) (s : St) :
  foldM f [a; b] s = (s1 <- f s a ;; s2 <- f s1 b ;; Ok s2).
Proof. reflexivity. Qed.

Lemma notebook_split :
  notebook =
  [LoadData "./data/movielens-500/trainingset.tsv"
            "./data/movielens-500/testset.tsv";
   Construct "../rec_result/" "../rec_weights/"]
  ++ [Train; Evaluate true; Attack (1 / 2); Evaluate false;
      AdversarialTrain 1 (1 / 2); Evaluate true; Attack (1 / 2);
      Evaluate false].
Proof. reflexivity. Qed.

(** With usable data and an evaluator that returns, the notebook runs to
    its end. *)
Lemma run_notebook_total :
  (forall m, exists r, evaluate m = Ok r) ->
  valid_data (init (read_dataset "./data/movielens-500/trainingset.tsv"
                                 "./data/movielens-500/testset.tsv")
                   "../rec_result/" "../rec_weights/" noise_P noise_Q) ->
  nonempty_data (init (read_dataset "./data/movielens-500/trainingset.tsv"
                                    "./data/movielens-500/testset.tsv")
                      "../rec_result/" "../rec_weights/" noise_P noise_Q) ->
  exists k, run_notebook read_dataset noise_P noise_Q evaluate = Ok k.
Proof.
  intros Hev Hv Hn.
  unfold run_notebook, run.
  rewrite notebook_split, foldM_app, foldM_two.
  rewrite exec_LoadData; cbn [bind].
  rewrite (exec_Construct _ (read_dataset "./data/movielens-500/trainingset.tsv"
                                          "./data/movielens-500/testset.tsv"))
    by reflexivity.
  cbn [bind].
  match goal with
  | |- exists k, foldM _ ?ss ?k0 = Ok k =>
      destruct (foldM_total ready acts_on_model
                  (exec read_dataset noise_P noise_Q evaluate) ss
                  (fun s x => exec_total s x Hev) k0) as (k & E & _)
  end.
  - exists (init (read_dataset "./data/movielens-500/trainingset.tsv"
                                "./data/movielens-500/testset.tsv")
                  "../rec_result/" "../rec_weights/" noise_P noise_Q).
    split; [reflexivity|]. split; [apply model_ok_init|]. split; assumption.
  - repeat constructor.
  - exists k; exact E.
Qed.

Lemma run_notebook_unfold :
  run_notebook read_dataset noise_P noise_Q evaluate =
  run read_dataset noise_P noise_Q evaluate notebook fresh_kernel.
Proof. reflexivity. Qed.

(** What a completed run has logged. *)
Lemma run_notebook_logs (k : kernel) :
  run_notebook read_dataset noise_P noise_Q evaluate = Ok k ->
  executed k = notebook.
Proof.
  intros H. rewrite run_notebook_unfold in H. apply run_logs in H as E.
  exact E.
Qed.

End Cells.

Lemma tiny_notebook_runs :
  exists k, run_notebook tiny_dataset zero_noise zero_noise null_evaluate
            = Ok k.
Proof.
  apply run_notebook_total.
  - intros m; eexists; reflexivity.
  - intros k size; simpl. repeat constructor.
  - intros k; simpl; discriminate.
Qed.

Lemma small_notebook_runs :
  exists k, run_notebook tiny_dataset small_noise small_noise level_evaluate
            = Ok k.
Proof.
  apply run_notebook_total.
  - intros m; eexists; reflexivity.
  - intros k size; simpl. repeat constructor.
  - intros k; simpl; discriminate.
Qed.

End NotebookFacts.

(** ** Entrywise relations and rows *)

Module Entrywise.

Import TF TFLemmas BPRMF Inv Shapes Totality Frames Inference.
Local Open Scope R_scope.

Lemma Forall2_refl {A : Type} (Rel : A -> A -> Prop) (l : list A) :
  (forall x, Rel x x) -> Forall2 Rel l l.
Proof. intros H; induction l; constructor; auto. Qed.

Lemma Forall2_trans {A : Type} (R1 R2 R3 : A -> A -> Prop) (l1 l2 l3 : list A) :
  (forall x y z, R1 x y -> R2 y z -> R3 x z) ->
  Forall2 R1 l1 l2 -> Forall2 R2 l2 l3 -> Forall2 R3 l1 l3.
Proof.
  intros H H12; revert l3.
  induction H12 as [|x y l1 l2 Hxy _ IH]; intros l3 H23;
    inversion H23; subst; constructor; eauto.
Qed.

Lemma entrywise_refl (Rel : R -> R -> Prop) (t : tensor) :
  (forall x, Rel x x) -> entrywise Rel t t.
Proof. intros H. apply Forall2_refl; intros r. apply Forall2_refl, H. Qed.

Lemma entrywise_trans (R1 R2 R3 : R -> R -> Prop) (t1 t2 t3 : tensor) :
  (forall x y z, R1 x y -> R2 y z -> R3 x z) ->
  entrywise R1 t1 t2 -> entrywise R2 t2 t3 -> entrywise R3 t1 t3.
Proof.
  intros H. apply Forall2_trans.
  intros x y z. apply Forall2_trans, H.
Qed.

Lemma entrywise_eq (Rel : R -> R -> Prop) (t t' : tensor) :
  (forall x, Rel x x) -> t = t' -> entrywise Rel t t'.
Proof. intros H <-. apply entrywise_refl, H. Qed.

(** What a zip of two rows and of two tensors does entry by entry. *)
Lemma Forall2_map2_row {B : Type} (Rel : R -> R -> Prop) (P : B -> Prop)
    (f : R -> B -> R) (v : vec) (w : list B) :
  length v = length w ->
  (forall x y, P y -> Rel x (f x y)) ->
  Forall P w -> Forall2 Rel v (map2 f v w).
Proof.
  intros Hl Hf; revert w Hl.
  induction v as [|x v IH]; intros [|y w] Hl Hw; try discriminate;
    [constructor|].
  apply Forall_cons_iff in Hw as [Hy Hw].
  unfold map2; simpl. constructor; [apply Hf, Hy|].
  apply IH; [simpl in Hl; lia | exact Hw].
Qed.

Lemma entrywise_map2 {B : Type} (Rel : R -> R -> Prop) (P : B -> Prop)
    (f : R -> B -> R) (t : tensor) (u : list (list B)) (d : nat) :
  length t = length u ->
  Forall (fun r => length r = d) t -> Forall (fun r => length r = d) u ->
  (forall x y, P y -> Rel x (f x y)) ->
  Forall (Forall P) u -> entrywise Rel t (map2 (map2 f) t u).
Proof.
  intros Hl Ht Hu Hf; revert u Hl Hu.
  induction t as [|r t IH]; intros [|s u] Hl Hu HP; try discriminate;
    [constructor|].
  apply Forall_cons_iff in Ht as [Hr Ht].
  apply Forall_cons_iff in Hu as [Hs Hu].
  apply Forall_cons_iff in HP as [HPs HPu].
  unfold map2; simpl. constructor.
  - apply (Forall2_map2_row Rel P); [congruence | exact Hf | exact HPs].
  - apply IH; [exact Ht | simpl in Hl; lia | exact Hu | exact HPu].
Qed.

(** Entries of a zip of two tensors that carry a property of both. *)
Lemma Forall_map2_row {A B C : Type} (PA : A -> Prop) (PB : B -> Prop)
    (PC : C -> Prop) (f : A -> B -> C) (v : list A) (w : list B) :
  (forall x y, PA x -> PB y -> PC (f x y)) ->
  Forall PA v -> Forall PB w -> Forall PC (map2 f v w).
Proof.
  intros Hf Hv; revert w.
  induction Hv as [|x v Hx Hv IH]; intros w Hw; [constructor|].
  destruct Hw as [|y w Hy Hw]; [constructor|].
  unfold map2; simpl. constructor; [apply Hf; assumption|].
  apply IH, Hw.
Qed.

Lemma Forall_map2 {A B C : Type} (PA : A -> Prop) (PB : B -> Prop)
    (PC : C -> Prop) (f : A -> B -> C) (t : list (list A))
    (u : list (list B)) :
  (forall x y, PA x -> PB y -> PC (f x y)) ->
  Forall (Forall PA) t -> Forall (Forall PB) u ->
  Forall (Forall PC) (map2 (map2 f) t u).
Proof.
  intros Hf.
  apply (Forall_map2_row (Forall PA) (Forall PB) (Forall PC)).
  intros v w. apply Forall_map2_row, Hf.
Qed.

Lemma Forall_true {A : Type} (l : list A) : Forall (fun _ => True) l.
Proof. induction l; constructor; auto. Qed.

Lemma Forall_Forall_true {A : Type} (t : list (list A)) :
  Forall (Forall (fun _ => True)) t.
Proof. induction t; constructor; auto using Forall_true. Qed.

(** Rows of zipped and of mapped tensors. *)
Lemma nth_map2 {A B C : Type} (f : A -> B -> C) (xs : list A) (ys : list B)
    (n : nat) (da : A) (db : B) (dc : C) :
  (n < length xs)%nat -> (n < length ys)%nat ->
  nth n (map2 f xs ys) dc = f (nth n xs da) (nth n ys db).
Proof.
  revert ys n; induction xs as [|x xs IH]; intros [|y ys] [|n] Hx Hy;
    simpl in *; try lia; [reflexivity|].
  apply IH; lia.
Qed.


Lemma Forall2_nth {A B : Type} (Rel : A -> B -> Prop) (l : list A)
    (l' : list B) (n : nat) (da : A) (db : B) :
  Forall2 Rel l l' -> (n < length l)%nat -> Rel (nth n l da) (nth n l' db).
Proof.
  intros H; revert n. induction H as [|x y l l' Hxy _ IH]; intros [|n] Hn;
    simpl in *; try lia; [exact Hxy|].
  apply IH; lia.
Qed.

End Entrywise.

(** ** The loss of a batch *)

Module Loss.

Import TF TFLemmas BPRMF Inv Shapes Totality Frames Inference.
Local Open Scope R_scope.

(** What [bpr_scores] returns on a batch of known ids. *)
Lemma bpr_scores_eval (m : model) (b : batch) :
  model_ok m -> valid_batch m b ->
  bpr_scores m b =
  Ok {| embed_p_pos :=
          gathered (embedding_size m) (perturbed_P m) (user_input b);
        embed_q_pos :=
          gathered (embedding_size m) (perturbed_Q m) (item_input_pos b);
        embed_q_neg :=
          gathered (embedding_size m) (perturbed_Q m) (item_input_neg b);
        diff :=
          map2 (map2 Rminus)
            (inference_scores m (user_input b) (item_input_pos b))
            (inference_scores m (user_input b) (item_input_neg b));
        bpr_loss :=
          reduce_sum
            (tmap softplus
               (tmap Ropp
                  (tmap (clip_by_value clip_lo clip_hi)
                     (map2 (map2 Rminus)
                        (inference_scores m (user_input b)
                           (item_input_pos b))
                        (inference_scores m (user_input b)
                           (item_input_neg b)))))) |}.
Proof.
  intros [Hm Hh] Hb.
  destruct (valid_batch_ids m b Hb) as (Vu & Vp & Vn).
  assert (Lu : length (user_input b) = length b) by apply length_map.
  assert (Lp : length (item_input_pos b) = length b) by apply length_map.
  assert (Ln : length (item_input_neg b) = length b) by apply length_map.
  unfold bpr_scores.
  rewrite (get_inference_total m _ _ Hm Hh Vu Vp) by congruence.
  simpl.
  rewrite (get_inference_total m _ _ Hm Hh Vu Vn) by congruence.
  simpl.
  pose proof (inference_scores_shape m _ _ Hm Vu Vp ltac:(congruence)) as S1.
  pose proof (inference_scores_shape m _ _ Hm Vu Vn ltac:(congruence)) as S2.
  unfold sub; rewrite (binop_same_shape Rminus _ _ _ _ S1 S2); simpl.
  reflexivity.
Qed.

Lemma diff_shape (m : model) (b : batch) :
  model_ok m -> valid_batch m b ->
  has_shape (map2 (map2 Rminus)
               (inference_scores m (user_input b) (item_input_pos b))
               (inference_scores m (user_input b) (item_input_neg b)))
            (length b) 1.
Proof.
  intros [Hm Hh] Hb.
  destruct (valid_batch_ids m b Hb) as (Vu & Vp & Vn).
  assert (Lu : length (user_input b) = length b) by apply length_map.
  assert (Lp : length (item_input_pos b) = length b) by apply length_map.
  assert (Ln : length (item_input_neg b) = length b) by apply length_map.
  pose proof (inference_scores_shape m _ _ Hm Vu Vp ltac:(congruence)) as S1.
  pose proof (inference_scores_shape m _ _ Hm Vu Vn ltac:(congruence)) as S2.
  rewrite Lu in S1, S2.
  apply has_shape_tensor_map2; assumption.
Qed.

(** The loss of one sample lies between softplus(-1e8) and softplus(80). *)
Lemma clip_range (x : R) :
  clip_lo <= clip_by_value clip_lo clip_hi x <= clip_hi.
Proof.
  unfold clip_by_value, clip_lo, clip_hi.
  split; [apply Rmax_r|].
  apply Rmax_lub; [apply Rmin_r | lra].
Qed.

Lemma softplus_monotone (x y : R) : x <= y -> softplus x <= softplus y.
Proof.
  intros [H| ->]; [left; apply Numerics.softplus_increasing, H | lra].
Qed.

Lemma sample_loss_range (x : R) :
  softplus (- clip_hi) <= softplus (- clip_by_value clip_lo clip_hi x)
  <= softplus (- clip_lo).
Proof.
  pose proof (clip_range x) as [H1 H2].
  split; apply softplus_monotone; lra.
Qed.

(** Sum of a column of [n] entries between [lo] and [hi]. *)
Lemma reduce_sum_column (f : R -> R) (lo hi : R) (t : tensor) (n : nat) :
  has_shape t n 1 -> (forall x, lo <= f x <= hi) ->
  INR n * lo <= reduce_sum (tmap f t) <= INR n * hi.
Proof.
  intros [L F] Hf. subst n. unfold reduce_sum, tmap.
  induction t as [|r t IH]; [simpl; lra|].
  apply Forall_cons_iff in F as [Hr F]. specialize (IH F).
  change (length (r :: t)) with (S (length t)). rewrite S_INR.
  destruct r as [|x [|y r]]; try discriminate.
  simpl in *. pose proof (Hf x). lra.
Qed.

Lemma batch_loss_range (m : model) (b : batch) (sc : scores) :
  model_ok m -> valid_batch m b -> bpr_scores m b = Ok sc ->
  INR (length b) * softplus (- clip_hi) <= bpr_loss sc
  <= INR (length b) * softplus (- clip_lo).
Proof.
  intros Hm Hb H. rewrite (bpr_scores_eval m b Hm Hb) in H.
  injection H as <-. cbn [bpr_loss].
  pose proof (diff_shape m b Hm Hb) as S.
  set (d := map2 (map2 Rminus) _ _) in *.
  assert (E : tmap softplus (tmap Ropp (tmap (clip_by_value clip_lo clip_hi) d))
              = tmap (fun x => softplus (- clip_by_value clip_lo clip_hi x)) d).
  { unfold tmap. rewrite !map_map. apply map_ext. intros r.
    rewrite !map_map. reflexivity. }
  rewrite E. apply reduce_sum_column; [exact S|].
  apply sample_loss_range.
Qed.

End Loss.

(** ** The gradient of the loss *)

Module Derivative.

Import TF TFLemmas BPRMF Inv Shapes Totality Frames Inference.
Local Open Scope R_scope.

(** A function that agrees with [g] around [x] has the derivative of [g]
    at [x]. *)
Lemma derivable_pt_lim_local (f g : R -> R) (x l delta : R) :
  0 < delta ->
  (forall y, Rabs (y - x) < delta -> f y = g y) ->
  derivable_pt_lim g x l -> derivable_pt_lim f x l.
Proof.
  intros Hd Hloc Hg eps Heps.
  destruct (Hg eps Heps) as [[d0 Hd0] Hlim]. simpl in Hlim.
  assert (Hm : 0 < Rmin d0 delta) by (apply Rmin_pos; assumption).
  exists (mkposreal (Rmin d0 delta) Hm). simpl. intros h Hh Hlt.
  rewrite (Hloc (x + h)), (Hloc x).
  - apply Hlim; [exact Hh|].
    eapply Rlt_le_trans; [exact Hlt | apply Rmin_l].
  - rewrite Rminus_diag, Rabs_R0. exact Hd.
  - replace (x + h - x) with h by ring.
    eapply Rlt_le_trans; [exact Hlt | apply Rmin_r].
Qed.

Lemma clip_below (y : R) :
  y <= clip_lo -> clip_by_value clip_lo clip_hi y = clip_lo.
Proof.
  intros H. unfold clip_by_value, clip_lo, clip_hi in *.
  rewrite Rmin_left by lra. apply Rmax_right. exact H.
Qed.

Lemma clip_above (y : R) :
  clip_hi <= y -> clip_by_value clip_lo clip_hi y = clip_hi.
Proof.
  intros H. unfold clip_by_value, clip_lo, clip_hi in *.
  rewrite Rmin_right by exact H. apply Rmax_left. lra.
Qed.

Lemma between (x y delta a b : R) :
  Rabs (y - x) < delta -> delta <= x - a -> delta <= b - x -> a < y < b.
Proof.
  intros H Ha Hb. apply Rabs_def2 in H as [H1 H2]. lra.
Qed.

Lemma sample_loss_inside (x : R) :
  clip_lo < x < clip_hi -> derivable_pt_lim sample_loss x (dloss x).
Proof.
  intros [H1 H2].
  rewrite Numerics.dloss_inside by lra.
  apply (derivable_pt_lim_local _ (fun y => softplus (- y)) x _
           (Rmin (x - clip_lo) (clip_hi - x))).
  - apply Rmin_pos; lra.
  - intros y Hy. unfold sample_loss.
    destruct (between x y _ clip_lo clip_hi Hy (Rmin_l _ _) (Rmin_r _ _)).
    rewrite Numerics.clip_inside by lra. reflexivity.
  - apply Numerics.sample_loss_derivative.
Qed.

Lemma sample_loss_below (x : R) :
  x < clip_lo -> derivable_pt_lim sample_loss x (dloss x).
Proof.
  intros H. rewrite Numerics.dloss_outside by (left; exact H).
  apply (derivable_pt_lim_local _ (fun _ => softplus (- clip_lo)) x _
           (clip_lo - x)).
  - lra.
  - intros y Hy. unfold sample_loss.
    apply Rabs_def2 in Hy as [Hy1 Hy2].
    rewrite clip_below by lra. reflexivity.
  - apply derivable_pt_lim_const.
Qed.

Lemma sample_loss_above (x : R) :
  clip_hi < x -> derivable_pt_lim sample_loss x (dloss x).
Proof.
  intros H. rewrite Numerics.dloss_outside by (right; exact H).
  apply (derivable_pt_lim_local _ (fun _ => softplus (- clip_hi)) x _
           (x - clip_hi)).
  - lra.
  - intros y Hy. unfold sample_loss.
    apply Rabs_def2 in Hy as [Hy1 Hy2].
    rewrite clip_above by lra. reflexivity.
  - apply derivable_pt_lim_const.
Qed.

End Derivative.

Module Gradient.

Import TF TFLemmas BPRMF Inv Shapes Totality Frames Inference.
Local Open Scope R_scope.

(** *** Lists with one element changed *)

Lemma adjust_length {A : Type} (f : A -> A) (n : nat) (l : list A) :
  length (adjust f n l) = length l.
Proof.
  revert n; induction l as [|x l IH]; intros [|n]; simpl; auto.
Qed.

Lemma nth_adjust {A : Type} (f : A -> A) (k n : nat) (l : list A) (d : A) :
  (n < length l)%nat ->
  nth n (adjust f k l) d = if (n =? k)%nat then f (nth n l d) else nth n l d.
Proof.
  revert k n; induction l as [|x l IH]; intros [|k] [|n] H; simpl in *;
    try lia; try reflexivity.
  apply IH; lia.
Qed.

Lemma adjust_Forall {A : Type} (P : A -> Prop) (f : A -> A) (n : nat)
    (l : list A) :
  (forall x, P x -> P (f x)) -> Forall P l -> Forall P (adjust f n l).
Proof.
  intros Hf H; revert n. induction H as [|x l Hx Hl IH]; intros [|n]; simpl;
    constructor; auto.
Qed.

Lemma has_shape_nudge (r k : nat) (t : R) (T : tensor) (n d : nat) :
  has_shape T n d -> has_shape (nudge r k t T) n d.
Proof.
  intros [L F]; split; unfold nudge.
  - rewrite adjust_length; exact L.
  - apply adjust_Forall; [|exact F].
    intros v Hv. rewrite adjust_length; exact Hv.
Qed.

Lemma map2_cons {A B C : Type} (f : A -> B -> C) (x : A) (y : B)
    (xs : list A) (ys : list B) :
  map2 f (x :: xs) (y :: ys) = f x y :: map2 f xs ys.
Proof. reflexivity. Qed.

Lemma vadd_adjust (k : nat) (t : R) (v w : vec) :
  vadd (adjust (fun x => x + t) k v) w = adjust (fun x => x + t) k (vadd v w).
Proof.
  unfold vadd.
  revert k w; induction v as [|x v IH]; intros [|k] [|y w];
    try reflexivity.
  - cbn [adjust]. rewrite !map2_cons. cbn [adjust]. f_equal. ring.
  - cbn [adjust]. rewrite !map2_cons. cbn [adjust]. f_equal. apply IH.
Qed.

Lemma add_nudge (r k : nat) (t : R) (T D : tensor) :
  map2 vadd (nudge r k t T) D = nudge r k t (map2 vadd T D).
Proof.
  unfold nudge.
  revert r D; induction T as [|v T IH]; intros [|r] [|w D];
    try reflexivity.
  - cbn [adjust]. rewrite !map2_cons. cbn [adjust]. f_equal.
    apply vadd_adjust.
  - cbn [adjust]. rewrite !map2_cons. cbn [adjust]. f_equal. apply IH.
Qed.

Lemma row_nudge (r k u : nat) (t : R) (T : tensor) :
  (u < length T)%nat ->
  row u (nudge r k t T) =
  if (u =? r)%nat then adjust (fun x => x + t) k (row u T) else row u T.
Proof. intros H. unfold row, nudge. apply nth_adjust, H. Qed.

Lemma dot_cons (x y : R) (a b : vec) :
  dot (x :: a) (y :: b) = x * y + dot a b.
Proof. reflexivity. Qed.

(** A dot product and a squared norm as functions of one coordinate. *)
Lemma dot_adjust_l (k : nat) (t : R) (p q : vec) :
  (k < length p)%nat ->
  dot (adjust (fun x => x + t) k p) q = dot p q + t * nth k q 0.
Proof.
  revert k q; induction p as [|x p IH]; intros k q H; [simpl in H; lia|].
  destruct q as [|y q].
  - destruct k; cbn [adjust nth]; unfold dot, map2; simpl; ring.
  - destruct k as [|k]; cbn [adjust nth]; rewrite !dot_cons.
    + ring.
    + rewrite IH by (simpl in H; lia). ring.
Qed.

Lemma dot_adjust_r (k : nat) (t : R) (p q : vec) :
  (k < length q)%nat ->
  dot p (adjust (fun x => x + t) k q) = dot p q + t * nth k p 0.
Proof.
  revert k p; induction q as [|y q IH]; intros k p H; [simpl in H; lia|].
  destruct p as [|x p].
  - destruct k; cbn [adjust nth]; unfold dot, map2; simpl; ring.
  - destruct k as [|k]; cbn [adjust nth]; rewrite !dot_cons.
    + ring.
    + rewrite IH by (simpl in H; lia). ring.
Qed.

Lemma sqnorm_adjust (k : nat) (t : R) (p : vec) :
  (k < length p)%nat ->
  sqnorm (adjust (fun x => x + t) k p)
  = sqnorm p + (2 * t * nth k p 0 + t * t).
Proof.
  revert k; induction p as [|x p IH]; intros k H; [simpl in H; lia|].
  destruct k as [|k]; cbn [adjust nth]; rewrite !Numerics.sqnorm_cons.
  - ring.
  - rewrite IH by (simpl in H; lia). ring.
Qed.

(** *** Sums over a batch *)

Lemma sum_cons (x : R) (v : vec) : sum (x :: v) = x + sum v.
Proof. reflexivity. Qed.

Lemma sum_map_plus {A : Type} (f g : A -> R) (l : list A) :
  sum (map (fun x => f x + g x) l) = sum (map f l) + sum (map g l).
Proof.
  induction l as [|x l IH]; simpl map; [unfold sum; simpl; ring|].
  rewrite !sum_cons, IH. ring.
Qed.

Lemma sum_map_scal {A : Type} (c : R) (f : A -> R) (l : list A) :
  sum (map (fun x => c * f x) l) = c * sum (map f l).
Proof.
  induction l as [|x l IH]; simpl map; [unfold sum; simpl; ring|].
  rewrite !sum_cons, IH. ring.
Qed.

Lemma sum_map2_plus (a b : vec) :
  length a = length b -> sum (map2 Rplus a b) = sum a + sum b.
Proof.
  revert b; induction a as [|x a IH]; intros [|y b] H; try discriminate.
  - unfold sum; simpl; ring.
  - rewrite map2_cons, !sum_cons, IH by (simpl in H; lia). ring.
Qed.

(** The derivative of a sum over a list is the sum of the derivatives. *)
Lemma derivable_sum {A : Type} (F : A -> R -> R) (D : A -> R) (l : list A)
    (x : R) :
  Forall (fun a => derivable_pt_lim (F a) x (D a)) l ->
  derivable_pt_lim (fun t => sum (map (fun a => F a t) l)) x (sum (map D l)).
Proof.
  induction 1 as [|a l Ha _ IH]; simpl map.
  - apply (derivable_pt_lim_const 0).
  - apply (derivable_pt_lim_plus (F a)
             (fun t => sum (map (fun a => F a t) l))); assumption.
Qed.

(** A function equal to [g] everywhere has the derivatives of [g]. *)
Lemma derivable_ext (f g : R -> R) (x l : R) :
  (forall y, f y = g y) -> derivable_pt_lim g x l -> derivable_pt_lim f x l.
Proof.
  intros H. apply (Derivative.derivable_pt_lim_local f g x l 1); [lra|].
  intros y _; apply H.
Qed.


(** *** The forward pass on a batch of known ids *)

Lemma map2_map {A B C D : Type} (F : B -> C -> D) (f : A -> B) (g : A -> C)
    (l : list A) :
  map2 F (map f l) (map g l) = map (fun a => F (f a) (g a)) l.
Proof.
  induction l as [|a l IH]; [reflexivity|].
  simpl map. rewrite map2_cons, IH. reflexivity.
Qed.

Lemma combine_map {A B C : Type} (f : A -> B) (g : A -> C) (l : list A) :
  combine (map f l) (map g l) = map (fun a => (f a, g a)) l.
Proof. induction l as [|a l IH]; simpl; [reflexivity | f_equal; exact IH]. Qed.

Lemma combine_self_map {A B : Type} (g : A -> B) (l : list A) :
  combine l (map g l) = map (fun a => (a, g a)) l.
Proof. induction l as [|a l IH]; simpl; [reflexivity | f_equal; exact IH]. Qed.

Lemma gathered_column (d : nat) (T : tensor) (f : sample -> nat) (b : batch) :
  gathered d T (map (fun s => [f s]) b) = map (fun s => row (f s) T) b.
Proof.
  unfold gathered, reduce_sum_1. rewrite !map_map. reflexivity.
Qed.

Lemma row_lengths (m : model) (s : sample) :
  shape_inv m ->
  (user s < num_users m)%nat /\ (item_pos s < num_items m)%nat /\
  (item_neg s < num_items m)%nat ->
  length (row (user s) (perturbed_P m)) = embedding_size m /\
  length (row (item_pos s) (perturbed_Q m)) = embedding_size m /\
  length (row (item_neg s) (perturbed_Q m)) = embedding_size m.
Proof.
  intros Hm (Hu & Hi & Hj).
  pose proof (perturbed_P_shape m Hm) as SP.
  pose proof (perturbed_Q_shape m Hm) as SQ.
  unfold row. repeat split; eapply nth_row_length; eauto.
Qed.

Lemma scores_column (m : model) (b : batch) (f : sample -> nat) :
  shape_inv m -> h m = fill 1 (embedding_size m) 1 ->
  Forall (fun s => (user s < num_users m)%nat /\ (f s < num_items m)%nat) b ->
  inference_scores m (user_input b) (map (fun s => [f s]) b) =
  map (fun s => [dot (row (user s) (perturbed_P m))
                     (row (f s) (perturbed_Q m))]) b.
Proof.
  intros Hm Hh Hb. unfold inference_scores, user_input.
  rewrite !gathered_column, map2_map, map_map.
  apply map_ext_in. intros s Hs.
  rewrite Forall_forall in Hb. destruct (Hb s Hs) as [Hu Hi].
  pose proof (perturbed_P_shape m Hm) as SP.
  pose proof (perturbed_Q_shape m Hm) as SQ.
  assert (Lp : length (row (user s) (perturbed_P m)) = embedding_size m)
    by (eapply nth_row_length; eauto).
  assert (Lq : length (row (f s) (perturbed_Q m)) = embedding_size m)
    by (eapply nth_row_length; eauto).
  cbn [seq map]. rewrite Hh, column_ones.
  assert (L : length (map2 Rmult (row (user s) (perturbed_P m))
                                 (row (f s) (perturbed_Q m)))
              = embedding_size m) by (rewrite map2_length; congruence).
  rewrite <- L, dot_ones. reflexivity.
Qed.

Lemma bpr_scores_rows (m : model) (b : batch) :
  model_ok m -> h m = fill 1 (embedding_size m) 1 -> valid_batch m b ->
  bpr_scores m b =
  Ok {| embed_p_pos := map (fun s => row (user s) (perturbed_P m)) b;
        embed_q_pos := map (fun s => row (item_pos s) (perturbed_Q m)) b;
        embed_q_neg := map (fun s => row (item_neg s) (perturbed_Q m)) b;
        diff := map (fun s => [pair_difference (perturbed_P m)
                                 (perturbed_Q m) s]) b;
        bpr_loss :=
          sum (map (fun s => sample_loss
                               (pair_difference (perturbed_P m)
                                  (perturbed_Q m) s)) b) |}.
Proof.
  intros Hm Hh Hb. rewrite (Loss.bpr_scores_eval m b Hm Hb).
  destruct Hm as [Hm _].
  unfold item_input_pos, item_input_neg.
  rewrite (scores_column m b item_pos Hm Hh)
    by (eapply Forall_impl; [|exact Hb]; simpl; tauto).
  rewrite (scores_column m b item_neg Hm Hh)
    by (eapply Forall_impl; [|exact Hb]; simpl; tauto).
  unfold user_input. rewrite !gathered_column, map2_map.
  f_equal. f_equal.
  unfold reduce_sum, tmap. rewrite !map_map. f_equal.
  apply map_ext. intros s. unfold sum, sample_loss, pair_difference; simpl.
  ring.
Qed.


Lemma squares_row (p q q' : vec) (d : nat) :
  length p = d -> length q = d -> length q' = d ->
  length (map2 Rplus (map2 Rplus (map square p) (map square q))
            (map square q')) = d /\
  sum (map2 Rplus (map2 Rplus (map square p) (map square q))
         (map square q'))
  = sqnorm p + sqnorm q + sqnorm q'.
Proof.
  intros Lp Lq Lq'.
  assert (L1 : length (map2 Rplus (map square p) (map square q)) = d)
    by (rewrite map2_length; rewrite !length_map; congruence).
  split.
  - rewrite map2_length; rewrite ?length_map; congruence.
  - rewrite !sum_map2_plus; rewrite ?length_map; try congruence.
    reflexivity.
Qed.

Lemma size_rows {A : Type} (g : A -> vec) (l : list A) (d : nat) :
  Forall (fun a => length (g a) = d) l ->
  size (map g l) = (length l * d)%nat.
Proof.
  unfold size. induction 1 as [|a l Ha _ IH]; [reflexivity|].
  simpl. rewrite length_app, IH, Ha. reflexivity.
Qed.

(** What the tape differentiates, written as a sum over the triples. *)
Lemma loss_opt_eval (m : model) (b : batch) :
  model_ok m -> h m = fill 1 (embedding_size m) 1 -> valid_batch m b ->
  exists sq,
    reg_squares
      {| embed_p_pos := map (fun s => row (user s) (perturbed_P m)) b;
         embed_q_pos := map (fun s => row (item_pos s) (perturbed_Q m)) b;
         embed_q_neg := map (fun s => row (item_neg s) (perturbed_Q m)) b;
         diff := map (fun s => [pair_difference (perturbed_P m)
                                  (perturbed_Q m) s]) b;
         bpr_loss :=
           sum (map (fun s => sample_loss
                                (pair_difference (perturbed_P m)
                                   (perturbed_Q m) s)) b) |} = Ok sq /\
    size sq = (length b * embedding_size m)%nat /\
    loss_opt m b =
    Ok (sum (map (fun s =>
                    sample_loss
                      (pair_difference (perturbed_P m) (perturbed_Q m) s)
                    + reg m / INR (length b * embedding_size m)
                      * squares_of (perturbed_P m) (perturbed_Q m) s) b)).
Proof.
  intros Hm Hh Hb. unfold loss_opt.
  rewrite (bpr_scores_rows m b Hm Hh Hb). cbn [bind].
  destruct Hm as [Hm _].
  set (P := perturbed_P m). set (Q := perturbed_Q m).
  set (d := embedding_size m).
  assert (HL : Forall (fun s => length (row (user s) P) = d /\
                                length (row (item_pos s) Q) = d /\
                                length (row (item_neg s) Q) = d) b).
  { eapply Forall_impl; [|exact Hb]. intros s Hs.
    apply (row_lengths m s Hm Hs). }
  assert (S : forall (f : sample -> vec),
             Forall (fun s => length (f s) = d) b ->
             has_shape (tmap square (map f b)) (length b) d).
  { intros f Hf. apply has_shape_tmap. split; [apply length_map|].
    apply Forall_map. exact Hf. }
  unfold reg_squares. cbn [embed_p_pos embed_q_pos embed_q_neg].
  unfold add.
  rewrite (binop_same_shape Rplus _ _ (length b) d);
    [|apply S; eapply Forall_impl; [|exact HL]; simpl; tauto
     |apply S; eapply Forall_impl; [|exact HL]; simpl; tauto].
  cbn [bind].
  rewrite (binop_same_shape Rplus _ _ (length b) d);
    [|apply has_shape_tensor_map2; apply S;
      (eapply Forall_impl; [|exact HL]); simpl; tauto
     |apply S; eapply Forall_impl; [|exact HL]; simpl; tauto].
  eexists; split; [reflexivity|].
  unfold tmap. rewrite !map_map, !map2_map.
  split.
  - apply size_rows. eapply Forall_impl; [|exact HL].
    intros s (L1 & L2 & L3). apply (squares_row _ _ _ d L1 L2 L3).
  - cbn [bind bpr_loss]. f_equal.
    rewrite sum_map_plus, sum_map_scal. f_equal.
    unfold reg_loss, reduce_mean.
    rewrite (size_rows _ b d).
    + replace (reduce_sum _) with (sum (map (squares_of P Q) b));
        [unfold Rdiv; ring|].
      unfold reduce_sum. rewrite map_map. f_equal.
      apply map_ext_in. intros s Hs.
      rewrite Forall_forall in HL. destruct (HL s Hs) as (L1 & L2 & L3).
      symmetry. apply (squares_row _ _ _ d L1 L2 L3).
    + eapply Forall_impl; [|exact HL].
      intros s (L1 & L2 & L3). apply (squares_row _ _ _ d L1 L2 L3).
Qed.


(** *** The entries of the gradient *)

Lemma tape_rows_eval (P Q : tensor) (b : batch) (l : R) :
  tape_rows b
    {| embed_p_pos := map (fun s => row (user s) P) b;
       embed_q_pos := map (fun s => row (item_pos s) Q) b;
       embed_q_neg := map (fun s => row (item_neg s) Q) b;
       diff := map (fun s => [pair_difference P Q s]) b;
       bpr_loss := l |}
  = map (taped P Q) b.
Proof.
  unfold tape_rows, column. cbn [embed_p_pos embed_q_pos embed_q_neg diff].
  rewrite map_map. cbn [nth].
  rewrite !combine_map, combine_self_map. reflexivity.
Qed.

Lemma nth_vadd (k : nat) (a b : vec) :
  (k < length a)%nat -> (k < length b)%nat ->
  nth k (vadd a b) 0 = nth k a 0 + nth k b 0.
Proof. intros Ha Hb. unfold vadd. apply Entrywise.nth_map2; assumption. Qed.

Lemma nth_vsub (k : nat) (a b : vec) :
  (k < length a)%nat -> (k < length b)%nat ->
  nth k (vsub a b) 0 = nth k a 0 - nth k b 0.
Proof. intros Ha Hb. unfold vsub. apply Entrywise.nth_map2; assumption. Qed.

Lemma nth_vscale (k : nat) (c : R) (a : vec) :
  (k < length a)%nat -> nth k (vscale c a) 0 = c * nth k a 0.
Proof. intros Ha. unfold vscale. apply (nth_map _ _ _ 0 0), Ha. Qed.

Lemma nth_fold_vadd (k d : nat) (vs : list vec) :
  Forall (fun v => length v = d) vs -> (k < d)%nat ->
  nth k (fold_right vadd (repeat 0 d) vs) 0
  = sum (map (fun v => nth k v 0) vs).
Proof.
  intros H Hk. induction H as [|v vs Hv Hvs IH]; simpl.
  - apply nth_repeat.
  - rewrite nth_vadd, IH; [reflexivity | lia |].
    rewrite (fold_vadd_length d vs Hvs). exact Hk.
Qed.

Lemma scatter_entry (n d u k : nat) (updates : list (nat * vec)) :
  (u < n)%nat -> (k < d)%nat ->
  Forall (fun iv => length (snd iv) = d) updates ->
  nth k (row u (scatter_add n d updates)) 0
  = sum (map (fun iv => if (fst iv =? u)%nat then nth k (snd iv) 0 else 0)
             updates).
Proof.
  intros Hu Hk H. unfold row, scatter_add.
  rewrite (nth_map _ _ _ 0%nat) by (rewrite length_seq; exact Hu).
  rewrite seq_nth by exact Hu. cbn [Nat.add].
  rewrite (nth_fold_vadd k d); [| |exact Hk].
  - clear H. induction updates as [|[i v] updates IH]; [reflexivity|].
    cbn [filter map fst snd].
    destruct (i =? u)%nat; cbn [map snd]; rewrite !sum_cons, IH; ring.
  - apply Forall_map, Forall_forall. intros iv Hin.
    apply filter_In in Hin as [Hin _].
    rewrite Forall_forall in H. apply H, Hin.
Qed.


Lemma sum_app (a b : vec) : sum (a ++ b) = sum a + sum b.
Proof.
  induction a as [|x a IH]; [unfold sum; simpl; ring|].
  simpl app. rewrite !sum_cons, IH. ring.
Qed.

Lemma sum_flat_map {A B : Type} (g : B -> R) (F : A -> list B) (l : list A) :
  sum (map g (flat_map F l)) = sum (map (fun a => sum (map g (F a))) l).
Proof.
  induction l as [|a l IH]; [reflexivity|].
  cbn [flat_map map]. rewrite map_app, sum_app, sum_cons, IH. reflexivity.
Qed.

Lemma updates_lengths (P Q : tensor) (d : nat) (b : batch) (w c : R) :
  Forall (in_tables P Q d) b ->
  Forall (fun iv => length (snd iv) = d)
         (flat_map (updates_P w c) (map (taped P Q) b)) /\
  Forall (fun iv => length (snd iv) = d)
         (flat_map (updates_Q w c) (map (taped P Q) b)).
Proof.
  intros H; split; apply Forall_forall; intros iv Hin;
    apply in_flat_map in Hin as (tr & Htr & Hin);
    apply in_map_iff in Htr as (s & <- & Hs);
    rewrite Forall_forall in H; destruct (H s Hs) as (_ & L1 & L2 & L3);
    cbn [taped updates_P updates_Q] in Hin.
  - destruct Hin as [<-|[]]. cbn [snd].
    apply vadd_length; rewrite ?vscale_length; auto using vsub_length.
  - destruct Hin as [<-|[<-|[]]]; cbn [snd];
      apply vadd_length; rewrite ?vscale_length; auto.
Qed.

Lemma gradient_entry_P (P Q : tensor) (n d u k : nat) (b : batch)
    (w c : R) :
  Forall (in_tables P Q d) b -> (u < n)%nat -> (k < d)%nat ->
  nth k (row u (scatter_add n d
                  (flat_map (updates_P w c) (map (taped P Q) b)))) 0
  = sum (map (fun s =>
                if (user s =? u)%nat
                then w * dloss (pair_difference P Q s)
                     * (nth k (row (item_pos s) Q) 0
                        - nth k (row (item_neg s) Q) 0)
                     + c * nth k (row (user s) P) 0
                else 0) b).
Proof.
  intros H Hu Hk.
  rewrite scatter_entry by
    first [assumption | apply (updates_lengths P Q d b w c H)].
  rewrite sum_flat_map, map_map. f_equal.
  apply map_ext_in. intros s Hs.
  rewrite Forall_forall in H. destruct (H s Hs) as (_ & L1 & L2 & L3).
  cbn [taped updates_P map fst snd]. rewrite sum_cons.
  destruct (user s =? u)%nat; [|unfold sum; simpl; ring].
  rewrite nth_vadd, !nth_vscale, nth_vsub;
    rewrite ?vscale_length, ?(vsub_length _ _ d); try lia.
  unfold sum; simpl; ring.
Qed.

Lemma gradient_entry_Q (P Q : tensor) (n d i k : nat) (b : batch)
    (w c : R) :
  Forall (in_tables P Q d) b -> (i < n)%nat -> (k < d)%nat ->
  nth k (row i (scatter_add n d
                  (flat_map (updates_Q w c) (map (taped P Q) b)))) 0
  = sum (map (fun s =>
                (if (item_pos s =? i)%nat
                 then w * dloss (pair_difference P Q s)
                      * nth k (row (user s) P) 0
                      + c * nth k (row (item_pos s) Q) 0
                 else 0)
                + (if (item_neg s =? i)%nat
                   then - (w * dloss (pair_difference P Q s))
                        * nth k (row (user s) P) 0
                        + c * nth k (row (item_neg s) Q) 0
                   else 0)) b).
Proof.
  intros H Hi Hk.
  rewrite scatter_entry by
    first [assumption | apply (updates_lengths P Q d b w c H)].
  rewrite sum_flat_map, map_map. f_equal.
  apply map_ext_in. intros s Hs.
  rewrite Forall_forall in H. destruct (H s Hs) as (_ & L1 & L2 & L3).
  cbn [taped updates_Q map fst snd]. rewrite !sum_cons.
  destruct (item_pos s =? i)%nat; destruct (item_neg s =? i)%nat;
    rewrite ?nth_vadd, ?nth_vscale;
    rewrite ?vscale_length; try lia;
    unfold sum; simpl; ring.
Qed.


(** *** Derivatives along one coordinate *)

Lemma sample_loss_smooth (x : R) :
  x <> clip_lo -> x <> clip_hi -> derivable_pt_lim sample_loss x (dloss x).
Proof.
  intros Hlo Hhi.
  destruct (Rtotal_order x clip_lo) as [H|[H|H]]; [|contradiction|].
  - apply Derivative.sample_loss_below, H.
  - destruct (Rtotal_order x clip_hi) as [K|[K|K]]; [|contradiction|].
    + apply Derivative.sample_loss_inside. split; assumption.
    + apply Derivative.sample_loss_above, K.
Qed.

Lemma derivable_affine (a c x0 : R) :
  derivable_pt_lim (fun t => a + t * c) x0 c.
Proof.
  intros eps Heps. exists (mkposreal 1 Rlt_0_1). intros h Hh _.
  replace ((a + (x0 + h) * c - (a + x0 * c)) / h - c) with 0
    by (field; exact Hh).
  rewrite Rabs_R0. exact Heps.
Qed.

Lemma derivable_quadratic (A B C : R) :
  derivable_pt_lim (fun t => A + (t * B + C * t * t)) 0 B.
Proof.
  intros eps Heps.
  assert (Hc : 0 < Rabs C + 1) by (pose proof (Rabs_pos C); lra).
  assert (Hd : 0 < eps / (Rabs C + 1)) by (apply Rdiv_lt_0_compat; lra).
  exists (mkposreal _ Hd). cbn [pos]. intros h Hh Hlt.
  replace ((A + ((0 + h) * B + C * (0 + h) * (0 + h))
            - (A + (0 * B + C * 0 * 0))) / h - B) with (C * h)
    by (field; exact Hh).
  rewrite Rabs_mult.
  assert (K : Rabs h * (Rabs C + 1) < eps).
  { apply (Rmult_lt_compat_r (Rabs C + 1)) in Hlt; [|exact Hc].
    replace (eps / (Rabs C + 1) * (Rabs C + 1)) with eps in Hlt
      by (field; lra).
    exact Hlt. }
  pose proof (Rabs_pos h). pose proof (Rabs_pos C). nra.
Qed.

(** The term of one triple in [loss_opt] as a function of one coordinate. *)
Lemma term_derivative (x c r A B C : R) :
  x <> clip_lo -> x <> clip_hi ->
  derivable_pt_lim
    (fun t => sample_loss (x + t * c) + r * (A + (t * B + C * t * t)))
    0 (dloss x * c + r * B).
Proof.
  intros Hlo Hhi.
  apply (derivable_pt_lim_plus
           (fun t => sample_loss (x + t * c))
           (fun t => r * (A + (t * B + C * t * t)))).
  - apply (derivable_pt_lim_comp (fun t => x + t * c) sample_loss 0 c
             (dloss x)).
    + apply derivable_affine.
    + cbv beta. replace (x + 0 * c) with x by ring.
      apply sample_loss_smooth; assumption.
  - apply (derivable_pt_lim_scal (fun t => A + (t * B + C * t * t)) r 0 B).
    apply derivable_quadratic.
Qed.

Lemma term_derivative_P (P Q : tensor) (d u k : nat) (s : sample) (r : R) :
  in_tables P Q d s -> (k < d)%nat ->
  pair_difference P Q s <> clip_lo -> pair_difference P Q s <> clip_hi ->
  derivable_pt_lim
    (fun t => sample_loss (pair_difference (nudge u k t P) Q s)
              + r * squares_of (nudge u k t P) Q s)
    0
    (if (user s =? u)%nat
     then dloss (pair_difference P Q s)
          * (nth k (row (item_pos s) Q) 0 - nth k (row (item_neg s) Q) 0)
          + r * (2 * nth k (row (user s) P) 0)
     else 0).
Proof.
  intros ((Hu & Hi & Hj) & L1 & L2 & L3) Hk Hlo Hhi.
  destruct (user s =? u)%nat eqn:E.
  - eapply derivable_ext;
      [|apply (term_derivative (pair_difference P Q s)
                 (nth k (row (item_pos s) Q) 0
                  - nth k (row (item_neg s) Q) 0)
                 r (squares_of P Q s)
                 (2 * nth k (row (user s) P) 0) 1 Hlo Hhi)].
    intros t. unfold pair_difference, squares_of.
    rewrite (row_nudge u k (user s) t P Hu), E.
    rewrite !dot_adjust_l, sqnorm_adjust by lia.
    f_equal; [f_equal; ring | ring].
  - eapply derivable_ext; [|apply (derivable_pt_lim_const
                                     (sample_loss (pair_difference P Q s)
                                      + r * squares_of P Q s))].
    intros t. unfold pair_difference, squares_of, fct_cte.
    rewrite (row_nudge u k (user s) t P Hu), E. reflexivity.
Qed.

Lemma term_derivative_Q (P Q : tensor) (d i k : nat) (s : sample) (r : R) :
  in_tables P Q d s -> (k < d)%nat ->
  pair_difference P Q s <> clip_lo -> pair_difference P Q s <> clip_hi ->
  derivable_pt_lim
    (fun t => sample_loss (pair_difference P (nudge i k t Q) s)
              + r * squares_of P (nudge i k t Q) s)
    0
    ((if (item_pos s =? i)%nat
      then dloss (pair_difference P Q s) * nth k (row (user s) P) 0
           + r * (2 * nth k (row (item_pos s) Q) 0)
      else 0)
     + (if (item_neg s =? i)%nat
        then - dloss (pair_difference P Q s) * nth k (row (user s) P) 0
             + r * (2 * nth k (row (item_neg s) Q) 0)
        else 0)).
Proof.
  intros ((Hu & Hi & Hj) & L1 & L2 & L3) Hk Hlo Hhi.
  set (x := pair_difference P Q s).
  set (p := nth k (row (user s) P) 0).
  set (q := nth k (row (item_pos s) Q) 0).
  set (q' := nth k (row (item_neg s) Q) 0).
  set (e1 := if (item_pos s =? i)%nat then 1 else 0).
  set (e2 := if (item_neg s =? i)%nat then 1 else 0).
  eapply derivable_ext;
    [|replace (_ + _) with (dloss x * ((e1 - e2) * p)
                             + r * (2 * (e1 * q + e2 * q')));
      [apply (term_derivative x ((e1 - e2) * p) r (squares_of P Q s)
                (2 * (e1 * q + e2 * q')) (e1 + e2) Hlo Hhi)|]].
  - intros t. unfold pair_difference, squares_of.
    rewrite (row_nudge i k (item_pos s) t Q Hi).
    rewrite (row_nudge i k (item_neg s) t Q Hj).
    unfold x, p, q, q', e1, e2, pair_difference.
    destruct (item_pos s =? i)%nat; destruct (item_neg s =? i)%nat;
      rewrite ?dot_adjust_r, ?sqnorm_adjust by lia;
      (f_equal; [f_equal; ring | ring]).
  - unfold e1, e2.
    destruct (item_pos s =? i)%nat; destruct (item_neg s =? i)%nat; ring.
Qed.


(** *** The gradient of [loss_opt] *)

Lemma in_tables_valid (m : model) (b : batch) :
  shape_inv m -> valid_batch m b ->
  Forall (in_tables (perturbed_P m) (perturbed_Q m) (embedding_size m)) b.
Proof.
  intros Hm Hb. eapply Forall_impl; [|exact Hb]. intros s Hs.
  split; [|exact (row_lengths m s Hm Hs)].
  rewrite (proj1 (perturbed_P_shape m Hm)), (proj1 (perturbed_Q_shape m Hm)).
  exact Hs.
Qed.

Lemma model_ok_nudge_P (m : model) (u k : nat) (t : R) :
  model_ok m -> model_ok (nudge_P m u k t).
Proof.
  intros [[SP SQ SdP SdQ SaP SaQ] Hh]. split; [|exact Hh].
  split; cbn; auto using has_shape_nudge.
Qed.

Lemma model_ok_nudge_Q (m : model) (i k : nat) (t : R) :
  model_ok m -> model_ok (nudge_Q m i k t).
Proof.
  intros [[SP SQ SdP SdQ SaP SaQ] Hh]. split; [|exact Hh].
  split; cbn; auto using has_shape_nudge.
Qed.

Lemma off_the_kinks_rows (P Q : tensor) (b : batch) (sc : scores) :
  diff sc = map (fun s => [pair_difference P Q s]) b ->
  off_the_kinks sc ->
  Forall (fun s => pair_difference P Q s <> clip_lo /\
                   pair_difference P Q s <> clip_hi) b.
Proof.
  unfold off_the_kinks. intros -> H.
  apply Forall_forall. intros s Hs.
  rewrite Forall_forall in H.
  specialize (H [pair_difference P Q s]
                (in_map (fun s => [pair_difference P Q s]) b s Hs)).
  apply Forall_inv in H. exact H.
Qed.

(** The tensors [gradient] returns hold the partial derivatives of
    [loss_opt] in the entries of the two embedding matrices. *)
Lemma gradient_is_derivative (m : model) (b : batch) (sc : scores)
    (sq : tensor) :
  model_ok m -> h m = fill 1 (embedding_size m) 1 -> valid_batch m b ->
  bpr_scores m b = Ok sc -> reg_squares sc = Ok sq -> off_the_kinks sc ->
  is_gradient_at m b (gradient m b sc 1 (reg_coeff m sq)).
Proof.
  intros Hm Hh Hb Hsc Hsq Hk.
  destruct (loss_opt_eval m b Hm Hh Hb) as (sq' & Hsq' & Hsize & _).
  rewrite (bpr_scores_rows m b Hm Hh Hb) in Hsc. injection Hsc as <-.
  rewrite Hsq' in Hsq. injection Hsq as <-.
  apply (off_the_kinks_rows (perturbed_P m) (perturbed_Q m) b) in Hk;
    [|reflexivity].
  rename Hk into Hx.
  pose proof (in_tables_valid m b (proj1 Hm) Hb) as HT.
  assert (LP : length (embedding_P m) = num_users m)
    by apply (shape_P m (proj1 Hm)).
  assert (LQ : length (embedding_Q m) = num_items m)
    by apply (shape_Q m (proj1 Hm)).
  set (P := perturbed_P m) in *. set (Q := perturbed_Q m) in *.
  set (N := (length b * embedding_size m)%nat) in *.
  unfold gradient. rewrite tape_rows_eval. fold P Q.
  unfold reg_coeff. rewrite Hsize.
  split.
  - intros u k Hu Hkd. cbn [fst].
    exists (fun t =>
              sum (map (fun s =>
                          sample_loss (pair_difference (nudge u k t P) Q s)
                          + reg m / INR N * squares_of (nudge u k t P) Q s)
                       b)).
    split.
    + intros t.
      destruct (loss_opt_eval (nudge_P m u k t) b
                  (model_ok_nudge_P m u k t Hm) Hh Hb) as (_ & _ & _ & E).
      rewrite E. unfold perturbed_P, perturbed_Q.
      cbn [nudge_P set_parameters embedding_P embedding_Q delta_P delta_Q
           reg embedding_size].
      rewrite add_nudge. reflexivity.
    + rewrite (gradient_entry_P P Q _ (embedding_size m) u k b)
        by (rewrite ?LP; assumption).
      erewrite map_ext;
        [apply (derivable_sum
                  (fun s t =>
                     sample_loss (pair_difference (nudge u k t P) Q s)
                     + reg m / INR N * squares_of (nudge u k t P) Q s))|].
      * apply Forall_forall. intros s Hs.
        rewrite Forall_forall in HT, Hx.
        destruct (Hx s Hs) as [Hlo Hhi].
        apply (term_derivative_P P Q (embedding_size m) u k s
                 (reg m / INR N) (HT s Hs) Hkd Hlo Hhi).
      * intros s. cbv beta.
        destruct (user s =? u)%nat; [unfold Rdiv; ring | reflexivity].
  - intros i k Hi Hkd. cbn [snd].
    exists (fun t =>
              sum (map (fun s =>
                          sample_loss (pair_difference P (nudge i k t Q) s)
                          + reg m / INR N * squares_of P (nudge i k t Q) s)
                       b)).
    split.
    + intros t.
      destruct (loss_opt_eval (nudge_Q m i k t) b
                  (model_ok_nudge_Q m i k t Hm) Hh Hb) as (_ & _ & _ & E).
      rewrite E. unfold perturbed_P, perturbed_Q.
      cbn [nudge_Q set_parameters embedding_P embedding_Q delta_P delta_Q
           reg embedding_size].
      rewrite add_nudge. reflexivity.
    + rewrite (gradient_entry_Q P Q _ (embedding_size m) i k b)
        by (rewrite ?LQ; assumption).
      erewrite map_ext;
        [apply (derivable_sum
                  (fun s t =>
                     sample_loss (pair_difference P (nudge i k t Q) s)
                     + reg m / INR N * squares_of P (nudge i k t Q) s))|].
      * apply Forall_forall. intros s Hs.
        rewrite Forall_forall in HT, Hx.
        destruct (Hx s Hs) as [Hlo Hhi].
        apply (term_derivative_Q P Q (embedding_size m) i k s
                 (reg m / INR N) (HT s Hs) Hkd Hlo Hhi).
      * intros s. cbv beta.
        destruct (item_pos s =? i)%nat; destruct (item_neg s =? i)%nat;
          unfold Rdiv; ring.
Qed.

End Gradient.

(** ** The output paths *)

Module Paths.

Import TF TFLemmas BPRMF Inv Notebook.
Local Open Scope R_scope.

Section Repath.

Variables p1 p2 : string.










Lemma init_paths (dl : DataLoader) (q1 q2 : string)
    (noise_P noise_Q : nat -> nat -> R) :
  set_paths (init dl q1 q2 noise_P noise_Q) p1 p2
  = init dl p1 p2 noise_P noise_Q.
Proof. reflexivity. Qed.

End Repath.

Section Cells.

Variable read_dataset : string -> string -> DataLoader.
Variables noise_P noise_Q : nat -> nat -> R.
Variable evaluate : model -> result (R * R * R).
Variables p1 p2 : string.

Hypothesis evaluate_paths : forall m, evaluate (set_paths m p1 p2) = evaluate m.



End Cells.

End Paths.

(** * The claims *)

Import TF TFLemmas BPRMF Inv Shapes Totality Frames Inference Exceptions.
Import Notebook.
Local Open Scope R_scope.

(** ** The adversarial perturbation *)

(** C1 (as amended).  [execute_adversarial_attack] resets the
    perturbations and takes the gradient of the loss of the first batch of
    its own shuffle with respect to the two embedding matrices: on a model
    with consistent shapes, for a batch of known ids with no score
    difference at an end of the clipping range, the two tensors hold, entry
    by entry, the partial derivatives of that loss.  It stores in [delta_P]
    and [delta_Q] that gradient normalised row by row and multiplied by
    epsilon.  Nothing is clipped and nothing is added: the embeddings stay
    as they are. *)
Theorem attack_stores_scaled_normalized_gradient (m m' : model)
    (epsilon : R) :
  execute_adversarial_attack m epsilon = Ok m' ->
  exists b0 rest sc g,
    attack_batches m = b0 :: rest /\
    zero_perturbations (attack_model m) /\
    bpr_scores (attack_model m) b0 = Ok sc /\
    attack_gradient (attack_model m) (attack_batches m) = Ok g /\
    (model_ok m -> h m = fill 1 (embedding_size m) 1 ->
     valid_batch m b0 -> b0 <> [] -> off_the_kinks sc ->
     is_gradient_at (attack_model m) b0 g) /\
    delta_P m' = scale (l2_normalize (fst g)) epsilon /\
    delta_Q m' = scale (l2_normalize (snd g)) epsilon /\
    embedding_P m' = embedding_P m /\
    embedding_Q m' = embedding_Q m.
Proof.
  intros H.
  change (execute_adversarial_attack m epsilon)
    with (g <- attack_gradient (attack_model m) (attack_batches m) ;;
          Ok (set_perturbations (attack_model m)
                (scale (l2_normalize (fst g)) epsilon)
                (scale (l2_normalize (snd g)) epsilon))) in H.
  apply bind_Ok in H as (g & Hg & H). injection H as <-.
  pose proof Hg as Hg'. unfold attack_gradient in Hg'.
  destruct (attack_batches m) as [|b0 rest]; [discriminate|].
  cbn [bind] in Hg'.
  apply bind_Ok in Hg' as (sc & Hsc & Hg').
  apply bind_Ok in Hg' as (sq & Hsq & Hg'). injection Hg' as <-.
  exists b0, rest, sc,
    (gradient (attack_model m) b0 sc 1 (reg_coeff (attack_model m) sq)).
  split; [reflexivity|]. split; [split; reflexivity|].
  split; [exact Hsc|]. split; [exact Hg|].
  split; [|repeat split; reflexivity].
  intros Hm Hh Hb _ Hk.
  apply (Gradient.gradient_is_derivative (attack_model m) b0 sc sq);
    try assumption.
  apply model_ok_initialize_perturbations, model_ok_next_shuffle, Hm.
Qed.

Lemma attack_stores_scaled_normalized_gradient_witness :
  exists m' g,
    execute_adversarial_attack Tiny.start (1 / 2) = Ok m' /\
    attack_gradient (attack_model Tiny.start) (attack_batches Tiny.start)
    = Ok g /\
    is_gradient_at (attack_model Tiny.start) [(0, 0, 1)]%nat g /\
    delta_P m' = scale (l2_normalize (fst g)) (1 / 2) /\
    delta_Q m' = scale (l2_normalize (snd g)) (1 / 2) /\
    embedding_P m' = [[1; 2]; [1; 2]] /\
    embedding_Q m' = [[1; 0]; [0; 0]].
Proof.
  destruct (execute_adversarial_attack_total Tiny.start (1 / 2)
              TinyFacts.start_ok TinyFacts.start_valid_data
              TinyFacts.start_nonempty_data) as (m' & E & _).
  destruct (attack_stores_scaled_normalized_gradient _ _ _ E)
    as (b0 & rest & sc & g & Hb & _ & Hsc & Hg & Hgrad & HP & HQ & EP & EQ).
  injection Hb as <- <-.
  exists m', g. split; [exact E|]. split; [exact Hg|].
  split; [|repeat split; assumption].
  rewrite (Gradient.bpr_scores_rows (attack_model Tiny.start)
             [(0, 0, 1)]%nat) in Hsc;
    [|apply model_ok_initialize_perturbations, model_ok_next_shuffle,
        TinyFacts.start_ok
     |reflexivity
     |exact TinyFacts.start_valid_batch].
  injection Hsc as <-.
  apply Hgrad;
    [exact TinyFacts.start_ok | reflexivity
    |exact TinyFacts.start_valid_batch | discriminate |].
  unfold off_the_kinks. cbn [diff map].
  repeat constructor; run; unfold clip_lo, clip_hi; lra.
Defined.

(** In the small instance user 1 has no interaction, so the gradient row of
    user 1 is zero and so is the row of [delta_P]; the embedding row is
    [1; 2].  Whatever the clipping range, the stated perturbation differs
    from the one the method stores. *)
Lemma stated_perturbation_differs :
  exists m' g,
    execute_adversarial_attack Tiny.start (1 / 2) = Ok m' /\
    attack_gradient (attack_model Tiny.start) (attack_batches Tiny.start)
    = Ok g /\
    forall lo hi,
      stated_perturbation lo hi (1 / 2) (embedding_P Tiny.start) (fst g)
      <> Ok (delta_P m').
Proof.
  eexists; eexists; split; [run; reflexivity|]; split; [run; reflexivity|].
  intros lo hi. run. intros Heq. injection Heq as _ _ H10 H11.
  lra.
Qed.

(** ** Perturbations: reset, frame and shapes *)

(** C2 (as amended).  [_adversarial_train_step] ends by resetting both
    perturbations to zero, so they are zero after every call of it and after
    [adversarial_train] with at least one epoch; with zero epochs
    [adversarial_train] runs no step and returns the model as it was.  A
    model with zero perturbations (and consistent shapes) predicts with its
    unperturbed embeddings: the tables the inferences read are the
    embeddings themselves. *)
Theorem adversarial_training_resets_perturbations (m : model) (epsilon : R) :
  (forall batches m',
      _adversarial_train_step epsilon m batches = Ok m' ->
      zero_perturbations m') /\
  (forall n m',
      adversarial_train m (S n) epsilon = Ok m' -> zero_perturbations m') /\
  adversarial_train m 0 epsilon = Ok m /\
  (shape_inv m -> zero_perturbations m ->
   perturbed_P m = embedding_P m /\ perturbed_Q m = embedding_Q m /\
   get_full_inference m =
   matmul (num_items m) (embedding_P m)
          (transpose (embedding_size m) (embedding_Q m))).
Proof.
  split; [|split; [|split]].
  - intros batches m'; apply zero_perturbations__adversarial_train_step.
  - intros n m' H. rewrite adversarial_train_S in H.
    apply bind_Ok in H as (m1 & _ & H).
    eapply zero_perturbations__adversarial_train_step; eauto.
  - reflexivity.
  - intros Hm [HP HQ]. unfold perturbed_P, perturbed_Q.
    split; [rewrite HP; apply add_zeros, (shape_P m Hm)|].
    split; [rewrite HQ; apply add_zeros, (shape_Q m Hm)|].
    apply get_full_inference_unperturbed; assumption.
Qed.

Lemma adversarial_training_resets_perturbations_witness :
  exists m',
    adversarial_train Tiny.start 1 (1 / 2) = Ok m' /\
    zero_perturbations m' /\
    get_full_inference m' =
    matmul (num_items m') (embedding_P m')
           (transpose (embedding_size m') (embedding_Q m')).
Proof.
  destruct (adversarial_train_total Tiny.start 1 (1 / 2)
              TinyFacts.start_ok TinyFacts.start_valid_data
              TinyFacts.start_nonempty_data) as (m' & E & [Hs _] & _).
  exists m'.
  pose proof (adversarial_training_resets_perturbations Tiny.start (1 / 2))
    as (_ & H2 & _ & _).
  pose proof (adversarial_training_resets_perturbations m' (1 / 2))
    as (_ & _ & _ & H4).
  split; [exact E|]. split; [exact (H2 0%nat m' E)|].
  exact (proj2 (proj2 (H4 Hs (H2 0%nat m' E)))).
Defined.

(** As first stated, C2 also covered [adversarial_train] with zero
    epochs.  There the perturbations of an attacked model survive: after an
    attack, [adversarial_train(0, epsilon)] returns a model whose [delta_P]
    is not the zero matrix. *)
Lemma perturbations_survive_zero_epochs :
  exists m m',
    execute_adversarial_attack Tiny.start (1 / 2) = Ok m /\
    adversarial_train m 0 (1 / 2) = Ok m' /\
    delta_P m' <> zeros (num_users m') (embedding_size m').
Proof.
  eexists; eexists. split; [run; reflexivity|]. split; [reflexivity|].
  run. intros Heq. injection Heq as H00 _ _ _.
  revert H00. apply Numerics.normalized_nonzero; [|lra].
  match goal with |- context [dloss ?x] => replace x with 1 by lra end.
  pose proof (Numerics.dloss_neg 1 ltac:(unfold clip_lo, clip_hi; lra)).
  lra.
Qed.



(** C4.  The constructor builds perturbations of the shapes of the
    embeddings, (users x d) and (items x d), and every method that returns
    keeps all four shapes. *)
Theorem perturbations_share_embedding_shapes :
  (forall dl p1 p2 noise_P noise_Q,
      shape_inv (init dl p1 p2 noise_P noise_Q)) /\
  (forall m, shape_inv m ->
     shape_inv (initialize_perturbations m) /\
     (forall batches m', _train_step m batches = Ok m' -> shape_inv m') /\
     (forall epsilon batches m',
         _adversarial_train_step epsilon m batches = Ok m' -> shape_inv m') /\
     (forall epsilon m',
         execute_adversarial_attack m epsilon = Ok m' -> shape_inv m') /\
     (forall m', train m = Ok m' -> shape_inv m') /\
     (forall n epsilon m',
         adversarial_train m n epsilon = Ok m' -> shape_inv m')).
Proof.
  split; [intros; apply shape_inv_init|].
  intros m Hm.
  split; [apply shape_inv_initialize_perturbations, Hm|].
  split; [intros batches m'; apply shape_inv__train_step, Hm|].
  split; [intros epsilon batches m';
          apply shape_inv__adversarial_train_step, Hm|].
  split; [intros epsilon m'; apply shape_inv_execute_adversarial_attack, Hm|].
  split; [intros m'; apply shape_inv_train, Hm|].
  intros n epsilon m'; apply shape_inv_adversarial_train, Hm.
Qed.

Lemma perturbations_share_embedding_shapes_witness :
  shape_inv (initialize_perturbations Tiny.start) /\
  exists m',
    execute_adversarial_attack Tiny.start (1 / 2) = Ok m' /\
    has_shape (delta_P m') 2 2 /\ has_shape (embedding_P m') 2 2 /\
    has_shape (delta_Q m') 2 2 /\ has_shape (embedding_Q m') 2 2.
Proof.
  pose proof (proj2 perturbations_share_embedding_shapes Tiny.start
                (proj1 TinyFacts.start_ok)) as (H0 & _ & _ & H3 & _).
  split; [exact H0|].
  destruct (execute_adversarial_attack_total Tiny.start (1 / 2)
              TinyFacts.start_ok TinyFacts.start_valid_data
              TinyFacts.start_nonempty_data)
    as (m' & E & _ & (_ & Hu & Hi & Hd & _)).
  exists m'; split; [exact E|].
  destruct (H3 _ _ E) as [SP SQ SdP SdQ _ _].
  rewrite Hu, Hd in SP, SdP. rewrite Hi, Hd in SQ, SdQ.
  repeat split; first [apply SdP | apply SP | apply SdQ | apply SQ].
Defined.

(** ** Pairwise scores and the full prediction matrix *)

(** C5 (as amended).  For a user [u] and an item [i] of the model,
    [get_full_inference] and [get_inference] on the singleton columns [[u]]
    and [[i]] both return.  In exact arithmetic entry (u, i) of the matrix is
    the single score of the pair, and both are the dot product of row [u]
    of [embedding_P + delta_P] with row [i] of [embedding_Q + delta_Q], [h]
    being the all-ones column. *)
Theorem full_inference_entry_is_pair_score (m : model) (u i : nat) :
  shape_inv m -> h m = fill 1 (embedding_size m) 1 ->
  (u < num_users m)%nat -> (i < num_items m)%nat ->
  exists full p q,
    get_full_inference m = Ok full /\
    get_inference m [[u]] [[i]] = Ok ([[nth i (nth u full []) 0]], p, q) /\
    p = [nth u (perturbed_P m) []] /\ q = [nth i (perturbed_Q m) []] /\
    nth i (nth u full []) 0 =
    dot (nth u (perturbed_P m) []) (nth i (perturbed_Q m) []).
Proof.
  intros Hm Hh Hu Hi.
  pose proof (perturbed_P_shape m Hm) as SP.
  pose proof (perturbed_Q_shape m Hm) as SQ.
  pose proof (nth_row_length _ _ _ _ SP Hu) as Lp.
  pose proof (nth_row_length _ _ _ _ SQ Hi) as Lq.
  assert (Hlen : length (h m) = embedding_size m)
    by (rewrite Hh; unfold fill; apply repeat_length).
  assert (Hentry :
            nth i (nth u (map (fun row =>
                                 map (fun j =>
                                        dot row
                                          (column j
                                             (transpose (embedding_size m)
                                                (perturbed_Q m))))
                                     (seq 0 (num_items m)))
                              (perturbed_P m)) []) 0
            = dot (nth u (perturbed_P m) []) (nth i (perturbed_Q m) [])).
  { rewrite matmul_entry by (rewrite ?(proj1 SP); assumption).
    rewrite column_transpose by exact Lq. reflexivity. }
  eexists; exists [nth u (perturbed_P m) []], [nth i (perturbed_Q m) []].
  split; [apply get_full_inference_total, Hm|].
  split; [|split; [reflexivity|split; [reflexivity|exact Hentry]]].
  rewrite (get_inference_total m [[u]] [[i]] Hm Hlen)
    by (try reflexivity; repeat constructor; assumption).
  rewrite Hentry.
  unfold inference_scores, gathered; simpl.
  rewrite Hh, column_ones.
  assert (Lpq : length (map2 Rmult (nth u (perturbed_P m) [])
                                   (nth i (perturbed_Q m) []))
                = embedding_size m)
    by (rewrite map2_length; congruence).
  rewrite <- Lpq, dot_ones. reflexivity.
Qed.

Lemma full_inference_entry_is_pair_score_witness :
  exists full p q,
    get_full_inference Tiny.start = Ok full /\
    get_inference Tiny.start [[0%nat]] [[0%nat]]
    = Ok ([[nth 0 (nth 0 full []) 0]], p, q) /\
    p = [nth 0 (perturbed_P Tiny.start) []] /\
    q = [nth 0 (perturbed_Q Tiny.start) []] /\
    nth 0 (nth 0 full []) 0 =
    dot (nth 0 (perturbed_P Tiny.start) []) (nth 0 (perturbed_Q Tiny.start) []).
Proof.
  apply (full_inference_entry_is_pair_score Tiny.start 0 0).
  - exact (proj1 TinyFacts.start_ok).
  - reflexivity.
  - simpl; lia.
  - simpl; lia.
Defined.

(** As first stated, C5 equated the two numbers the program returns.  In
    single precision they are computed by different sequences of roundings:
    [get_inference] rounds each product of two coordinates and lets the
    product with [h] add them up, [get_full_inference] accumulates the
    products inside one matrix product.  For the embedding (1, 4097) of a
    user and of an item the first returns 16785408 and the second 16785410;
    the exact dot product is 16785410. *)
Lemma float32_scores_differ :
  exists full out p q,
    F32.get_full_inference F32.odd_square = Ok full /\
    F32.get_inference F32.odd_square [[0%nat]] [[0%nat]] = Ok (out, p, q) /\
    full = [[16785410%Q]] /\ out = [[16785408%Q]] /\
    ~ Qeq (nth 0 (nth 0 full []) 0%Q) (nth 0 (nth 0 out []) 0%Q).
Proof.
  exists [[16785410%Q]], [[16785408%Q]], [[1%Q; 4097%Q]], [[1%Q; 4097%Q]].
  split; [vm_compute; reflexivity|].
  split; [vm_compute; reflexivity|].
  split; [reflexivity|]. split; [reflexivity|].
  cbn [nth]. intros H. discriminate H.
Qed.

(** ** The loss across epochs *)

(** C7 (as amended).  The loss a training batch records is a sum of
    softplus values, hence never negative; so is the loss left by
    [_train_step] on at least one batch.  The loss of a sample does not grow
    when its score difference grows.  Nothing makes the loss of an epoch
    smaller than the loss of the epoch before. *)
Theorem recorded_loss_nonnegative :
  (forall m b m', _train_batch m b = Ok m' -> 0 <= loss m') /\
  (forall m batches m',
      batches <> [] -> _train_step m batches = Ok m' -> 0 <= loss m') /\
  (forall x y,
      x <= y ->
      softplus (- clip_by_value clip_lo clip_hi y)
      <= softplus (- clip_by_value clip_lo clip_hi x)).
Proof.
  assert (Hb : forall m b m', _train_batch m b = Ok m' -> 0 <= loss m').
  { intros m b m' H; unfold _train_batch in H.
    apply bind_Ok in H as (sc & Hsc & H).
    apply bind_Ok in H as (sq & _ & H).
    injection H as <-; simpl.
    unfold bpr_scores in Hsc.
    apply bind_Ok in Hsc as ([[o1 p1] q1] & _ & Hsc).
    apply bind_Ok in Hsc as ([[o2 p2] q2] & _ & Hsc).
    apply bind_Ok in Hsc as (d & _ & Hsc).
    injection Hsc as <-; simpl.
    apply Numerics.reduce_sum_softplus_nonneg. }
  split; [exact Hb|]. split.
  - intros m batches m' Hne H.
    destruct (exists_last Hne) as (bs & b & ->).
    unfold _train_step in H. rewrite foldM_app in H.
    apply bind_Ok in H as (m1 & _ & H). simpl in H.
    apply bind_Ok in H as (m2 & H2 & H). injection H as <-.
    eapply Hb; eauto.
  - intros x y Hxy.
    pose proof (Numerics.clip_monotone x y Hxy) as Hc.
    destruct Hc as [Hc|Hc]; [|rewrite Hc; lra].
    left; apply Numerics.softplus_increasing; lra.
Qed.

Lemma recorded_loss_nonnegative_witness :
  exists m',
    _train_step Tiny.start [[(0, 0, 1)]]%nat = Ok m' /\ 0 <= loss m'.
Proof.
  destruct (_train_step_total Tiny.start [[(0, 0, 1)]]%nat TinyFacts.start_ok)
    as (m' & E & _).
  { repeat constructor. }
  exists m'; split; [exact E|].
  apply (proj1 (proj2 recorded_loss_nonnegative)
           Tiny.start [[(0, 0, 1)]]%nat m');
    [discriminate | exact E].
Defined.

(** The loss of the second epoch can be higher than that of the first.  In
    the instance [Tiny.duel0] the first epoch samples item 2 (embedding 0)
    as the negative of the user's item (embedding 0.01), the second epoch
    samples item 1 (embedding 0.02): the score difference is positive in
    the first epoch and, the one update being small, negative in the
    second. *)
Lemma loss_increases :
  exists m1 m2,
    run_epochs 1 Tiny.duel0 = Ok m1 /\
    run_epochs 2 Tiny.duel0 = Ok m2 /\
    train Tiny.duel0 = Ok m2 /\
    loss m1 < loss m2.
Proof.
  pose proof (TinyFacts.duel_first_epoch (1 / 100) (1 / 100) (2 / 100) 0
                (/ 10) (/ 10) (/ 10) (/ 10) 0) as E1.
  fold Tiny.duel0 in E1.
  match type of E1 with
  | _ = Ok (Tiny.duel ?p' ?q0' _ ?q2' ?aP' ?a0' ?a1' ?a2' ?l' _) =>
      destruct (TinyFacts.duel_later_epoch
                  p' q0' (2 / 100) q2' aP' a0' a1' a2' l' 0)
        as (m2 & E2 & L2)
  end.
  eexists; exists m2.
  split; [rewrite TinyFacts.run_epochs_1, E1; reflexivity|].
  assert (R2 : run_epochs 2 Tiny.duel0 = Ok m2).
  { rewrite TinyFacts.run_epochs_2, E1. cbn [bind]. rewrite E2. reflexivity. }
  split; [exact R2|].
  split; [rewrite TinyFacts.train_run_epochs;
          change (epochs Tiny.duel0) with 2%nat; exact R2|].
  rewrite L2. cbn [loss Tiny.duel].
  set (x1 := 1 / 100 * (1 / 100) - 1 / 100 * 0).
  assert (Hx1 : clip_lo <= x1 <= clip_hi)
    by (unfold x1, clip_lo, clip_hi; lra).
  pose proof (Numerics.dloss_range x1 Hx1) as [D1 D2].
  pose proof (Numerics.adagrad_step_bounds
                (1 / 100) (dloss x1 * (1 / 100 - 0)) (/ 10)
                ltac:(lra) ltac:(nra)) as [Hp _].
  pose proof (Numerics.adagrad_step_bounds
                (1 / 100) (dloss x1 * (1 / 100)) (/ 10)
                ltac:(lra) ltac:(nra)) as [_ Hq].
  set (p' := adagrad_step (1 / 100) (dloss x1 * (1 / 100 - 0)) (/ 10)) in *.
  set (q0' := adagrad_step (1 / 100) (dloss x1 * (1 / 100)) (/ 10)) in *.
  assert (Hx2 : p' * q0' - p' * (2 / 100) < 0) by nra.
  apply Rlt_trans with (softplus 0).
  - apply Numerics.softplus_increasing.
    pose proof (Numerics.clip_pos x1 ltac:(unfold x1, clip_hi; lra)). lra.
  - apply Numerics.softplus_increasing.
    pose proof (Numerics.clip_neg _ Hx2). lra.
Qed.

(** It can also stall: with all embeddings at zero every gradient vanishes
    and each epoch ends with the loss ln 2. *)
Lemma loss_can_stall :
  exists m1 m2,
    run_epochs 1 (Tiny.flat 0 0) = Ok m1 /\
    run_epochs 2 (Tiny.flat 0 0) = Ok m2 /\
    loss m2 = loss m1.
Proof.
  exists (Tiny.flat (ln 2) 1), (Tiny.flat (ln 2) 2).
  split; [apply (TinyFacts.flat_epochs 0 0)|].
  split; [apply (TinyFacts.flat_epochs 0 1)|]. reflexivity.
Qed.

(** ** The top-level cells *)

(** C8 (as amended).  The statements of the notebook are, in this order:
    load data, construct the model, train, evaluate, perturb, evaluate,
    adversarially train, evaluate, perturb, evaluate: the eight steps the
    specification lists, followed by a second attack and a fourth
    evaluation.  A run that reaches the end has executed exactly these
    statements in this order. *)
Theorem notebook_steps_in_order :
  map step_of notebook = specified_steps ++ [PerturbStep; EvaluateStep] /\
  forall read_dataset noise_P noise_Q evaluate k,
    run_notebook read_dataset noise_P noise_Q evaluate = Ok k ->
    executed k = notebook /\
    map step_of (executed k) = specified_steps ++ [PerturbStep; EvaluateStep].
Proof.
  split; [reflexivity|].
  intros read_dataset noise_P noise_Q evaluate k H.
  apply NotebookFacts.run_notebook_logs in H as E. rewrite E.
  split; reflexivity.
Qed.

Lemma notebook_steps_in_order_witness :
  exists k,
    run_notebook tiny_dataset zero_noise zero_noise null_evaluate = Ok k /\
    executed k = notebook /\
    map step_of (executed k) = specified_steps ++ [PerturbStep; EvaluateStep].
Proof.
  destruct NotebookFacts.tiny_notebook_runs as (k & E).
  exists k; split; [exact E|].
  exact (proj2 notebook_steps_in_order
           tiny_dataset zero_noise zero_noise null_evaluate k E).
Defined.

(** The sequence of the specification stops two steps early: a run of the
    notebook to its end has executed more than the eight steps. *)
Lemma notebook_runs_more_steps :
  exists k,
    run_notebook tiny_dataset zero_noise zero_noise null_evaluate = Ok k /\
    map step_of (executed k) <> specified_steps.
Proof.
  destruct NotebookFacts.tiny_notebook_runs as (k & E).
  exists k; split; [exact E|].
  pose proof (NotebookFacts.run_notebook_logs tiny_dataset zero_noise
                zero_noise null_evaluate k E) as L.
  rewrite L.
  intros H. apply (f_equal (@length step)) in H.
  rewrite length_map in H. unfold notebook, specified_steps in H.
  cbn [length] in H. lia.
Qed.



(** ** Exceptions *)



(** * Further properties of the class and of the cells *)

(** ** The Adagrad update *)

Module Optimizer.

(** What the two batch methods reduce to: one [apply_gradients] with a
    gradient of the shapes of the two variables. *)
Lemma _train_batch_inv (m m' : model) (b : batch) :
  shape_inv m -> _train_batch m b = Ok m' ->
  exists sc g,
    bpr_scores m b = Ok sc /\
    has_shape (fst g) (num_users m) (embedding_size m) /\
    has_shape (snd g) (num_items m) (embedding_size m) /\
    m' = apply_gradients (set_loss m (bpr_loss sc)) g.
Proof.
  intros Hm H; unfold _train_batch in H.
  apply bind_Ok in H as (sc & Hsc & H).
  apply bind_Ok in H as (sq & _ & H).
  injection H as <-.
  destruct (bpr_scores_shape _ _ _ Hm Hsc) as (A & B & C).
  pose proof (shape_inv_set_loss m (bpr_loss sc) Hm) as Hm1.
  destruct (gradient_shape_inv (set_loss m (bpr_loss sc)) b sc 1
              (reg_coeff (set_loss m (bpr_loss sc)) sq) Hm1 A B C) as [GP GQ].
  eexists sc, _. split; [exact Hsc|]. split; [exact GP|]. split; [exact GQ|].
  reflexivity.
Qed.

Lemma execute_adversarial_attack_inv (m m' : model) (epsilon : R) :
  execute_adversarial_attack m epsilon = Ok m' ->
  exists dP dQ,
    m' = set_perturbations
           (snd (next_shuffle m (length (_user_input (data m))))) dP dQ.
Proof.
  intros H; unfold execute_adversarial_attack in H; simpl in H.
  apply bind_Ok in H as (g & _ & H). injection H as <-.
  eexists _, _. reflexivity.
Qed.

Lemma _adversarial_train_batch_inv (epsilon : R) (m m' : model) (b : batch) :
  shape_inv m -> _adversarial_train_batch epsilon m b = Ok m' ->
  exists sc m2 g,
    bpr_scores m b = Ok sc /\
    execute_adversarial_attack (set_loss m (bpr_loss sc)) epsilon = Ok m2 /\
    has_shape (fst g) (num_users m) (embedding_size m) /\
    has_shape (snd g) (num_items m) (embedding_size m) /\
    m' = apply_gradients m2 g.
Proof.
  intros Hm H; unfold _adversarial_train_batch in H.
  apply bind_Ok in H as (sc & Hsc & H).
  apply bind_Ok in H as (sq & _ & H).
  apply bind_Ok in H as (m2 & Hatt & H).
  apply bind_Ok in H as (sc' & Hsc' & H).
  injection H as <-.
  pose proof (shape_inv_set_loss m (bpr_loss sc) Hm) as Hm1.
  pose proof (shape_inv_execute_adversarial_attack _ _ _ Hm1 Hatt) as Hm2.
  destruct (bpr_scores_shape _ _ _ Hm Hsc) as (A & B & C).
  destruct (bpr_scores_shape _ _ _ Hm2 Hsc') as (A' & B' & C').
  destruct (gradient_shape_inv m b sc 1 (reg_coeff m sq) Hm A B C)
    as [GP GQ].
  destruct (gradient_shape_inv m2 b sc' adv_reg 0 Hm2 A' B' C')
    as [GP' GQ'].
  destruct (execute_adversarial_attack_inv _ _ _ Hatt) as (dP & dQ & E).
  assert (N1 : num_users m2 = num_users m) by (rewrite E; reflexivity).
  assert (N2 : num_items m2 = num_items m) by (rewrite E; reflexivity).
  assert (N3 : embedding_size m2 = embedding_size m)
    by (rewrite E; reflexivity).
  rewrite N1, N3 in GP'. rewrite N2, N3 in GQ'.
  eexists sc, m2, _.
  split; [exact Hsc|]. split; [exact Hatt|].
  split; [|split; [|reflexivity]];
    apply (has_shape_tensor_map2 Rplus); assumption.
Qed.

(** The accumulator only grows: it gains the square of the gradient. *)
Lemma adagrad_accum_grows (accum grad : tensor) (n d : nat) :
  has_shape accum n d -> has_shape grad n d ->
  entrywise Rle accum (adagrad_accum accum grad).
Proof.
  intros [La Fa] [Lg Fg]. unfold adagrad_accum.
  apply (Entrywise.entrywise_map2 Rle (fun _ => True)) with (d := d);
    auto using Entrywise.Forall_Forall_true; [congruence|].
  intros a g _. pose proof (Rle_0_sqr g) as H; unfold Rsqr in H. lra.
Qed.

Lemma adagrad_accum_lower (c : R) (accum grad : tensor) :
  Forall (Forall (Rle c)) accum ->
  Forall (Forall (Rle c)) (adagrad_accum accum grad).
Proof.
  intros H. unfold adagrad_accum.
  apply (Entrywise.Forall_map2 (Rle c) (fun _ => True) (Rle c));
    auto using Entrywise.Forall_Forall_true.
  intros a g Ha _. pose proof (Rle_0_sqr g) as Hg; unfold Rsqr in Hg. lra.
Qed.





End Optimizer.

(** ** The optimizer's slots and the size of an update *)

Module Slots.

Lemma slots_grow_refl (m : model) : slots_grow m m.
Proof. split; apply Entrywise.entrywise_refl; intros; lra. Qed.

Lemma slots_grow_trans (m1 m2 m3 : model) :
  slots_grow m1 m2 -> slots_grow m2 m3 -> slots_grow m1 m3.
Proof.
  intros [A1 B1] [A2 B2].
  split; eapply Entrywise.entrywise_trans; eauto; intros; lra.
Qed.

Lemma slots_grow_eq (m m' : model) :
  accum_P m' = accum_P m -> accum_Q m' = accum_Q m -> slots_grow m m'.
Proof.
  intros EP EQ. unfold slots_grow. rewrite EP, EQ. apply slots_grow_refl.
Qed.

Lemma Forall2_Forall_row (c : R) (v v' : vec) :
  Forall2 Rle v v' -> Forall (Rle c) v -> Forall (Rle c) v'.
Proof.
  induction 1 as [|x y v v' Hxy _ IH]; intros Hv; [constructor|].
  apply Forall_cons_iff in Hv as [Hx Hv].
  constructor; [lra | apply IH, Hv].
Qed.

Lemma slots_ok_grow (m m' : model) :
  slots_grow m m' -> slots_ok m -> slots_ok m'.
Proof.
  assert (H : forall t t' : tensor,
             entrywise Rle t t' ->
             Forall (Forall (Rle initial_accumulator_value)) t ->
             Forall (Forall (Rle initial_accumulator_value)) t').
  { induction 1 as [|v v' t t' Hv _ IH]; intros Ht; [constructor|].
    apply Forall_cons_iff in Ht as [Hv0 Ht].
    constructor; [eapply Forall2_Forall_row; eauto | apply IH, Ht]. }
  intros [GP GQ] [OP OQ]. split; eauto.
Qed.

Lemma fill_lower (c : R) (n d : nat) : Forall (Forall (Rle c)) (fill c n d).
Proof.
  unfold fill. apply Forall_forall; intros r Hr.
  apply repeat_spec in Hr as ->.
  apply Forall_forall; intros x Hx. apply repeat_spec in Hx as ->. lra.
Qed.

Lemma slots_ok_init (dl : DataLoader) (p1 p2 : string)
    (noise_P noise_Q : nat -> nat -> R) :
  slots_ok (init dl p1 p2 noise_P noise_Q).
Proof. split; apply fill_lower. Qed.


Lemma slots_grow_apply_gradients (m : model) (g : tensor * tensor) :
  shape_inv m ->
  has_shape (fst g) (num_users m) (embedding_size m) ->
  has_shape (snd g) (num_items m) (embedding_size m) ->
  slots_grow m (apply_gradients m g).
Proof.
  intros Hm GP GQ. split; simpl.
  - eapply Optimizer.adagrad_accum_grows; [apply (shape_accum_P m Hm)|exact GP].
  - eapply Optimizer.adagrad_accum_grows; [apply (shape_accum_Q m Hm)|exact GQ].
Qed.


Lemma slots_grow__train_batch (m m' : model) (b : batch) :
  shape_inv m -> _train_batch m b = Ok m' -> slots_grow m m'.
Proof.
  intros Hm H.
  destruct (Optimizer._train_batch_inv _ _ _ Hm H)
    as (sc & g & _ & GP & GQ & ->).
  apply (slots_grow_apply_gradients (set_loss m (bpr_loss sc)) g);
    auto using shape_inv_set_loss.
Qed.


Lemma attack_keeps_slots (m m' : model) (epsilon : R) :
  execute_adversarial_attack m epsilon = Ok m' ->
  accum_P m' = accum_P m /\ accum_Q m' = accum_Q m /\
  embedding_P m' = embedding_P m /\ embedding_Q m' = embedding_Q m /\
  loss m' = loss m /\ draws m' = S (draws m).
Proof.
  intros H.
  destruct (Optimizer.execute_adversarial_attack_inv _ _ _ H)
    as (dP & dQ & ->).
  repeat split.
Qed.

Lemma slots_grow__adversarial_train_batch (epsilon : R) (m m' : model)
    (b : batch) :
  shape_inv m -> _adversarial_train_batch epsilon m b = Ok m' ->
  slots_grow m m'.
Proof.
  intros Hm H.
  destruct (Optimizer._adversarial_train_batch_inv _ _ _ _ Hm H)
    as (sc & m2 & g & _ & Hatt & GP & GQ & ->).
  pose proof (shape_inv_set_loss m (bpr_loss sc) Hm) as Hm1.
  pose proof (shape_inv_execute_adversarial_attack _ _ _ Hm1 Hatt) as Hm2.
  destruct (same_config_execute_adversarial_attack _ _ _ Hatt)
    as (_ & N1 & N2 & N3 & _).
  destruct (attack_keeps_slots _ _ _ Hatt) as (AP & AQ & _).
  apply slots_grow_trans with m2; [apply slots_grow_eq; assumption|].
  apply slots_grow_apply_gradients; [exact Hm2| |];
    [rewrite N1, N3 | rewrite N2, N3]; assumption.
Qed.


End Slots.

(** ** What the loops keep *)

Module Loops.

(** An invariant of the loop body that comes with a relation between the
    state before and after: reflexive and transitive relations carry over
    to the loop. *)
Lemma foldM_related {A St : Type} (I : St -> Prop) (Rel : St -> St -> Prop)
    (f : St -> A -> result St) (xs : list A) :
  (forall s, Rel s s) ->
  (forall s1 s2 s3, Rel s1 s2 -> Rel s2 s3 -> Rel s1 s3) ->
  (forall s x s', I s -> f s x = Ok s' -> I s' /\ Rel s s') ->
  forall s s', I s -> foldM f xs s = Ok s' -> I s' /\ Rel s s'.
Proof.
  intros Hr Ht Hf; induction xs as [|x xs IH]; intros s s' Hs H; simpl in H.
  - injection H as <-. auto.
  - apply bind_Ok in H as (s1 & H1 & H).
    destruct (Hf _ _ _ Hs H1) as [Hs1 R1].
    destruct (IH _ _ Hs1 H) as [Hs' R2]. eauto.
Qed.









Lemma slots_grow__train_step (m m' : model) (batches : list batch) :
  shape_inv m -> _train_step m batches = Ok m' -> slots_grow m m'.
Proof.
  intros Hm H.
  refine (proj2 (foldM_related shape_inv slots_grow _train_batch batches
                   Slots.slots_grow_refl Slots.slots_grow_trans _ m m' Hm H)).
  intros s x s' Hs Hx.
  split; [eapply shape_inv__train_batch | eapply Slots.slots_grow__train_batch];
    eauto.
Qed.

Lemma slots_grow__adversarial_train_step (epsilon : R) (m m' : model)
    (batches : list batch) :
  shape_inv m -> _adversarial_train_step epsilon m batches = Ok m' ->
  slots_grow m m'.
Proof.
  intros Hm H. unfold _adversarial_train_step in H.
  apply bind_Ok in H as (m1 & H1 & H). injection H as <-.
  apply Slots.slots_grow_trans with m1;
    [|apply Slots.slots_grow_eq; reflexivity].
  refine (proj2 (foldM_related shape_inv slots_grow
                   (_adversarial_train_batch epsilon) batches
                   Slots.slots_grow_refl Slots.slots_grow_trans _ m m1 Hm H1)).
  intros s x s' Hs Hx.
  split; [eapply shape_inv__adversarial_train_batch
         | eapply Slots.slots_grow__adversarial_train_batch]; eauto.
Qed.

Lemma slots_grow_train (m m' : model) :
  shape_inv m -> train m = Ok m' -> slots_grow m m'.
Proof.
  intros Hm H. unfold train in H.
  refine (proj2 (foldM_related shape_inv slots_grow _ _
                   Slots.slots_grow_refl Slots.slots_grow_trans _ m m' Hm H)).
  intros s x s' Hs Hx.
  destruct (next_shuffle s (batch_size s)) as [bs s1] eqn:E.
  assert (Hs1 : shape_inv s1)
    by (change s1 with (snd (bs, s1)); rewrite <- E;
        apply shape_inv_next_shuffle, Hs).
  assert (A : accum_P s1 = accum_P s /\ accum_Q s1 = accum_Q s)
    by (injection E as _ <-; split; reflexivity).
  split; [eapply shape_inv__train_step; eauto|].
  apply Slots.slots_grow_trans with s1;
    [apply Slots.slots_grow_eq; apply A|].
  eapply slots_grow__train_step; eauto.
Qed.

Lemma slots_grow_adversarial_train (m m' : model) (n : nat) (epsilon : R) :
  shape_inv m -> adversarial_train m n epsilon = Ok m' -> slots_grow m m'.
Proof.
  intros Hm H. unfold adversarial_train in H.
  refine (proj2 (foldM_related shape_inv slots_grow _ _
                   Slots.slots_grow_refl Slots.slots_grow_trans _ m m' Hm H)).
  intros s x s' Hs Hx.
  destruct (next_shuffle s (batch_size s)) as [bs s1] eqn:E.
  assert (Hs1 : shape_inv s1)
    by (change s1 with (snd (bs, s1)); rewrite <- E;
        apply shape_inv_next_shuffle, Hs).
  assert (A : accum_P s1 = accum_P s /\ accum_Q s1 = accum_Q s)
    by (injection E as _ <-; split; reflexivity).
  split; [eapply shape_inv__adversarial_train_step; eauto|].
  apply Slots.slots_grow_trans with s1;
    [apply Slots.slots_grow_eq; apply A|].
  eapply slots_grow__adversarial_train_step; eauto.
Qed.

End Loops.

(** X1.  The optimizer's accumulators start at 0.1 in every entry and no
    method ever lowers one: training and adversarial training only add
    squares of gradients to them, the attack leaves them alone.  So they
    stay at or above 0.1, and the denominator of the Adagrad update never
    vanishes. *)
Theorem accumulators_only_grow :
  (forall dl p1 p2 noise_P noise_Q,
      slots_ok (init dl p1 p2 noise_P noise_Q)) /\
  (forall m, shape_inv m ->
     (forall batches m', _train_step m batches = Ok m' -> slots_grow m m') /\
     (forall m', train m = Ok m' -> slots_grow m m') /\
     (forall epsilon m',
         execute_adversarial_attack m epsilon = Ok m' ->
         accum_P m' = accum_P m /\ accum_Q m' = accum_Q m) /\
     (forall epsilon batches m',
         _adversarial_train_step epsilon m batches = Ok m' ->
         slots_grow m m') /\
     (forall n epsilon m',
         adversarial_train m n epsilon = Ok m' -> slots_grow m m')) /\
  (forall m m', slots_grow m m' -> slots_ok m -> slots_ok m') /\
  (forall a g, initial_accumulator_value <= a ->
               0 < sqrt (a + g * g) + adagrad_epsilon).
Proof.
  split; [intros; apply Slots.slots_ok_init|].
  split; [|split; [exact Slots.slots_ok_grow|]].
  - intros m Hm.
    split; [intros batches m'; apply Loops.slots_grow__train_step, Hm|].
    split; [intros m'; apply Loops.slots_grow_train, Hm|].
    split.
    { intros epsilon m' H.
      destruct (Slots.attack_keeps_slots _ _ _ H) as (A & B & _). auto. }
    split; [intros epsilon batches m';
            apply Loops.slots_grow__adversarial_train_step, Hm|].
    intros n epsilon m'; apply Loops.slots_grow_adversarial_train, Hm.
  - intros a g Ha.
    pose proof (Numerics.adagrad_denominator a g Ha). lra.
Qed.

Lemma accumulators_only_grow_witness :
  exists m',
    train Tiny.start = Ok m' /\ slots_grow Tiny.start m' /\ slots_ok m'.
Proof.
  destruct (train_total Tiny.start TinyFacts.start_ok
              TinyFacts.start_valid_data) as (m' & E & _).
  pose proof accumulators_only_grow as (_ & H & K & _).
  destruct (H Tiny.start (proj1 TinyFacts.start_ok)) as (_ & H2 & _).
  exists m'. split; [exact E|]. split; [exact (H2 _ E)|].
  apply (K Tiny.start m' (H2 _ E)).
  split; apply Slots.fill_lower.
Defined.



(** ** Rows the gradient does not reach *)

Module Locality.

Lemma row_scatter_add (n d u : nat) (updates : list (nat * vec)) :
  (u < n)%nat ->
  row u (scatter_add n d updates) =
  fold_right vadd (repeat 0 d)
    (map snd (filter (fun iv => (fst iv =? u)%nat) updates)).
Proof.
  intros Hu. unfold row, scatter_add.
  rewrite (Inference.nth_map _ _ _ 0%nat) by (rewrite length_seq; exact Hu).
  rewrite seq_nth by exact Hu. reflexivity.
Qed.

Lemma filter_none {A : Type} (f : A -> bool) (l : list A) :
  Forall (fun x => f x = false) l -> filter f l = [].
Proof.
  induction 1 as [|x l Hx _ IH]; [reflexivity|].
  simpl. rewrite Hx. exact IH.
Qed.

Lemma tape_rows_samples (b : batch) (sc : scores) :
  Forall (fun row => In (fst row) b) (tape_rows b sc).
Proof.
  apply Forall_forall. intros [s rest] H.
  unfold tape_rows in H. apply in_combine_l in H. exact H.
Qed.

Lemma updates_P_users (b : batch) (sc : scores) (w c : R) :
  Forall (fun iv => In (fst iv) (users_of b))
         (flat_map (updates_P w c) (tape_rows b sc)).
Proof.
  apply Forall_forall. intros iv H.
  apply in_flat_map in H as ([s [p [q [q' x]]]] & Hs & Hiv).
  pose proof (tape_rows_samples b sc) as Hb.
  rewrite Forall_forall in Hb. specialize (Hb _ Hs). simpl in Hb.
  destruct Hiv as [<-|[]]. simpl. unfold users_of. apply in_map, Hb.
Qed.

Lemma updates_Q_items (b : batch) (sc : scores) (w c : R) :
  Forall (fun iv => In (fst iv) (items_of b))
         (flat_map (updates_Q w c) (tape_rows b sc)).
Proof.
  apply Forall_forall. intros iv H.
  apply in_flat_map in H as ([s [p [q [q' x]]]] & Hs & Hiv).
  pose proof (tape_rows_samples b sc) as Hb.
  rewrite Forall_forall in Hb. specialize (Hb _ Hs). simpl in Hb.
  unfold items_of. apply in_or_app.
  destruct Hiv as [<-|[<-|[]]]; simpl;
    [left | right]; apply in_map, Hb.
Qed.

Lemma scatter_add_untouched (n d u : nat) (updates : list (nat * vec))
    (ids : list nat) :
  (u < n)%nat -> ~ In u ids ->
  Forall (fun iv => In (fst iv) ids) updates ->
  row u (scatter_add n d updates) = repeat 0 d.
Proof.
  intros Hu Hn H. rewrite row_scatter_add by exact Hu.
  rewrite filter_none; [reflexivity|].
  eapply Forall_impl; [|exact H]. intros iv Hiv; simpl in *.
  apply Nat.eqb_neq. intros E. rewrite E in Hiv. contradiction.
Qed.

(** The gradient is zero in the rows of the users and of the items the
    batch does not name. *)
Lemma gradient_untouched_user (m : model) (b : batch) (sc : scores)
    (w c : R) (u : nat) :
  (u < length (embedding_P m))%nat -> ~ In u (users_of b) ->
  row u (fst (gradient m b sc w c)) = repeat 0 (embedding_size m).
Proof.
  intros Hu Hn. unfold gradient; simpl.
  eapply scatter_add_untouched; eauto using updates_P_users.
Qed.

Lemma gradient_untouched_item (m : model) (b : batch) (sc : scores)
    (w c : R) (i : nat) :
  (i < length (embedding_Q m))%nat -> ~ In i (items_of b) ->
  row i (snd (gradient m b sc w c)) = repeat 0 (embedding_size m).
Proof.
  intros Hi Hn. unfold gradient; simpl.
  eapply scatter_add_untouched; eauto using updates_Q_items.
Qed.

(** Adagrad on a row whose gradient is zero. *)
Lemma accum_row_zero (a : vec) :
  map2 (fun x g => x + g * g) a (repeat 0 (length a)) = a.
Proof.
  induction a as [|x a IH]; [reflexivity|].
  unfold map2 in *; simpl. rewrite IH. f_equal. ring.
Qed.

Lemma var_row_zero (lr : R) (v a : vec) :
  length a = length v ->
  map2 (fun x ga => x - lr * fst ga / (sqrt (snd ga) + adagrad_epsilon))
       v (map2 pair (repeat 0 (length v)) a) = v.
Proof.
  revert a; induction v as [|x v IH]; intros [|y a] Hl; try discriminate;
    [reflexivity|].
  unfold map2 in *; simpl. rewrite IH by (simpl in Hl; lia).
  f_equal. unfold Rdiv. ring.
Qed.

Lemma row_length (t : tensor) (n d u : nat) :
  has_shape t n d -> (u < n)%nat -> length (row u t) = d.
Proof. apply Inference.nth_row_length. Qed.

Lemma row_adagrad_accum (accum grad : tensor) (n d u : nat) :
  has_shape accum n d -> has_shape grad n d -> (u < n)%nat ->
  row u grad = repeat 0 d ->
  row u (adagrad_accum accum grad) = row u accum.
Proof.
  intros Ha Hg Hu Hz. unfold row, adagrad_accum in *.
  rewrite (Entrywise.nth_map2 _ _ _ _ [] [])
    by (rewrite ?(proj1 Ha), ?(proj1 Hg); exact Hu).
  rewrite Hz.
  rewrite <- (row_length accum n d u Ha Hu). apply accum_row_zero.
Qed.

Lemma row_adagrad_var (lr : R) (var grad accum' : tensor) (n d u : nat) :
  has_shape var n d -> has_shape grad n d -> has_shape accum' n d ->
  (u < n)%nat -> row u grad = repeat 0 d ->
  row u (adagrad_var lr var grad accum') = row u var.
Proof.
  intros Hv Hg Ha Hu Hz. unfold row, adagrad_var in *.
  destruct (map2_rect (@pair R R) grad accum' d) as [Lp Fp];
    [rewrite (proj1 Hg), (proj1 Ha); reflexivity
    | exact (proj2 Hg) | exact (proj2 Ha) |].
  rewrite (Entrywise.nth_map2 _ _ _ _ [] [])
    by (rewrite ?Lp, ?(proj1 Hv), ?(proj1 Hg); exact Hu).
  rewrite (Entrywise.nth_map2 _ _ _ _ [] [])
    by (rewrite ?(proj1 Ha), ?(proj1 Hg); exact Hu).
  rewrite Hz.
  rewrite <- (row_length var n d u Hv Hu). apply var_row_zero.
  change (length (row u accum') = length (row u var)).
  rewrite (row_length var n d u Hv Hu). apply (row_length accum' n d u Ha Hu).
Qed.

Lemma apply_gradients_untouched_user (m : model) (g : tensor * tensor)
    (u : nat) :
  shape_inv m ->
  has_shape (fst g) (num_users m) (embedding_size m) ->
  (u < num_users m)%nat ->
  row u (fst g) = repeat 0 (embedding_size m) ->
  same_user_rows u m (apply_gradients m g).
Proof.
  intros Hm Hg Hu Hz. split; simpl.
  - apply (row_adagrad_var _ _ _ _ (num_users m) (embedding_size m));
      [apply (shape_P m Hm) | exact Hg | | exact Hu | exact Hz].
    apply has_shape_adagrad_accum; [apply (shape_accum_P m Hm)|exact Hg].
  - apply (row_adagrad_accum _ _ (num_users m) (embedding_size m));
      [apply (shape_accum_P m Hm) | exact Hg | exact Hu | exact Hz].
Qed.

Lemma apply_gradients_untouched_item (m : model) (g : tensor * tensor)
    (i : nat) :
  shape_inv m ->
  has_shape (snd g) (num_items m) (embedding_size m) ->
  (i < num_items m)%nat ->
  row i (snd g) = repeat 0 (embedding_size m) ->
  same_item_rows i m (apply_gradients m g).
Proof.
  intros Hm Hg Hi Hz. split; simpl.
  - apply (row_adagrad_var _ _ _ _ (num_items m) (embedding_size m));
      [apply (shape_Q m Hm) | exact Hg | | exact Hi | exact Hz].
    apply has_shape_adagrad_accum; [apply (shape_accum_Q m Hm)|exact Hg].
  - apply (row_adagrad_accum _ _ (num_items m) (embedding_size m));
      [apply (shape_accum_Q m Hm) | exact Hg | exact Hi | exact Hz].
Qed.

End Locality.

Module Untouched.

Import Locality.

Lemma _train_batch_unfold (m m' : model) (b : batch) :
  _train_batch m b = Ok m' ->
  exists sc sq,
    bpr_scores m b = Ok sc /\ reg_squares sc = Ok sq /\
    m' = apply_gradients (set_loss m (bpr_loss sc))
           (gradient (set_loss m (bpr_loss sc)) b sc 1
              (reg_coeff (set_loss m (bpr_loss sc)) sq)).
Proof.
  intros H; unfold _train_batch in H.
  apply bind_Ok in H as (sc & Hsc & H).
  apply bind_Ok in H as (sq & Hsq & H).
  injection H as <-. eauto.
Qed.

Lemma _adversarial_train_batch_unfold (epsilon : R) (m m' : model)
    (b : batch) :
  _adversarial_train_batch epsilon m b = Ok m' ->
  exists sc sq m2 sc_adver,
    bpr_scores m b = Ok sc /\ reg_squares sc = Ok sq /\
    execute_adversarial_attack (set_loss m (bpr_loss sc)) epsilon = Ok m2 /\
    bpr_scores m2 b = Ok sc_adver /\
    m' = apply_gradients m2
           (map2 vadd (fst (gradient m b sc 1 (reg_coeff m sq)))
                      (fst (gradient m2 b sc_adver adv_reg 0)),
            map2 vadd (snd (gradient m b sc 1 (reg_coeff m sq)))
                      (snd (gradient m2 b sc_adver adv_reg 0))).
Proof.
  intros H; unfold _adversarial_train_batch in H.
  apply bind_Ok in H as (sc & Hsc & H).
  apply bind_Ok in H as (sq & Hsq & H).
  apply bind_Ok in H as (m2 & Hatt & H).
  apply bind_Ok in H as (sc' & Hsc' & H).
  injection H as <-. eexists sc, sq, m2, sc'. auto.
Qed.

Lemma same_user_rows_refl (u : nat) (m : model) : same_user_rows u m m.
Proof. split; reflexivity. Qed.

Lemma same_user_rows_trans (u : nat) (m1 m2 m3 : model) :
  same_user_rows u m1 m2 -> same_user_rows u m2 m3 -> same_user_rows u m1 m3.
Proof. intros [A B] [C D]. split; congruence. Qed.

Lemma same_item_rows_refl (i : nat) (m : model) : same_item_rows i m m.
Proof. split; reflexivity. Qed.

Lemma same_item_rows_trans (i : nat) (m1 m2 m3 : model) :
  same_item_rows i m1 m2 -> same_item_rows i m2 m3 -> same_item_rows i m1 m3.
Proof. intros [A B] [C D]. split; congruence. Qed.

Lemma vadd_zero_rows (d : nat) : vadd (repeat 0 d) (repeat 0 d) = repeat 0 d.
Proof.
  induction d as [|d IH]; [reflexivity|].
  unfold vadd, map2 in *; simpl. rewrite IH. f_equal. ring.
Qed.

Lemma row_sum_zero (A B : tensor) (n d u : nat) :
  has_shape A n d -> has_shape B n d -> (u < n)%nat ->
  row u A = repeat 0 d -> row u B = repeat 0 d ->
  row u (map2 vadd A B) = repeat 0 d.
Proof.
  intros HA HB Hu ZA ZB. unfold row in *.
  rewrite (Entrywise.nth_map2 _ _ _ _ [] [])
    by (rewrite ?(proj1 HA), ?(proj1 HB); exact Hu).
  rewrite ZA, ZB. apply vadd_zero_rows.
Qed.

Lemma _train_batch_user (m m' : model) (b : batch) (u : nat) :
  shape_inv m -> _train_batch m b = Ok m' ->
  (u < num_users m)%nat -> ~ In u (users_of b) -> same_user_rows u m m'.
Proof.
  intros Hm H Hu Hn.
  destruct (_train_batch_unfold _ _ _ H) as (sc & sq & Hsc & _ & ->).
  destruct (bpr_scores_shape _ _ _ Hm Hsc) as (A & B & C).
  set (m1 := set_loss m (bpr_loss sc)).
  pose proof (shape_inv_set_loss m (bpr_loss sc) Hm) as Hm1. fold m1 in Hm1.
  destruct (gradient_shape_inv m1 b sc 1 (reg_coeff m1 sq) Hm1 A B C)
    as [GP _].
  apply (apply_gradients_untouched_user m1); auto.
  apply gradient_untouched_user; [|exact Hn].
  change (embedding_P m1) with (embedding_P m).
  rewrite (proj1 (shape_P m Hm)). exact Hu.
Qed.

Lemma _train_batch_item (m m' : model) (b : batch) (i : nat) :
  shape_inv m -> _train_batch m b = Ok m' ->
  (i < num_items m)%nat -> ~ In i (items_of b) -> same_item_rows i m m'.
Proof.
  intros Hm H Hi Hn.
  destruct (_train_batch_unfold _ _ _ H) as (sc & sq & Hsc & _ & ->).
  destruct (bpr_scores_shape _ _ _ Hm Hsc) as (A & B & C).
  set (m1 := set_loss m (bpr_loss sc)).
  pose proof (shape_inv_set_loss m (bpr_loss sc) Hm) as Hm1. fold m1 in Hm1.
  destruct (gradient_shape_inv m1 b sc 1 (reg_coeff m1 sq) Hm1 A B C)
    as [_ GQ].
  apply (apply_gradients_untouched_item m1); auto.
  apply gradient_untouched_item; [|exact Hn].
  change (embedding_Q m1) with (embedding_Q m).
  rewrite (proj1 (shape_Q m Hm)). exact Hi.
Qed.

(** The loop of a step, over batches that satisfy [P]. *)
Lemma foldM_related_on {A St : Type} (I : St -> Prop)
    (Rel : St -> St -> Prop) (P : A -> Prop) (f : St -> A -> result St)
    (xs : list A) :
  (forall s, Rel s s) ->
  (forall s1 s2 s3, Rel s1 s2 -> Rel s2 s3 -> Rel s1 s3) ->
  (forall s x s', I s -> P x -> f s x = Ok s' -> I s' /\ Rel s s') ->
  forall s s', I s -> Forall P xs -> foldM f xs s = Ok s' ->
    I s' /\ Rel s s'.
Proof.
  intros Hr Ht Hf; induction xs as [|x xs IH]; intros s s' Hs HP H;
    simpl in H.
  - injection H as <-. auto.
  - apply Forall_cons_iff in HP as [Hx HP].
    apply bind_Ok in H as (s1 & H1 & H).
    destruct (Hf _ _ _ Hs Hx H1) as [Hs1 R1].
    destruct (IH _ _ Hs1 HP H) as [Hs' R2]. eauto.
Qed.

Lemma not_in_concat (f : sample -> nat) (u : nat) (batches : list batch) :
  ~ In u (map f (concat batches)) ->
  Forall (fun b => ~ In u (map f b)) batches.
Proof.
  intros Hn. apply Forall_forall. intros b Hb Hu. apply Hn.
  apply in_map_iff in Hu as (s & <- & Hs).
  apply in_map, in_concat. eauto.
Qed.

Lemma not_in_items (i : nat) (batches : list batch) :
  ~ In i (items_of (concat batches)) ->
  Forall (fun b => ~ In i (items_of b)) batches.
Proof.
  intros Hn. unfold items_of in *.
  assert (H1 : ~ In i (map item_pos (concat batches)))
    by (intros H; apply Hn, in_or_app; auto).
  assert (H2 : ~ In i (map item_neg (concat batches)))
    by (intros H; apply Hn, in_or_app; auto).
  apply not_in_concat in H1, H2. rewrite Forall_forall in *.
  intros b Hb Hi. apply in_app_or in Hi as [Hi|Hi];
    [exact (H1 b Hb Hi) | exact (H2 b Hb Hi)].
Qed.

Lemma sized__train_batch (nu ni : nat) (m m' : model) (b : batch) :
  sized nu ni m -> _train_batch m b = Ok m' -> sized nu ni m'.
Proof.
  intros (Hm & <- & <-) H.
  destruct (same_config__train_batch _ _ _ H) as (_ & N1 & N2 & _).
  split; [eapply shape_inv__train_batch; eauto|]. auto.
Qed.

Lemma _train_step_user (m m' : model) (batches : list batch) (u : nat) :
  shape_inv m -> _train_step m batches = Ok m' ->
  (u < num_users m)%nat -> ~ In u (users_of (concat batches)) ->
  same_user_rows u m m'.
Proof.
  intros Hm H Hu Hn. apply not_in_concat in Hn.
  refine (proj2 (foldM_related_on (sized (num_users m) (num_items m))
                   (same_user_rows u) (fun b => ~ In u (users_of b))
                   _train_batch batches (same_user_rows_refl u)
                   (same_user_rows_trans u) _ m m'
                   (conj Hm (conj eq_refl eq_refl)) Hn H)).
  intros s x s' Hs Hx Hsx.
  split; [eapply sized__train_batch; eauto|].
  destruct Hs as (Hs & N1 & _).
  eapply _train_batch_user; eauto. rewrite N1. exact Hu.
Qed.

Lemma _train_step_item (m m' : model) (batches : list batch) (i : nat) :
  shape_inv m -> _train_step m batches = Ok m' ->
  (i < num_items m)%nat -> ~ In i (items_of (concat batches)) ->
  same_item_rows i m m'.
Proof.
  intros Hm H Hi Hn. apply not_in_items in Hn.
  refine (proj2 (foldM_related_on (sized (num_users m) (num_items m))
                   (same_item_rows i) (fun b => ~ In i (items_of b))
                   _train_batch batches (same_item_rows_refl i)
                   (same_item_rows_trans i) _ m m'
                   (conj Hm (conj eq_refl eq_refl)) Hn H)).
  intros s x s' Hs Hx Hsx.
  split; [eapply sized__train_batch; eauto|].
  destruct Hs as (Hs & _ & N2).
  eapply _train_batch_item; eauto. rewrite N2. exact Hi.
Qed.

Lemma _adversarial_train_batch_rows (epsilon : R) (m m' : model)
    (b : batch) :
  shape_inv m -> _adversarial_train_batch epsilon m b = Ok m' ->
  (forall u, (u < num_users m)%nat -> ~ In u (users_of b) ->
             same_user_rows u m m') /\
  (forall i, (i < num_items m)%nat -> ~ In i (items_of b) ->
             same_item_rows i m m').
Proof.
  intros Hm H.
  destruct (_adversarial_train_batch_unfold _ _ _ _ H)
    as (sc & sq & m2 & sc' & Hsc & _ & Hatt & Hsc' & ->).
  pose proof (shape_inv_set_loss m (bpr_loss sc) Hm) as Hm1.
  pose proof (shape_inv_execute_adversarial_attack _ _ _ Hm1 Hatt) as Hm2.
  destruct (bpr_scores_shape _ _ _ Hm Hsc) as (A & B & C).
  destruct (bpr_scores_shape _ _ _ Hm2 Hsc') as (A' & B' & C').
  destruct (gradient_shape_inv m b sc 1 (reg_coeff m sq) Hm A B C)
    as [GP GQ].
  destruct (gradient_shape_inv m2 b sc' adv_reg 0 Hm2 A' B' C')
    as [GP' GQ'].
  destruct (same_config_execute_adversarial_attack _ _ _ Hatt)
    as (_ & N1 & N2 & N3 & _).
  destruct (Slots.attack_keeps_slots _ _ _ Hatt) as (AP & AQ & EP & EQ & _).
  simpl in N1, N2, N3, AP, AQ, EP, EQ.
  rewrite N1, N3 in GP'. rewrite N2, N3 in GQ'.
  match goal with |- context [apply_gradients m2 ?g] => set (gt := g) end.
  split.
  - intros u Hu Hn.
    assert (SG : has_shape (fst gt) (num_users m2) (embedding_size m2))
      by (rewrite N1, N3;
          exact (has_shape_tensor_map2 Rplus _ _ _ _ GP GP')).
    assert (Z : row u (fst gt) = repeat 0 (embedding_size m2)).
    { unfold gt; cbn [fst]. rewrite N3.
      apply (row_sum_zero _ _ (num_users m)); auto.
      - apply gradient_untouched_user; [|exact Hn].
        rewrite (proj1 (shape_P m Hm)). exact Hu.
      - rewrite <- N3. apply gradient_untouched_user; [|exact Hn].
        rewrite EP, (proj1 (shape_P m Hm)). exact Hu. }
    rewrite <- N1 in Hu.
    pose proof (apply_gradients_untouched_user m2 gt u Hm2 SG Hu Z) as K.
    unfold same_user_rows in *. rewrite EP, AP in K. exact K.
  - intros i Hi Hn.
    assert (SG : has_shape (snd gt) (num_items m2) (embedding_size m2))
      by (rewrite N2, N3;
          exact (has_shape_tensor_map2 Rplus _ _ _ _ GQ GQ')).
    assert (Z : row i (snd gt) = repeat 0 (embedding_size m2)).
    { unfold gt; cbn [snd]. rewrite N3.
      apply (row_sum_zero _ _ (num_items m)); auto.
      - apply gradient_untouched_item; [|exact Hn].
        rewrite (proj1 (shape_Q m Hm)). exact Hi.
      - rewrite <- N3. apply gradient_untouched_item; [|exact Hn].
        rewrite EQ, (proj1 (shape_Q m Hm)). exact Hi. }
    rewrite <- N2 in Hi.
    pose proof (apply_gradients_untouched_item m2 gt i Hm2 SG Hi Z) as K.
    unfold same_item_rows in *. rewrite EQ, AQ in K. exact K.
Qed.

Lemma sized__adversarial_train_batch (epsilon : R) (nu ni : nat)
    (m m' : model) (b : batch) :
  sized nu ni m -> _adversarial_train_batch epsilon m b = Ok m' ->
  sized nu ni m'.
Proof.
  intros (Hm & <- & <-) H.
  destruct (same_config__adversarial_train_batch _ _ _ _ H)
    as (_ & N1 & N2 & _).
  split; [eapply shape_inv__adversarial_train_batch; eauto|]. auto.
Qed.

Lemma _adversarial_train_step_user (epsilon : R) (m m' : model)
    (batches : list batch) (u : nat) :
  shape_inv m -> _adversarial_train_step epsilon m batches = Ok m' ->
  (u < num_users m)%nat -> ~ In u (users_of (concat batches)) ->
  same_user_rows u m m'.
Proof.
  intros Hm H Hu Hn. apply not_in_concat in Hn.
  unfold _adversarial_train_step in H.
  apply bind_Ok in H as (m1 & H1 & H). injection H as <-.
  change (same_user_rows u m m1).
  refine (proj2 (foldM_related_on (sized (num_users m) (num_items m))
                   (same_user_rows u) (fun b => ~ In u (users_of b))
                   (_adversarial_train_batch epsilon) batches
                   (same_user_rows_refl u) (same_user_rows_trans u) _ m m1
                   (conj Hm (conj eq_refl eq_refl)) Hn H1)).
  intros s x s' Hs Hx Hsx.
  split; [eapply sized__adversarial_train_batch; eauto|].
  destruct Hs as (Hs & N1 & _).
  apply (proj1 (_adversarial_train_batch_rows _ _ _ _ Hs Hsx));
    [rewrite N1; exact Hu | exact Hx].
Qed.

Lemma _adversarial_train_step_item (epsilon : R) (m m' : model)
    (batches : list batch) (i : nat) :
  shape_inv m -> _adversarial_train_step epsilon m batches = Ok m' ->
  (i < num_items m)%nat -> ~ In i (items_of (concat batches)) ->
  same_item_rows i m m'.
Proof.
  intros Hm H Hi Hn. apply not_in_items in Hn.
  unfold _adversarial_train_step in H.
  apply bind_Ok in H as (m1 & H1 & H). injection H as <-.
  change (same_item_rows i m m1).
  refine (proj2 (foldM_related_on (sized (num_users m) (num_items m))
                   (same_item_rows i) (fun b => ~ In i (items_of b))
                   (_adversarial_train_batch epsilon) batches
                   (same_item_rows_refl i) (same_item_rows_trans i) _ m m1
                   (conj Hm (conj eq_refl eq_refl)) Hn H1)).
  intros s x s' Hs Hx Hsx.
  split; [eapply sized__adversarial_train_batch; eauto|].
  destruct Hs as (Hs & _ & N2).
  apply (proj2 (_adversarial_train_batch_rows _ _ _ _ Hs Hsx));
    [rewrite N2; exact Hi | exact Hx].
Qed.

End Untouched.

(** X3.  A pass over the batches changes only what the batches name: the
    embedding row and the optimizer slot of a user who occurs in no triple
    of the batches, and of an item that occurs in none as the positive or
    the negative item, are after [_train_step] and after
    [_adversarial_train_step] what they were before. *)
Theorem training_touches_only_batch_rows (m : model) (batches : list batch) :
  shape_inv m ->
  (forall m' u,
      _train_step m batches = Ok m' ->
      (u < num_users m)%nat -> ~ In u (users_of (concat batches)) ->
      same_user_rows u m m') /\
  (forall m' i,
      _train_step m batches = Ok m' ->
      (i < num_items m)%nat -> ~ In i (items_of (concat batches)) ->
      same_item_rows i m m') /\
  (forall epsilon m' u,
      _adversarial_train_step epsilon m batches = Ok m' ->
      (u < num_users m)%nat -> ~ In u (users_of (concat batches)) ->
      same_user_rows u m m') /\
  (forall epsilon m' i,
      _adversarial_train_step epsilon m batches = Ok m' ->
      (i < num_items m)%nat -> ~ In i (items_of (concat batches)) ->
      same_item_rows i m m').
Proof.
  intros Hm.
  split; [intros m' u H; apply Untouched._train_step_user; assumption|].
  split; [intros m' i H; apply Untouched._train_step_item; assumption|].
  split; [intros epsilon m' u H;
          eapply Untouched._adversarial_train_step_user; eassumption|].
  intros epsilon m' i H;
    eapply Untouched._adversarial_train_step_item; eassumption.
Qed.

Lemma training_touches_only_batch_rows_witness :
  exists m',
    _train_step Tiny.start [[(0, 0, 1)]]%nat = Ok m' /\
    row 1 (embedding_P m') = [1; 2] /\
    row 1 (accum_P m') = [/ 10; / 10].
Proof.
  destruct (_train_step_total Tiny.start [[(0, 0, 1)]]%nat TinyFacts.start_ok)
    as (m' & E & _).
  { repeat constructor. }
  exists m'. split; [exact E|].
  destruct (training_touches_only_batch_rows Tiny.start [[(0, 0, 1)]]%nat
              (proj1 TinyFacts.start_ok)) as (H & _).
  apply (H m' 1%nat E).
  - simpl. lia.
  - simpl. intros [K|[]]. discriminate K.
Defined.

(** ** The perturbation the attack builds *)

Module Attack.

Import Locality.

Lemma attack_unfold (m : model) (epsilon : R) :
  execute_adversarial_attack m epsilon =
  (g <- attack_gradient (attack_model m) (attack_batches m) ;;
   Ok (set_perturbations (attack_model m)
         (scale (l2_normalize (fst g)) epsilon)
         (scale (l2_normalize (snd g)) epsilon))).
Proof. reflexivity. Qed.

Lemma attack_gradient_unfold (m : model) (b0 : batch) (rest : list batch)
    (g : tensor * tensor) :
  attack_gradient m (b0 :: rest) = Ok g ->
  exists sc sq,
    bpr_scores m b0 = Ok sc /\ reg_squares sc = Ok sq /\
    g = gradient m b0 sc 1 (reg_coeff m sq).
Proof.
  intros H; unfold attack_gradient in H; simpl in H.
  apply bind_Ok in H as (sc & Hsc & H).
  apply bind_Ok in H as (sq & Hsq & H).
  injection H as <-. eauto.
Qed.

Lemma shape_inv_attack_model (m : model) :
  shape_inv m -> shape_inv (attack_model m).
Proof.
  intros Hm.
  apply shape_inv_initialize_perturbations, shape_inv_next_shuffle, Hm.
Qed.

(** The gradient reads the parameters of the model and nothing else. *)
Lemma get_inference_ext (m m' : model) (users items : list (list nat)) :
  same_parameters m m' ->
  get_inference m' users items = get_inference m users items.
Proof.
  intros (EP & EQ & DP & DQ & Eh & Ed & _).
  unfold get_inference. rewrite EP, EQ, DP, DQ, Eh, Ed. reflexivity.
Qed.

Lemma bpr_scores_ext (m m' : model) (b : batch) :
  same_parameters m m' -> bpr_scores m' b = bpr_scores m b.
Proof.
  intros H. unfold bpr_scores. rewrite !(get_inference_ext m m' _ _ H).
  reflexivity.
Qed.

Lemma gradient_ext (m m' : model) (b : batch) (sc : scores) (w c : R) :
  same_parameters m m' -> gradient m' b sc w c = gradient m b sc w c.
Proof.
  intros (EP & EQ & _ & _ & _ & Ed & _).
  unfold gradient. rewrite EP, EQ, Ed. reflexivity.
Qed.

Lemma attack_gradient_ext (m m' : model) (batches : list batch) :
  same_parameters m m' ->
  attack_gradient m' batches = attack_gradient m batches.
Proof.
  intros H. unfold attack_gradient.
  destruct batches as [|b0 rest]; [reflexivity|]. cbn [bind].
  rewrite (bpr_scores_ext m m' b0 H).
  destruct (bpr_scores m b0) as [sc|e]; [|reflexivity]. cbn [bind].
  destruct (reg_squares sc) as [sq|e]; [|reflexivity]. cbn [bind].
  rewrite (gradient_ext m m' b0 sc _ _ H).
  unfold reg_coeff. destruct H as (_ & _ & _ & _ & _ & _ & ->). reflexivity.
Qed.

(** Rows of a normalised and scaled tensor. *)
Lemma l2_normalize_row_zero (d : nat) :
  l2_normalize_row (repeat 0 d) = repeat 0 d.
Proof.
  unfold l2_normalize_row. rewrite map_repeat. f_equal. ring.
Qed.

Lemma row_scale_l2_normalize (t : tensor) (epsilon : R) (u : nat) :
  (u < length t)%nat ->
  row u (scale (l2_normalize t) epsilon) =
  map (fun x => x * epsilon) (l2_normalize_row (row u t)).
Proof.
  intros Hu. unfold row, scale, tmap, l2_normalize.
  rewrite map_map.
  rewrite (Inference.nth_map _ _ _ []) by exact Hu. reflexivity.
Qed.

Lemma row_scale_zero (t : tensor) (epsilon : R) (u d : nat) :
  (u < length t)%nat -> row u t = repeat 0 d ->
  row u (scale (l2_normalize t) epsilon) = repeat 0 d.
Proof.
  intros Hu Hz. rewrite row_scale_l2_normalize by exact Hu.
  rewrite Hz, l2_normalize_row_zero, map_repeat. f_equal. ring.
Qed.

Lemma scale_zero (t : tensor) (n d : nat) :
  has_shape t n d -> scale t 0 = zeros n d.
Proof.
  intros [L F]. subst n. unfold scale, tmap, zeros, fill.
  induction t as [|r t IH]; [reflexivity|].
  apply Forall_cons_iff in F as [Hr F]. simpl. rewrite (IH F). f_equal.
  subst d. clear. induction r as [|x r IH]; [reflexivity|].
  simpl. rewrite IH. f_equal. ring.
Qed.

End Attack.

(** X4.  The attack perturbs only the rows its batch reaches.  A user who
    occurs in no triple of the first batch of the attack's shuffle, and an
    item that occurs in none as the positive or the negative item, gets a
    zero row in [delta_P], respectively [delta_Q]: the gradient row is zero
    and normalising a zero row gives zero, not a division by zero.  The rows
    the inferences read for them are their unperturbed embeddings. *)
Theorem attack_perturbs_only_batch_rows (m m' : model) (epsilon : R)
    (b0 : batch) (rest : list batch) :
  shape_inv m -> attack_batches m = b0 :: rest ->
  execute_adversarial_attack m epsilon = Ok m' ->
  (forall u, (u < num_users m)%nat -> ~ In u (users_of b0) ->
     row u (delta_P m') = repeat 0 (embedding_size m) /\
     row u (perturbed_P m') = row u (embedding_P m)) /\
  (forall i, (i < num_items m)%nat -> ~ In i (items_of b0) ->
     row i (delta_Q m') = repeat 0 (embedding_size m) /\
     row i (perturbed_Q m') = row i (embedding_Q m)).
Proof.
  intros Hm Hb H. rewrite Attack.attack_unfold, Hb in H.
  apply bind_Ok in H as (g & Hg & H). injection H as <-.
  pose proof (Attack.shape_inv_attack_model m Hm) as Ha.
  destruct (shape_inv_attack_gradient _ _ _ Ha Hg) as [GP GQ].
  destruct (Attack.attack_gradient_unfold _ _ _ _ Hg) as (sc & sq & _ & _ & ->).
  change (num_users (attack_model m)) with (num_users m) in *.
  change (num_items (attack_model m)) with (num_items m) in *.
  change (embedding_size (attack_model m)) with (embedding_size m) in *.
  split.
  - intros u Hu Hn.
    assert (Z : row u (scale (l2_normalize
                               (fst (gradient (attack_model m) b0 sc 1
                                       (reg_coeff (attack_model m) sq))))
                         epsilon) = repeat 0 (embedding_size m)).
    { apply Attack.row_scale_zero; [rewrite (proj1 GP); exact Hu|].
      apply (Locality.gradient_untouched_user (attack_model m));
        [|exact Hn].
      change (embedding_P (attack_model m)) with (embedding_P m).
      rewrite (proj1 (shape_P m Hm)). exact Hu. }
    split; [exact Z|].
    unfold perturbed_P, row; cbn [embedding_P delta_P set_perturbations].
    change (embedding_P (attack_model m)) with (embedding_P m).
    rewrite (Entrywise.nth_map2 _ _ _ _ [] []).
    + fold (row u (embedding_P m)). unfold row in Z. rewrite Z.
      rewrite <- (Locality.row_length _ _ _ u (shape_P m Hm) Hu).
      apply Frames.vadd_zeros.
    + rewrite (proj1 (shape_P m Hm)). exact Hu.
    + destruct (has_shape_scale _ epsilon _ _
                  (has_shape_l2_normalize _ _ _ GP)) as [L _].
      rewrite L. exact Hu.
  - intros i Hi Hn.
    assert (Z : row i (scale (l2_normalize
                               (snd (gradient (attack_model m) b0 sc 1
                                       (reg_coeff (attack_model m) sq))))
                         epsilon) = repeat 0 (embedding_size m)).
    { apply Attack.row_scale_zero; [rewrite (proj1 GQ); exact Hi|].
      apply (Locality.gradient_untouched_item (attack_model m));
        [|exact Hn].
      change (embedding_Q (attack_model m)) with (embedding_Q m).
      rewrite (proj1 (shape_Q m Hm)). exact Hi. }
    split; [exact Z|].
    unfold perturbed_Q, row; cbn [embedding_Q delta_Q set_perturbations].
    change (embedding_Q (attack_model m)) with (embedding_Q m).
    rewrite (Entrywise.nth_map2 _ _ _ _ [] []).
    + fold (row i (embedding_Q m)). unfold row in Z. rewrite Z.
      rewrite <- (Locality.row_length _ _ _ i (shape_Q m Hm) Hi).
      apply Frames.vadd_zeros.
    + rewrite (proj1 (shape_Q m Hm)). exact Hi.
    + destruct (has_shape_scale _ epsilon _ _
                  (has_shape_l2_normalize _ _ _ GQ)) as [L _].
      rewrite L. exact Hi.
Qed.

Lemma attack_perturbs_only_batch_rows_witness :
  exists m',
    execute_adversarial_attack Tiny.start (1 / 2) = Ok m' /\
    row 1 (delta_P m') = [0; 0] /\
    row 1 (perturbed_P m') = [1; 2].
Proof.
  destruct (execute_adversarial_attack_total Tiny.start (1 / 2)
              TinyFacts.start_ok TinyFacts.start_valid_data
              TinyFacts.start_nonempty_data) as (m' & E & _).
  exists m'. split; [exact E|].
  destruct (attack_perturbs_only_batch_rows Tiny.start m' (1 / 2)
              [(0, 0, 1)]%nat [] (proj1 TinyFacts.start_ok) eq_refl E)
    as (H & _).
  apply (H 1%nat).
  - simpl. lia.
  - simpl. intros [K|[]]. discriminate K.
Defined.

(** X6.  With epsilon = 0 the attack stores zero perturbations: it does
    what [initialize_perturbations] does, after one shuffle. *)
Theorem attack_with_zero_epsilon (m m' : model) :
  shape_inv m -> execute_adversarial_attack m 0 = Ok m' ->
  zero_perturbations m' /\ m' = attack_model m.
Proof.
  intros Hm H. rewrite Attack.attack_unfold in H.
  apply bind_Ok in H as (g & Hg & H). injection H as <-.
  pose proof (Attack.shape_inv_attack_model m Hm) as Ha.
  destruct (shape_inv_attack_gradient _ _ _ Ha Hg) as [GP GQ].
  apply has_shape_l2_normalize in GP, GQ.
  rewrite (Attack.scale_zero _ _ _ GP), (Attack.scale_zero _ _ _ GQ).
  split; [split; reflexivity|reflexivity].
Qed.

Lemma attack_with_zero_epsilon_witness :
  exists m',
    execute_adversarial_attack Tiny.start 0 = Ok m' /\
    zero_perturbations m' /\ m' = attack_model Tiny.start.
Proof.
  destruct (execute_adversarial_attack_total Tiny.start 0
              TinyFacts.start_ok TinyFacts.start_valid_data
              TinyFacts.start_nonempty_data) as (m' & E & _).
  exists m'. split; [exact E|].
  exact (attack_with_zero_epsilon _ _ (proj1 TinyFacts.start_ok) E).
Defined.

(** X7.  The attack starts from zero perturbations whatever the model
    holds: the perturbations in place do not enter its result.  So attacks
    do not add up: a second attack, on a shuffle that returns the batches of
    the first, stores the normalised gradient of the first attack again,
    scaled by its own epsilon. *)
Theorem attacks_do_not_accumulate (m : model) (epsilon : R) :
  (forall dP dQ,
      execute_adversarial_attack (set_perturbations m dP dQ) epsilon =
      execute_adversarial_attack m epsilon) /\
  (forall m1 epsilon' m2,
      execute_adversarial_attack m epsilon = Ok m1 ->
      attack_batches m1 = attack_batches m ->
      execute_adversarial_attack m1 epsilon' = Ok m2 ->
      exists g,
        attack_gradient (attack_model m) (attack_batches m) = Ok g /\
        delta_P m1 = scale (l2_normalize (fst g)) epsilon /\
        delta_Q m1 = scale (l2_normalize (snd g)) epsilon /\
        delta_P m2 = scale (l2_normalize (fst g)) epsilon' /\
        delta_Q m2 = scale (l2_normalize (snd g)) epsilon').
Proof.
  split; [reflexivity|].
  intros m1 epsilon' m2 H1 Hb H2.
  rewrite Attack.attack_unfold in H1, H2.
  apply bind_Ok in H1 as (g & Hg & H1). injection H1 as <-.
  apply bind_Ok in H2 as (g' & Hg' & H2). injection H2 as <-.
  rewrite Hb in Hg'.
  rewrite (Attack.attack_gradient_ext (attack_model m)) in Hg'
    by (repeat split).
  rewrite Hg in Hg'. injection Hg' as <-.
  exists g. repeat split. exact Hg.
Qed.

Lemma attacks_do_not_accumulate_witness :
  exists m1 m2,
    execute_adversarial_attack Tiny.start (1 / 2) = Ok m1 /\
    execute_adversarial_attack m1 (1 / 2) = Ok m2 /\
    delta_P m2 = delta_P m1 /\ delta_Q m2 = delta_Q m1.
Proof.
  destruct (execute_adversarial_attack_total Tiny.start (1 / 2)
              TinyFacts.start_ok TinyFacts.start_valid_data
              TinyFacts.start_nonempty_data) as (m1 & E1 & Hok & Hc).
  assert (Hd : data m1 = data Tiny.start) by apply Hc.
  assert (Hv : valid_data m1)
    by (apply (valid_data_same_config Tiny.start);
        [exact Hc | exact TinyFacts.start_valid_data]).
  assert (Hn : nonempty_data m1)
    by (apply (nonempty_data_same_config Tiny.start);
        [exact Hc | exact TinyFacts.start_nonempty_data]).
  destruct (execute_adversarial_attack_total m1 (1 / 2) Hok Hv Hn)
    as (m2 & E2 & _).
  exists m1, m2. split; [exact E1|]. split; [exact E2|].
  assert (Hb : attack_batches m1 = attack_batches Tiny.start)
    by (unfold attack_batches; simpl; rewrite Hd; reflexivity).
  destruct (proj2 (attacks_do_not_accumulate Tiny.start (1 / 2))
              m1 (1 / 2) m2 E1 Hb E2) as (g & _ & A & B & C & D).
  split; congruence.
Defined.

(** ** Calls of [data.shuffle] *)

Module Shuffles.

Lemma foldM_count {A St : Type} (mu : St -> nat) (k : nat)
    (f : St -> A -> result St) (xs : list A) :
  (forall s x s', f s x = Ok s' -> mu s' = (mu s + k)%nat) ->
  forall s s', foldM f xs s = Ok s' -> mu s' = (mu s + k * length xs)%nat.
Proof.
  intros Hf; induction xs as [|x xs IH]; intros s s' H; simpl in H.
  - injection H as <-. simpl. lia.
  - apply bind_Ok in H as (s1 & H1 & H).
    rewrite (IH _ _ H), (Hf _ _ _ H1). simpl. lia.
Qed.

Lemma draws__train_batch (m m' : model) (b : batch) :
  _train_batch m b = Ok m' -> draws m' = (draws m + 0)%nat.
Proof.
  intros H.
  destruct (Untouched._train_batch_unfold _ _ _ H) as (sc & sq & _ & _ & ->).
  simpl. lia.
Qed.

Lemma draws__train_step (m m' : model) (batches : list batch) :
  _train_step m batches = Ok m' -> draws m' = draws m.
Proof.
  intros H.
  rewrite (foldM_count draws 0 _train_batch batches
             (fun s x s' => draws__train_batch s s' x) _ _ H).
  lia.
Qed.

Lemma draws_epoch (m m' : model) :
  epoch m = Ok m' -> draws m' = (draws m + 1)%nat.
Proof.
  unfold epoch; simpl. intros H.
  rewrite (draws__train_step _ _ _ H). simpl. lia.
Qed.

Lemma draws__adversarial_train_batch (epsilon : R) (m m' : model)
    (b : batch) :
  _adversarial_train_batch epsilon m b = Ok m' ->
  draws m' = (draws m + 1)%nat.
Proof.
  intros H.
  destruct (Untouched._adversarial_train_batch_unfold _ _ _ _ H)
    as (sc & sq & m2 & sc' & _ & _ & Hatt & _ & ->).
  destruct (Slots.attack_keeps_slots _ _ _ Hatt) as (_ & _ & _ & _ & _ & D).
  simpl in *. lia.
Qed.

Lemma draws__adversarial_train_step (epsilon : R) (m m' : model)
    (batches : list batch) :
  _adversarial_train_step epsilon m batches = Ok m' ->
  draws m' = (draws m + length batches)%nat.
Proof.
  intros H. unfold _adversarial_train_step in H.
  apply bind_Ok in H as (m1 & H1 & H). injection H as <-.
  change (draws (initialize_perturbations m1)) with (draws m1).
  rewrite (foldM_count draws 1 _ batches
             (fun s x s' => draws__adversarial_train_batch epsilon s s' x)
             _ _ H1).
  lia.
Qed.

End Shuffles.

(** X8.  How often the methods call [data.shuffle].  [_train_step] never
    does; [train] calls it once per epoch; the attack calls it once.
    [_adversarial_train_step] calls it once for every batch it is given,
    because every batch runs the attack, which shuffles the whole data set
    again; so one adversarial epoch costs one call plus one per batch. *)
Theorem shuffles_drawn (m : model) :
  (forall batches m', _train_step m batches = Ok m' -> draws m' = draws m) /\
  (forall m', train m = Ok m' -> draws m' = (draws m + epochs m)%nat) /\
  (forall epsilon m',
      execute_adversarial_attack m epsilon = Ok m' ->
      draws m' = S (draws m)) /\
  (forall epsilon batches m',
      _adversarial_train_step epsilon m batches = Ok m' ->
      draws m' = (draws m + length batches)%nat) /\
  (forall epsilon m',
      adversarial_train m 1 epsilon = Ok m' ->
      draws m' =
      (draws m + 1 + length (shuffle (data m) (draws m) (batch_size m)))%nat).
Proof.
  split; [intros batches m'; apply Shuffles.draws__train_step|].
  split.
  { intros m' H. rewrite TinyFacts.train_run_epochs in H.
    unfold run_epochs in H.
    rewrite (Shuffles.foldM_count draws 1 _ _
               (fun s _ s' => Shuffles.draws_epoch s s') _ _ H).
    rewrite length_seq. lia. }
  split.
  { intros epsilon m' H.
    destruct (Slots.attack_keeps_slots _ _ _ H) as (_ & _ & _ & _ & _ & D).
    exact D. }
  split; [intros epsilon batches m';
          apply Shuffles.draws__adversarial_train_step|].
  intros epsilon m' H. unfold adversarial_train in H; simpl in H.
  apply bind_Ok in H as (m1 & H1 & H). injection H as <-.
  rewrite (Shuffles.draws__adversarial_train_step _ _ _ _ H1). simpl. lia.
Qed.

Lemma shuffles_drawn_witness :
  exists m',
    adversarial_train Tiny.start 1 (1 / 2) = Ok m' /\ draws m' = 2%nat.
Proof.
  destruct (adversarial_train_total Tiny.start 1 (1 / 2)
              TinyFacts.start_ok TinyFacts.start_valid_data
              TinyFacts.start_nonempty_data) as (m' & E & _).
  exists m'. split; [exact E|].
  destruct (shuffles_drawn Tiny.start) as (_ & _ & _ & _ & H).
  exact (H _ _ E).
Defined.

(** ** Epochs in sequence *)

Module Epochs.

(** A loop whose body ignores the loop variable depends on the number of
    iterations only. *)
Lemma foldM_ignores {A B St : Type} (body : St -> result St) (xs : list A)
    (ys : list B) :
  length xs = length ys ->
  forall s,
    foldM (fun s' _ => body s') xs s = foldM (fun s' _ => body s') ys s.
Proof.
  revert ys; induction xs as [|x xs IH]; intros [|y ys] Hl s;
    try discriminate; [reflexivity|].
  simpl. destruct (body s) as [s1|e]; [|reflexivity].
  simpl. apply IH. simpl in Hl. lia.
Qed.

Lemma range_loop_add {St : Type} (body : St -> result St) (a b : nat)
    (s : St) :
  foldM (fun s' (_ : nat) => body s') (seq 0 (a + b)) s =
  (s1 <- foldM (fun s' (_ : nat) => body s') (seq 0 a) s ;;
   foldM (fun s' (_ : nat) => body s') (seq 0 b) s1).
Proof.
  rewrite seq_app, foldM_app.
  destruct (foldM (fun s' (_ : nat) => body s') (seq 0 a) s) as [s1|e];
    [|reflexivity].
  simpl. apply foldM_ignores. rewrite !length_seq. reflexivity.
Qed.

Lemma adversarial_train_run (m : model) (n : nat) (epsilon : R) :
  adversarial_train m n epsilon = run_adversarial_epochs epsilon n m.
Proof. reflexivity. Qed.

End Epochs.

(** X9.  Epochs compose.  [adversarial_train] for a + b epochs is
    [adversarial_train] for a epochs followed by [adversarial_train] for b
    epochs on the result, and calling [train] twice is one run of twice the
    epochs: the loops carry no state of their own from one epoch to the
    next, everything is in the model (embeddings, slots of the optimizer,
    state of the shuffle).  An exception of the first call is the exception
    of the sequence. *)
Theorem epochs_compose (m : model) :
  (forall a b epsilon,
      adversarial_train m (a + b) epsilon =
      (m1 <- adversarial_train m a epsilon ;;
       adversarial_train m1 b epsilon)) /\
  (m1 <- train m ;; train m1) = run_epochs (epochs m + epochs m) m.
Proof.
  split.
  - intros a b epsilon. rewrite !Epochs.adversarial_train_run.
    unfold run_adversarial_epochs. apply Epochs.range_loop_add.
  - unfold run_epochs. rewrite Epochs.range_loop_add.
    rewrite TinyFacts.train_run_epochs. unfold run_epochs.
    destruct (foldM (fun m' (_ : nat) => epoch m') (seq 0 (epochs m)) m)
      as [m1|e] eqn:E; [|reflexivity].
    simpl. rewrite TinyFacts.train_run_epochs. unfold run_epochs.
    fold (run_epochs (epochs m) m) in E.
    rewrite <- TinyFacts.train_run_epochs in E.
    destruct (same_config_train _ _ E) as (_ & _ & _ & _ & _ & _ & _ & -> & _).
    reflexivity.
Qed.

(** X10.  What one batch of [_adversarial_train_step] leaves behind.  The
    recorded loss is the plain BPR loss of the batch, measured before the
    attack of this batch on the perturbations the model had then.  The
    perturbations are those of the attack, and they stay in place when the
    optimizer has moved the embeddings: the next batch starts from them,
    and only the end of the step resets them. *)
Theorem adversarial_batch_leaves_perturbations (epsilon : R) (m m' : model)
    (b : batch) :
  _adversarial_train_batch epsilon m b = Ok m' ->
  exists sc m2,
    bpr_scores m b = Ok sc /\
    execute_adversarial_attack (set_loss m (bpr_loss sc)) epsilon = Ok m2 /\
    delta_P m' = delta_P m2 /\ delta_Q m' = delta_Q m2 /\
    loss m' = bpr_loss sc.
Proof.
  intros H.
  destruct (Untouched._adversarial_train_batch_unfold _ _ _ _ H)
    as (sc & sq & m2 & sc' & Hsc & _ & Hatt & _ & ->).
  exists sc, m2. split; [exact Hsc|]. split; [exact Hatt|].
  destruct (Slots.attack_keeps_slots _ _ _ Hatt) as (_ & _ & _ & _ & L & _).
  split; [reflexivity|]. split; [reflexivity|]. exact L.
Qed.

Lemma adversarial_batch_leaves_perturbations_witness :
  exists m' sc m2,
    _adversarial_train_batch (1 / 2) Tiny.start [(0, 0, 1)]%nat = Ok m' /\
    bpr_scores Tiny.start [(0, 0, 1)]%nat = Ok sc /\
    execute_adversarial_attack (set_loss Tiny.start (bpr_loss sc)) (1 / 2)
    = Ok m2 /\
    delta_P m' = delta_P m2 /\ loss m' = bpr_loss sc.
Proof.
  destruct (_adversarial_train_batch_total (1 / 2) Tiny.start
              [(0, 0, 1)]%nat TinyFacts.start_ok TinyFacts.start_valid_data
              TinyFacts.start_nonempty_data TinyFacts.start_valid_batch)
    as (m' & E & _).
  destruct (adversarial_batch_leaves_perturbations _ _ _ _ E)
    as (sc & m2 & A & B & C & _ & D).
  exists m', sc, m2. auto.
Defined.

(** X11.  The loss a batch records lies between n * softplus(-1e8) and
    n * softplus(80) for a batch of n triples: the clipping of the score
    difference to [-80, 1e8] caps the loss of a sample at softplus(80),
    however badly the pair is ranked. *)
Theorem batch_loss_is_bounded (m m' : model) (b : batch) :
  model_ok m -> valid_batch m b -> _train_batch m b = Ok m' ->
  INR (length b) * softplus (- clip_hi) <= loss m'
  <= INR (length b) * softplus (- clip_lo).
Proof.
  intros Hm Hb H.
  destruct (Untouched._train_batch_unfold _ _ _ H) as (sc & sq & Hsc & _ & ->).
  change (loss (apply_gradients _ _)) with (bpr_loss sc).
  exact (Loss.batch_loss_range m b sc Hm Hb Hsc).
Qed.

Lemma batch_loss_is_bounded_witness :
  exists m',
    _train_batch Tiny.start [(0, 0, 1)]%nat = Ok m' /\
    INR 1 * softplus (- clip_hi) <= loss m' <= INR 1 * softplus (- clip_lo).
Proof.
  destruct (_train_batch_total Tiny.start [(0, 0, 1)]%nat TinyFacts.start_ok
              TinyFacts.start_valid_batch) as (m' & E & _).
  exists m'. split; [exact E|].
  exact (batch_loss_is_bounded Tiny.start m' [(0, 0, 1)]%nat
           TinyFacts.start_ok TinyFacts.start_valid_batch E).
Defined.

(** ** Ids and shapes at the inference *)

Module Ids.

Lemma lookup_row_cases (t : tensor) (id : nat) :
  ((id < length t)%nat /\ lookup_row t id = Ok (nth id t [])) \/
  ((length t <= id)%nat /\
   lookup_row t id = Raise (InvalidArgument_index id (length t))).
Proof.
  destruct (Nat.lt_ge_cases id (length t)) as [H|H].
  - left. split; [exact H | apply lookup_row_total, H].
  - right. split; [exact H|]. unfold lookup_row.
    rewrite (proj2 (nth_error_None t id) H). reflexivity.
Qed.

Lemma lookup_rows_cases (t : tensor) (ids : list nat) :
  (Forall (fun id => (id < length t)%nat) ids /\
   mapM (lookup_row t) ids = Ok (map (fun id => nth id t []) ids)) \/
  (exists u, In u ids /\ (length t <= u)%nat /\
     mapM (lookup_row t) ids = Raise (InvalidArgument_index u (length t))).
Proof.
  induction ids as [|id ids IH]; [left; split; [constructor|reflexivity]|].
  destruct (lookup_row_cases t id) as [[Hid E]|[Hid E]].
  - destruct IH as [[Hids E']|(u & Hu & Hl & E')].
    + left. split; [constructor; assumption|].
      simpl. rewrite E; simpl. rewrite E'. reflexivity.
    + right. exists u. split; [right; exact Hu|]. split; [exact Hl|].
      simpl. rewrite E; simpl. rewrite E'. reflexivity.
  - right. exists id. split; [left; reflexivity|]. split; [exact Hid|].
    simpl. rewrite E. reflexivity.
Qed.

Lemma embedding_lookup_cases (t : tensor) (ids : list (list nat)) :
  (valid_ids (length t) ids /\
   embedding_lookup t ids = Ok (map (map (fun id => nth id t [])) ids)) \/
  (exists u, In u (concat ids) /\ (length t <= u)%nat /\
     embedding_lookup t ids = Raise (InvalidArgument_index u (length t))).
Proof.
  unfold embedding_lookup, valid_ids.
  induction ids as [|row ids IH]; [left; split; [constructor|reflexivity]|].
  destruct (lookup_rows_cases t row) as [[Hrow E]|(u & Hu & Hl & E)].
  - destruct IH as [[Hids E']|(u & Hu & Hl & E')].
    + left. split; [constructor; assumption|].
      simpl. rewrite E; simpl. rewrite E'. reflexivity.
    + right. exists u. split; [simpl; apply in_or_app; right; exact Hu|].
      split; [exact Hl|].
      simpl. rewrite E; simpl. rewrite E'. reflexivity.
  - right. exists u. split; [simpl; apply in_or_app; left; exact Hu|].
    split; [exact Hl|].
    simpl. rewrite E. reflexivity.
Qed.

Lemma embedding_lookup_stray (t : tensor) (ids : list (list nat)) :
  ~ valid_ids (length t) ids ->
  exists u, In u (concat ids) /\ (length t <= u)%nat /\
    embedding_lookup t ids = Raise (InvalidArgument_index u (length t)).
Proof.
  intros H. destruct (embedding_lookup_cases t ids) as [[V _]|K];
    [contradiction | exact K].
Qed.

Lemma embedding_lookup_Ok (t : tensor) (ids : list (list nat))
    (g : list tensor) :
  embedding_lookup t ids = Ok g -> valid_ids (length t) ids.
Proof.
  intros H. destruct (embedding_lookup_cases t ids)
    as [[V _]|(u & _ & _ & E)]; [exact V | congruence].
Qed.

(** Broadcasting of one row against a tensor. *)
Lemma row_bcast (op : R -> R -> R) (p r : vec) :
  length p = length r ->
  bcast (fun x y => Ok (op x y)) p r = Ok (map2 op p r).
Proof.
  intros H. rewrite bcast_same_length by exact H.
  apply mapM_Ok_map. apply Forall_forall. reflexivity.
Qed.

Lemma binop_broadcast_row (op : R -> R -> R) (p : vec) (q : tensor) :
  Forall (fun r => length r = length p) q ->
  binop op [p] q = Ok (map (fun r => map2 op p r) q).
Proof.
  intros H. unfold binop, bcast at 1.
  destruct (length [p] =? length q)%nat eqn:E.
  - apply Nat.eqb_eq in E. destruct q as [|r [|r' q]]; try discriminate.
    apply Forall_cons_iff in H as [Hr _].
    simpl. rewrite row_bcast by congruence. reflexivity.
  - apply mapM_Ok_map. eapply Forall_impl; [|exact H].
    intros r Hr; simpl. apply row_bcast. congruence.
Qed.

Lemma bcast_mismatch {A B C : Type} (f : A -> B -> result C) (xs : list A)
    (ys : list B) :
  length xs <> length ys -> length xs <> 1%nat -> length ys <> 1%nat ->
  bcast f xs ys = Raise (InvalidArgument_shapes (length xs) (length ys)).
Proof.
  intros H Hx Hy. unfold bcast.
  rewrite (proj2 (Nat.eqb_neq _ _) H).
  destruct xs as [|x [|x' xs]]; destruct ys as [|y [|y' ys]];
    simpl in *; try reflexivity; contradiction.
Qed.

End Ids.

(** X12.  [get_inference] checks the ids it is given.  On a model with
    consistent shapes it returns only if every user id is below [num_users]
    and every item id below [num_items]; an id outside raises the index
    error of the lookup, naming the id and the number of rows.  The user
    column is looked up first, so when both columns hold bad ids the error
    names a user.  With ids in range and columns of one length it
    returns. *)
Theorem get_inference_checks_ids (m : model) (users items : list (list nat)) :
  shape_inv m ->
  (forall r, get_inference m users items = Ok r ->
     valid_ids (num_users m) users /\ valid_ids (num_items m) items) /\
  (~ valid_ids (num_users m) users ->
   exists u, In u (concat users) /\ (num_users m <= u)%nat /\
     get_inference m users items =
     Raise (InvalidArgument_index u (num_users m))) /\
  (valid_ids (num_users m) users -> ~ valid_ids (num_items m) items ->
   exists i, In i (concat items) /\ (num_items m <= i)%nat /\
     get_inference m users items =
     Raise (InvalidArgument_index i (num_items m))) /\
  (length (h m) = embedding_size m -> length users = length items ->
   valid_ids (num_users m) users -> valid_ids (num_items m) items ->
   exists r, get_inference m users items = Ok r).
Proof.
  intros Hm.
  destruct (add_perturbation _ _ _ _ (shape_P m Hm) (shape_delta_P m Hm))
    as [EP [LP _]].
  destruct (add_perturbation _ _ _ _ (shape_Q m Hm) (shape_delta_Q m Hm))
    as [EQ [LQ _]].
  split; [|split; [|split]].
  - intros r H. unfold get_inference in H. rewrite EP in H; cbn [bind] in H.
    apply bind_Ok in H as (gp & Hgp & H).
    rewrite EQ in H; cbn [bind] in H.
    apply bind_Ok in H as (gq & Hgq & _).
    apply Ids.embedding_lookup_Ok in Hgp, Hgq.
    rewrite LP in Hgp. rewrite LQ in Hgq. auto.
  - intros Hn. rewrite <- LP in Hn |- *.
    destruct (Ids.embedding_lookup_stray _ _ Hn) as (u & Hu & Hl & E).
    exists u. split; [exact Hu|]. split; [exact Hl|].
    unfold get_inference. rewrite EP; cbn [bind]. rewrite E. reflexivity.
  - intros Hv Hn. rewrite <- LP in Hv. rewrite <- LQ in Hn |- *.
    destruct (Ids.embedding_lookup_stray _ _ Hn) as (i & Hi & Hl & E).
    exists i. split; [exact Hi|]. split; [exact Hl|].
    unfold get_inference. rewrite EP; cbn [bind].
    rewrite (embedding_lookup_total _ _ Hv); cbn [bind].
    rewrite EQ; cbn [bind]. rewrite E. reflexivity.
  - intros Hh Hl Hu Hi. eexists.
    apply get_inference_total; assumption.
Qed.

Lemma get_inference_checks_ids_witness :
  (exists u, In u [5%nat] /\ (2 <= u)%nat /\
     get_inference Tiny.start [[5%nat]] [[7%nat]] =
     Raise (InvalidArgument_index u 2)) /\
  (exists i, In i [7%nat] /\ (2 <= i)%nat /\
     get_inference Tiny.start [[1%nat]] [[7%nat]] =
     Raise (InvalidArgument_index i 2)) /\
  (exists r, get_inference Tiny.start [[1%nat]] [[0%nat]] = Ok r).
Proof.
  pose proof (get_inference_checks_ids Tiny.start [[5%nat]] [[7%nat]]
                (proj1 TinyFacts.start_ok)) as (_ & H1 & _).
  pose proof (get_inference_checks_ids Tiny.start [[1%nat]] [[7%nat]]
                (proj1 TinyFacts.start_ok)) as (_ & _ & H2 & _).
  pose proof (get_inference_checks_ids Tiny.start [[1%nat]] [[0%nat]]
                (proj1 TinyFacts.start_ok)) as (_ & _ & _ & H3).
  split; [|split].
  - apply H1. intros V.
    apply Forall_cons_iff in V as [V _].
    apply Forall_cons_iff in V as [V _]. simpl in V. lia.
  - apply H2.
    + repeat constructor.
    + intros V.
      apply Forall_cons_iff in V as [V _].
      apply Forall_cons_iff in V as [V _]. simpl in V. lia.
  - apply H3; [reflexivity | reflexivity | |]; repeat constructor.
Defined.

(** X13.  The two id columns of [get_inference] follow the broadcasting of
    the elementwise product.  Columns of different lengths, neither of
    length one, raise the shape error of the product, after both lookups
    have passed.  A single user against a column of items is stretched:
    the result holds the score of that user with every item of the
    column. *)
Theorem get_inference_broadcasts (m : model) :
  shape_inv m ->
  (forall users items,
      valid_ids (num_users m) users -> valid_ids (num_items m) items ->
      length users <> length items ->
      length users <> 1%nat -> length items <> 1%nat ->
      get_inference m users items =
      Raise (InvalidArgument_shapes (length users) (length items))) /\
  (forall u items,
      h m = fill 1 (embedding_size m) 1 ->
      (u < num_users m)%nat ->
      Forall (fun i => (i < num_items m)%nat) items ->
      get_inference m [[u]] (map (fun i => [i]) items) =
      Ok (map (fun i => [dot (row u (perturbed_P m)) (row i (perturbed_Q m))])
              items,
          [row u (perturbed_P m)],
          map (fun i => row i (perturbed_Q m)) items)).
Proof.
  intros Hm.
  destruct (add_perturbation _ _ _ _ (shape_P m Hm) (shape_delta_P m Hm))
    as [EP SP].
  destruct (add_perturbation _ _ _ _ (shape_Q m Hm) (shape_delta_Q m Hm))
    as [EQ SQ].
  fold (perturbed_P m) in EP, SP. fold (perturbed_Q m) in EQ, SQ.
  split.
  - intros users items Hu Hi Hne H1 H2. unfold get_inference.
    rewrite EP; cbn [bind].
    rewrite embedding_lookup_total by (rewrite (proj1 SP); exact Hu).
    cbn [bind]. rewrite EQ; cbn [bind].
    rewrite embedding_lookup_total by (rewrite (proj1 SQ); exact Hi).
    cbn [bind].
    unfold mul, binop. rewrite Ids.bcast_mismatch;
      unfold reduce_sum_1; rewrite ?length_map; auto.
  - intros u items Hh Hu Hi. unfold get_inference.
    rewrite EP; cbn [bind].
    rewrite embedding_lookup_total
      by (rewrite (proj1 SP); repeat constructor; exact Hu).
    cbn [bind]. rewrite EQ; cbn [bind].
    assert (Vi : valid_ids (length (perturbed_Q m))
                   (map (fun i => [i]) items)).
    { rewrite (proj1 SQ). apply Forall_map.
      eapply Forall_impl; [|exact Hi]. intros i Hlt. repeat constructor.
      exact Hlt. }
    rewrite (embedding_lookup_total _ _ Vi). cbn [bind].
    assert (Gp : reduce_sum_1 (embedding_size m)
                   (map (map (fun id => nth id (perturbed_P m) [])) [[u]])
                 = [row u (perturbed_P m)]) by reflexivity.
    assert (Gq : reduce_sum_1 (embedding_size m)
                   (map (map (fun id => nth id (perturbed_Q m) []))
                      (map (fun i => [i]) items))
                 = map (fun i => row i (perturbed_Q m)) items).
    { unfold reduce_sum_1. rewrite !map_map. reflexivity. }
    rewrite Gp, Gq.
    assert (Lp : length (row u (perturbed_P m)) = embedding_size m)
      by (apply (Locality.row_length _ _ _ u SP Hu)).
    assert (Fq : Forall (fun r => length r = length (row u (perturbed_P m)))
                   (map (fun i => row i (perturbed_Q m)) items)).
    { apply Forall_map. eapply Forall_impl; [|exact Hi].
      intros i Hlt. rewrite Lp.
      apply (Locality.row_length _ _ _ i SQ Hlt). }
    unfold mul. rewrite (Ids.binop_broadcast_row _ _ _ Fq). cbn [bind].
    rewrite matmul_total.
    + cbn [bind]. rewrite !map_map. do 3 f_equal.
      apply map_ext_in. intros i Hin.
      rewrite Forall_forall in Hi. specialize (Hi i Hin).
      cbn [seq map]. f_equal.
      rewrite Hh, Inference.column_ones.
      assert (Lr : length (map2 Rmult (row u (perturbed_P m))
                             (row i (perturbed_Q m))) = embedding_size m).
      { rewrite map2_length; [exact Lp|].
        rewrite Lp. symmetry. apply (Locality.row_length _ _ _ i SQ Hi). }
      rewrite <- Lr. apply Inference.dot_ones.
    + apply Forall_map. rewrite Forall_forall in Fq |- *.
      intros r Hr. specialize (Fq r Hr).
      rewrite map2_length by congruence.
      rewrite Lp, Hh. unfold fill. rewrite repeat_length. reflexivity.
Qed.

Lemma get_inference_broadcasts_witness :
  get_inference Tiny.start [[0]; [1]]%nat [[0]; [1]; [0]]%nat =
  Raise (InvalidArgument_shapes 2 3) /\
  get_inference Tiny.start [[0%nat]] (map (fun i => [i]) [0; 1]%nat) =
  Ok (map (fun i => [dot (row 0 (perturbed_P Tiny.start))
                         (row i (perturbed_Q Tiny.start))]) [0; 1]%nat,
      [row 0 (perturbed_P Tiny.start)],
      map (fun i => row i (perturbed_Q Tiny.start)) [0; 1]%nat).
Proof.
  destruct (get_inference_broadcasts Tiny.start (proj1 TinyFacts.start_ok))
    as [H1 H2].
  split.
  - apply (H1 [[0]; [1]]%nat [[0]; [1]; [0]]%nat);
      try (repeat constructor); simpl; lia.
  - apply (H2 0%nat [0; 1]%nat); [reflexivity | simpl; lia |].
    repeat constructor.
Defined.

(** X14.  On a model with consistent shapes [get_full_inference] returns,
    and what it returns is a matrix with one row per user and one column
    per item. *)
Theorem full_inference_is_users_by_items (m : model) :
  shape_inv m ->
  exists full,
    get_full_inference m = Ok full /\
    has_shape full (num_users m) (num_items m).
Proof.
  intros Hm. eexists. split; [apply get_full_inference_total, Hm|].
  rewrite <- (proj1 (perturbed_P_shape m Hm)) at 1.
  apply has_shape_matmul.
Qed.

Lemma full_inference_is_users_by_items_witness :
  exists full,
    get_full_inference Tiny.start = Ok full /\ has_shape full 2 2.
Proof.
  exact (full_inference_is_users_by_items Tiny.start
           (proj1 TinyFacts.start_ok)).
Defined.

(** ** Gradients that vanish *)

Module ZeroGradient.

Lemma map_const_seq {A : Type} (c : A) (a n : nat) :
  map (fun _ => c) (seq a n) = repeat c n.
Proof.
  revert a; induction n as [|n IH]; intros a; [reflexivity|].
  simpl. rewrite IH. reflexivity.
Qed.

Lemma fold_zero_rows (d : nat) (vs : list vec) :
  Forall (fun v => v = repeat 0 d) vs ->
  fold_right vadd (repeat 0 d) vs = repeat 0 d.
Proof.
  induction 1 as [|v vs -> _ IH]; [reflexivity|].
  simpl. rewrite IH. apply Untouched.vadd_zero_rows.
Qed.

Lemma scatter_add_zero (n d : nat) (updates : list (nat * vec)) :
  Forall (fun iv => snd iv = repeat 0 d) updates ->
  scatter_add n d updates = zeros n d.
Proof.
  intros H. unfold scatter_add, zeros, fill.
  rewrite <- (map_const_seq (repeat 0 d) 0 n).
  apply map_ext. intros r. apply fold_zero_rows.
  apply Forall_map. apply Forall_forall. intros iv Hiv.
  apply filter_In in Hiv as [Hiv _].
  rewrite Forall_forall in H. apply H, Hiv.
Qed.

Lemma adagrad_accum_zero (accum : tensor) (n d : nat) :
  has_shape accum n d -> adagrad_accum accum (zeros n d) = accum.
Proof.
  revert n; induction accum as [|r t IH]; intros n [Hn Hf].
  - reflexivity.
  - simpl in Hn; subst n. apply Forall_cons_iff in Hf as [Hr Hf].
    change (adagrad_accum (r :: t) (zeros (S (length t)) d))
      with (map2 (fun x g => x + g * g) r (repeat 0 d)
            :: adagrad_accum t (zeros (length t) d)).
    rewrite (IH (length t)) by (split; auto).
    rewrite <- Hr, Locality.accum_row_zero. reflexivity.
Qed.

Lemma adagrad_var_zero (lr : R) (var accum : tensor) (n d : nat) :
  has_shape var n d -> has_shape accum n d ->
  adagrad_var lr var (zeros n d) accum = var.
Proof.
  revert n accum; induction var as [|r t IH]; intros n accum [Hn Hf] [Ln Lf].
  - reflexivity.
  - simpl in Hn; subst n. destruct accum as [|a accum]; [discriminate|].
    apply Forall_cons_iff in Hf as [Hr Hf].
    apply Forall_cons_iff in Lf as [Ha Lf].
    change (adagrad_var lr (r :: t) (zeros (S (length t)) d) (a :: accum))
      with (map2 (fun x ga =>
                    x - lr * fst ga / (sqrt (snd ga) + adagrad_epsilon))
                 r (map2 pair (repeat 0 d) a)
            :: adagrad_var lr t (zeros (length t) d) accum).
    rewrite (IH (length t) accum) by (split; auto; simpl in Ln; lia).
    rewrite <- Hr, Locality.var_row_zero by congruence. reflexivity.
Qed.

(** The gradient vanishes when the gathered rows on the tape are zero. *)
Lemma vscale_zero_row (c : R) (d : nat) : vscale c (repeat 0 d) = repeat 0 d.
Proof. unfold vscale. rewrite map_repeat. f_equal. ring. Qed.

Lemma vsub_zero_rows (d : nat) : vsub (repeat 0 d) (repeat 0 d) = repeat 0 d.
Proof.
  induction d as [|d IH]; [reflexivity|].
  unfold vsub, map2 in *; simpl. rewrite IH. f_equal. ring.
Qed.

Lemma gradient_flat (m : model) (b : batch) (sc : scores) (w c : R) :
  Forall (flat_tape (embedding_size m)) (tape_rows b sc) ->
  gradient m b sc w c =
  (zeros (length (embedding_P m)) (embedding_size m),
   zeros (length (embedding_Q m)) (embedding_size m)).
Proof.
  intros H. unfold gradient. f_equal; apply scatter_add_zero;
    apply Forall_forall; intros iv Hiv;
    apply in_flat_map in Hiv as ([s [p [q [q' x]]]] & Hrow & Hiv);
    rewrite Forall_forall in H; destruct (H _ Hrow) as (-> & -> & ->).
  - destruct Hiv as [<-|[]]. simpl.
    rewrite vsub_zero_rows, !vscale_zero_row. apply Untouched.vadd_zero_rows.
  - destruct Hiv as [<-|[<-|[]]]; simpl;
      rewrite !vscale_zero_row; apply Untouched.vadd_zero_rows.
Qed.

End ZeroGradient.

Module ZeroModel.

Import ZeroGradient.

Lemma nth_repeat_lt {A : Type} (z d : A) (n i : nat) :
  (i < n)%nat -> nth i (repeat z n) d = z.
Proof.
  intros H. apply (repeat_spec n z). apply nth_In.
  rewrite repeat_length. exact H.
Qed.

Lemma fold_left_zero_rows (d : nat) (vs : list vec) :
  Forall (fun v => v = repeat 0 d) vs ->
  fold_left vadd vs (repeat 0 d) = repeat 0 d.
Proof.
  induction 1 as [|v vs -> _ IH]; [reflexivity|].
  simpl. rewrite Untouched.vadd_zero_rows. exact IH.
Qed.

Lemma vsum_zero_rows (d : nat) (vs : list vec) :
  Forall (fun v => v = repeat 0 d) vs -> vsum d vs = repeat 0 d.
Proof.
  intros H. destruct H as [|v vs -> H]; [reflexivity|].
  simpl. apply fold_left_zero_rows, H.
Qed.

Lemma gathered_zeros (n d : nat) (ids : list (list nat)) :
  valid_ids n ids ->
  Forall (fun r => r = repeat 0 d) (gathered d (zeros n d) ids).
Proof.
  intros H. unfold gathered, reduce_sum_1.
  apply Forall_map, Forall_map.
  eapply Forall_impl; [|exact H]. intros row Hrow; simpl.
  apply vsum_zero_rows, Forall_map.
  eapply Forall_impl; [|exact Hrow]. intros id Hid; simpl.
  apply nth_repeat_lt, Hid.
Qed.

Lemma tape_rows_flat (b : batch) (sc : scores) (d : nat) :
  Forall (fun r => r = repeat 0 d) (embed_p_pos sc) ->
  Forall (fun r => r = repeat 0 d) (embed_q_pos sc) ->
  Forall (fun r => r = repeat 0 d) (embed_q_neg sc) ->
  Forall (flat_tape d) (tape_rows b sc).
Proof.
  rewrite !Forall_forall. intros HP HQ HQ' [s [p [q [q' x]]]] H.
  unfold tape_rows in H.
  apply in_combine_r in H.
  pose proof (in_combine_l _ _ _ _ H) as Hp. apply in_combine_r in H.
  pose proof (in_combine_l _ _ _ _ H) as Hq. apply in_combine_r in H.
  apply in_combine_l in H.
  simpl. auto.
Qed.

Lemma perturbed_zero (m : model) :
  zero_model m ->
  perturbed_P m = zeros (num_users m) (embedding_size m) /\
  perturbed_Q m = zeros (num_items m) (embedding_size m).
Proof.
  intros (EP & EQ & DP & DQ). unfold perturbed_P, perturbed_Q.
  rewrite EP, EQ, DP, DQ.
  split; apply Frames.add_zeros, has_shape_zeros.
Qed.

(** Scores and loss of a model whose user embeddings are zero. *)
Lemma dot_zero_row (v w : vec) : Forall (fun x => x = 0) v -> dot v w = 0.
Proof.
  intros H; revert w. induction H as [|x v -> _ IH]; intros [|y w];
    try reflexivity.
  unfold dot, map2 in *; simpl. rewrite (IH w). ring.
Qed.

Lemma Forall_repeat {A : Type} (P : A -> Prop) (x : A) (n : nat) :
  P x -> Forall P (repeat x n).
Proof. intros H. induction n; simpl; constructor; auto. Qed.

Lemma zero_rows_entries (d : nat) (t : tensor) :
  Forall (fun r => r = repeat 0 d) t -> Forall (Forall (fun x => x = 0)) t.
Proof.
  intros H. eapply Forall_impl; [|exact H].
  intros r ->. apply Forall_repeat. reflexivity.
Qed.

Lemma inference_scores_zero (m : model) (users items : list (list nat)) :
  zero_model m -> valid_ids (num_users m) users ->
  Forall (Forall (fun x => x = 0)) (inference_scores m users items).
Proof.
  intros Hz Hu. unfold inference_scores.
  rewrite (proj1 (perturbed_zero m Hz)).
  apply Forall_map.
  pose proof (zero_rows_entries _ _
                (gathered_zeros _ (embedding_size m) _ Hu)) as G.
  assert (K : Forall (Forall (fun x => x = 0))
                (map2 (map2 Rmult)
                   (gathered (embedding_size m)
                      (zeros (num_users m) (embedding_size m)) users)
                   (gathered (embedding_size m) (perturbed_Q m) items))).
  { apply (Entrywise.Forall_map2 (fun x => x = 0) (fun _ => True)
             (fun x => x = 0));
      auto using Entrywise.Forall_Forall_true.
    intros x y -> _. ring. }
  eapply Forall_impl; [|exact K]. intros row Hrow; cbv beta.
  apply Forall_map, Forall_forall. intros j _. apply dot_zero_row, Hrow.
Qed.

Lemma reduce_sum_constant (f : R -> R) (c : R) (t : tensor) (n : nat) :
  has_shape t n 1 -> Forall (Forall (fun x => f x = c)) t ->
  reduce_sum (tmap f t) = INR n * c.
Proof.
  intros [L F] Hf. subst n. unfold reduce_sum, tmap.
  induction t as [|r t IH]; [simpl; ring|].
  apply Forall_cons_iff in F as [Hr F].
  apply Forall_cons_iff in Hf as [Hfr Hf]. specialize (IH F Hf).
  change (length (r :: t)) with (S (length t)). rewrite S_INR.
  destruct r as [|x [|y r]]; try discriminate.
  apply Forall_cons_iff in Hfr as [Hx _].
  simpl in *. rewrite IH, Hx. ring.
Qed.

Lemma sample_loss_at_zero :
  softplus (- clip_by_value clip_lo clip_hi 0) = ln 2.
Proof.
  rewrite Numerics.zero_clipped, Ropp_0. unfold softplus. rewrite exp_0.
  replace (1 + 1) with 2 by ring. reflexivity.
Qed.

Lemma zero_model_loss (m : model) (b : batch) (sc : scores) :
  model_ok m -> valid_batch m b -> zero_model m ->
  bpr_scores m b = Ok sc -> bpr_loss sc = INR (length b) * ln 2.
Proof.
  intros Hm Hb Hz H. rewrite (Loss.bpr_scores_eval m b Hm Hb) in H.
  injection H as <-. cbn [bpr_loss].
  pose proof (Loss.diff_shape m b Hm Hb) as S.
  destruct (valid_batch_ids m b Hb) as (Vu & _ & _).
  pose proof (inference_scores_zero m _ (item_input_pos b) Hz Vu) as Z1.
  pose proof (inference_scores_zero m _ (item_input_neg b) Hz Vu) as Z2.
  assert (Z : Forall (Forall (fun x => x = 0))
                (map2 (map2 Rminus)
                   (inference_scores m (user_input b) (item_input_pos b))
                   (inference_scores m (user_input b) (item_input_neg b)))).
  { apply (Entrywise.Forall_map2 (fun x => x = 0) (fun x => x = 0)
             (fun x => x = 0)); auto.
    intros x y -> ->. ring. }
  set (d := map2 (map2 Rminus) _ _) in *.
  assert (E : tmap softplus (tmap Ropp (tmap (clip_by_value clip_lo clip_hi) d))
              = tmap (fun x => softplus (- clip_by_value clip_lo clip_hi x)) d).
  { unfold tmap. rewrite !map_map. apply map_ext. intros r.
    rewrite !map_map. reflexivity. }
  rewrite E. apply reduce_sum_constant; [exact S|].
  eapply Forall_impl; [|exact Z]. intros r Hr.
  eapply Forall_impl; [|exact Hr]. intros x ->. apply sample_loss_at_zero.
Qed.

(** One batch on a model at zero. *)
Lemma zero_model_batch (m : model) (b : batch) :
  model_ok m -> valid_batch m b -> zero_model m ->
  exists m',
    _train_batch m b = Ok m' /\
    (model_ok m' /\ same_config m m' /\ zero_model m') /\
    accum_P m' = accum_P m /\ accum_Q m' = accum_Q m /\
    loss m' = INR (length b) * ln 2.
Proof.
  intros Hm Hb Hz.
  destruct (_train_batch_total m b Hm Hb) as (m' & E & Hm' & Hc).
  exists m'. split; [exact E|].
  destruct (Untouched._train_batch_unfold _ _ _ E) as (sc & sq & Hsc & _ & K).
  pose proof (zero_model_loss m b sc Hm Hb Hz Hsc) as HL.
  pose proof Hsc as Hev. rewrite (Loss.bpr_scores_eval m b Hm Hb) in Hev.
  destruct (valid_batch_ids m b Hb) as (Vu & Vp & Vn).
  destruct (perturbed_zero m Hz) as [PP PQ].
  assert (F : Forall (flat_tape (embedding_size m)) (tape_rows b sc)).
  { injection Hev as <-. apply tape_rows_flat; cbn [embed_p_pos embed_q_pos
      embed_q_neg]; rewrite ?PP, ?PQ; apply gathered_zeros; assumption. }
  destruct Hm as [Hs Hh]. destruct Hz as (EP & EQ & DP & DQ).
  set (m1 := set_loss m (bpr_loss sc)) in *.
  rewrite (gradient_flat m1 b sc 1 _ F) in K.
  change (embedding_P m1) with (embedding_P m) in K.
  change (embedding_Q m1) with (embedding_Q m) in K.
  change (embedding_size m1) with (embedding_size m) in K.
  rewrite (proj1 (shape_P m Hs)), (proj1 (shape_Q m Hs)) in K.
  assert (AP : accum_P m' = accum_P m)
    by (rewrite K; simpl;
        apply (adagrad_accum_zero _ _ _ (shape_accum_P m Hs))).
  assert (AQ : accum_Q m' = accum_Q m)
    by (rewrite K; simpl;
        apply (adagrad_accum_zero _ _ _ (shape_accum_Q m Hs))).
  assert (VP : embedding_P m' = embedding_P m).
  { rewrite K; simpl.
    rewrite (adagrad_accum_zero _ _ _ (shape_accum_P m Hs)).
    apply (adagrad_var_zero _ _ _ _ _ (shape_P m Hs) (shape_accum_P m Hs)). }
  assert (VQ : embedding_Q m' = embedding_Q m).
  { rewrite K; simpl.
    rewrite (adagrad_accum_zero _ _ _ (shape_accum_Q m Hs)).
    apply (adagrad_var_zero _ _ _ _ _ (shape_Q m Hs) (shape_accum_Q m Hs)). }
  destruct Hc as (Hd & N1 & N2 & N3 & Hrest).
  split; [|split; [exact AP|split; [exact AQ|]]].
  - split; [exact Hm'|]. split; [repeat split; tauto|].
    unfold zero_model, zero_perturbations.
    rewrite VP, VQ, N1, N2, N3.
    assert (D1 : delta_P m' = delta_P m) by (rewrite K; reflexivity).
    assert (D2 : delta_Q m' = delta_Q m) by (rewrite K; reflexivity).
    rewrite D1, D2. auto.
  - rewrite K. exact HL.
Qed.

Lemma still_refl (m : model) : model_ok m -> zero_model m -> still m m.
Proof.
  intros Hm Hz. split; [exact Hm|]. split; [apply same_config_refl|].
  split; [exact Hz|]. split; reflexivity.
Qed.

Lemma still_batch (m s : model) (b : batch) :
  still m s -> valid_batch m b ->
  exists s', _train_batch s b = Ok s' /\ still m s' /\
             loss s' = INR (length b) * ln 2.
Proof.
  intros (Hs & Hc & Hz & AP & AQ) Hb.
  destruct (zero_model_batch s b Hs (valid_batch_same_config m s b Hc Hb) Hz)
    as (s' & E & (Hs' & Hc' & Hz') & AP' & AQ' & L).
  exists s'. split; [exact E|]. split; [|exact L].
  split; [exact Hs'|]. split; [eapply same_config_trans; eauto|].
  split; [exact Hz'|]. split; congruence.
Qed.

Lemma still_step (m : model) (batches : list batch) (s : model) :
  still m s -> Forall (valid_batch m) batches ->
  exists s', _train_step s batches = Ok s' /\ still m s' /\
             loss s' = match batches with
                       | [] => loss s
                       | _ => INR (length (last batches [])) * ln 2
                       end.
Proof.
  revert s; induction batches as [|b bs IH]; intros s Hs Hv.
  - exists s. auto.
  - apply Forall_cons_iff in Hv as [Hb Hv].
    destruct (still_batch m s b Hs Hb) as (s1 & E1 & Hs1 & L1).
    destruct (IH s1 Hs1 Hv) as (s' & E & Hs' & L).
    exists s'. split; [|split; [exact Hs'|]].
    + unfold _train_step in *. simpl. rewrite E1. exact E.
    + rewrite L. destruct bs as [|b' bs]; [exact L1|reflexivity].
Qed.

Lemma still_next_shuffle (m s : model) (size : nat) :
  still m s -> still m (snd (next_shuffle s size)).
Proof.
  intros (Hs & Hc & Hz & AP & AQ).
  split; [apply model_ok_next_shuffle, Hs|].
  split; [eapply same_config_trans;
          [exact Hc | apply same_config_next_shuffle]|].
  split; [exact Hz|]. split; assumption.
Qed.

End ZeroModel.

(** X15.  A model whose embeddings are all zero does not learn.  On such a
    model (with zero perturbations) every score is zero, the loss of a batch
    of n triples is n * ln 2, and the gradient vanishes: [_train_step] and
    [train] return with the embeddings and the optimizer's slots as they
    were, whatever the data and the regularisation. *)
Theorem zero_embeddings_never_train (m : model) :
  model_ok m -> zero_model m ->
  (forall batches,
      Forall (valid_batch m) batches ->
      exists m',
        _train_step m batches = Ok m' /\
        zero_model m' /\
        accum_P m' = accum_P m /\ accum_Q m' = accum_Q m /\
        (batches <> [] -> loss m' = INR (length (last batches [])) * ln 2)) /\
  (valid_data m ->
   exists m',
     train m = Ok m' /\ zero_model m' /\
     accum_P m' = accum_P m /\ accum_Q m' = accum_Q m).
Proof.
  intros Hm Hz. pose proof (ZeroModel.still_refl m Hm Hz) as H0.
  split.
  - intros batches Hv.
    destruct (ZeroModel.still_step m batches m H0 Hv)
      as (m' & E & (_ & _ & Hz' & AP & AQ) & L).
    exists m'. split; [exact E|]. split; [exact Hz'|].
    split; [exact AP|]. split; [exact AQ|].
    intros Hne. rewrite L. destruct batches; [contradiction|reflexivity].
  - intros Hv. unfold train.
    destruct (foldM_total (still m) (fun _ : nat => True)
                (fun m' (_ : nat) =>
                   let (batches, m1) := next_shuffle m' (batch_size m') in
                   _train_step m1 batches)
                (seq 0 (epochs m))) with (s := m)
      as (m' & E & (_ & _ & Hz' & AP & AQ)).
    + intros s x Hs _.
      assert (Hb : Forall (valid_batch m)
                     (fst (next_shuffle s (batch_size s)))).
      { destruct Hs as (_ & (Hd & _) & _). simpl. rewrite Hd. apply Hv. }
      destruct (ZeroModel.still_step m
                  (fst (next_shuffle s (batch_size s)))
                  (snd (next_shuffle s (batch_size s)))
                  (ZeroModel.still_next_shuffle m s _ Hs) Hb)
        as (s' & E & Hs' & _).
      exists s'. split; [exact E | exact Hs'].
    + exact H0.
    + apply Forall_forall; auto.
    + exists m'. auto.
Qed.

Lemma zero_embeddings_never_train_witness :
  exists m',
    _train_step (Tiny.flat 0 0) [[(0, 0, 1)]]%nat = Ok m' /\
    zero_model m' /\ loss m' = INR 1 * ln 2.
Proof.
  assert (Hm : model_ok (Tiny.flat 0 0)).
  { split; [|reflexivity].
    split; first [apply has_shape_zeros | apply has_shape_fill]. }
  assert (Hz : zero_model (Tiny.flat 0 0))
    by (repeat split; reflexivity).
  destruct (zero_embeddings_never_train (Tiny.flat 0 0) Hm Hz) as [H _].
  destruct (H [[(0, 0, 1)]]%nat) as (m' & E & Hz' & _ & _ & L).
  { repeat constructor. }
  exists m'. split; [exact E|]. split; [exact Hz'|].
  apply L. discriminate.
Defined.

(** ** What the run of the notebook leaves in the kernel *)

Module NotebookRun.

Section Cells.

Variable read_dataset : string -> string -> DataLoader.
Variables noise_P noise_Q : nat -> nat -> R.
Variable evaluate : model -> result (R * R * R).

Lemma foldM_cons {A St : Type} (f : St -> A -> result St) (x : A)
    (xs : list A) (s : St) :
  foldM f (x :: xs) s = (s' <- f s x ;; foldM f xs s').
Proof. reflexivity. Qed.

Lemma exec_Train_inv (k k' : kernel) :
  exec read_dataset noise_P noise_Q evaluate k Train = Ok k' ->
  exists m m',
    recommender_model k = Some m /\ train m = Ok m' /\
    k' = log_statement (set_model k m') Train.
Proof.
  unfold Notebook.exec. intros H.
  apply bind_Ok in H as (k1 & H1 & H). injection H as <-.
  cbn [exec_statement] in H1. unfold the_model in H1.
  destruct (recommender_model k) as [m|]; [|discriminate].
  cbn [bind] in H1. apply bind_Ok in H1 as (m' & T & H1).
  injection H1 as <-. eauto.
Qed.

Lemma exec_Evaluate_inv (k k' : kernel) (before : bool) :
  exec read_dataset noise_P noise_Q evaluate k (Evaluate before)
  = Ok k' ->
  exists m r,
    recommender_model k = Some m /\ evaluate m = Ok r /\
    k' = log_statement (set_metrics k before r) (Evaluate before).
Proof.
  unfold Notebook.exec. intros H.
  apply bind_Ok in H as (k1 & H1 & H). injection H as <-.
  cbn [exec_statement] in H1. unfold the_model in H1.
  destruct (recommender_model k) as [m|]; [|discriminate].
  cbn [bind] in H1. apply bind_Ok in H1 as (r & T & H1).
  injection H1 as <-. eauto.
Qed.

Lemma exec_Attack_inv (k k' : kernel) (epsilon : R) :
  exec read_dataset noise_P noise_Q evaluate k (Attack epsilon)
  = Ok k' ->
  exists m m',
    recommender_model k = Some m /\
    execute_adversarial_attack m epsilon = Ok m' /\
    k' = log_statement (set_model k m') (Attack epsilon).
Proof.
  unfold Notebook.exec. intros H.
  apply bind_Ok in H as (k1 & H1 & H). injection H as <-.
  cbn [exec_statement] in H1. unfold the_model in H1.
  destruct (recommender_model k) as [m|]; [|discriminate].
  cbn [bind] in H1. apply bind_Ok in H1 as (m' & T & H1).
  injection H1 as <-. eauto.
Qed.

Lemma exec_AdversarialTrain_inv (k k' : kernel) (n : nat) (epsilon : R) :
  exec read_dataset noise_P noise_Q evaluate k
    (AdversarialTrain n epsilon)
  = Ok k' ->
  exists m m',
    recommender_model k = Some m /\
    adversarial_train m n epsilon = Ok m' /\
    k' = log_statement (set_model k m') (AdversarialTrain n epsilon).
Proof.
  unfold Notebook.exec. intros H.
  apply bind_Ok in H as (k1 & H1 & H). injection H as <-.
  cbn [exec_statement] in H1. unfold the_model in H1.
  destruct (recommender_model k) as [m|]; [|discriminate].
  cbn [bind] in H1. apply bind_Ok in H1 as (m' & T & H1).
  injection H1 as <-. eauto.
Qed.

(** The cells that act on the model, from a kernel that holds [m0]. *)
Lemma run_model_cells (k0 k : kernel) (m0 : model) :
  recommender_model k0 = Some m0 ->
  foldM (exec read_dataset noise_P noise_Q evaluate)
    [Train; Evaluate true; Attack (1 / 2); Evaluate false;
     AdversarialTrain 1 (1 / 2); Evaluate true; Attack (1 / 2);
     Evaluate false] k0 = Ok k ->
  exists m1 m2 m3 m4 r1 r2 r3 r4,
    train m0 = Ok m1 /\
    evaluate m1 = Ok r1 /\
    execute_adversarial_attack m1 (1 / 2) = Ok m2 /\
    evaluate m2 = Ok r2 /\
    adversarial_train m2 1 (1 / 2) = Ok m3 /\
    evaluate m3 = Ok r3 /\
    execute_adversarial_attack m3 (1 / 2) = Ok m4 /\
    evaluate m4 = Ok r4 /\
    recommender_model k = Some m4 /\
    before_adv k = Some r3 /\ after_adv k = Some r4.
Proof.
  intros K0 H.
  rewrite foldM_cons in H. apply bind_Ok in H as (k1 & E & H).
  apply exec_Train_inv in E as (m & m1 & K & T1 & ->).
  rewrite K0 in K. injection K as <-.
  rewrite foldM_cons in H. apply bind_Ok in H as (k2 & E & H).
  apply exec_Evaluate_inv in E as (m & r1 & K & V1 & ->). model_of K.
  rewrite foldM_cons in H. apply bind_Ok in H as (k3 & E & H).
  apply exec_Attack_inv in E as (m & m2 & K & A2 & ->). model_of K.
  rewrite foldM_cons in H. apply bind_Ok in H as (k4 & E & H).
  apply exec_Evaluate_inv in E as (m & r2 & K & V2 & ->). model_of K.
  rewrite foldM_cons in H. apply bind_Ok in H as (k5 & E & H).
  apply exec_AdversarialTrain_inv in E as (m & m3 & K & T3 & ->). model_of K.
  rewrite foldM_cons in H. apply bind_Ok in H as (k6 & E & H).
  apply exec_Evaluate_inv in E as (m & r3 & K & V3 & ->). model_of K.
  rewrite foldM_cons in H. apply bind_Ok in H as (k7 & E & H).
  apply exec_Attack_inv in E as (m & m4 & K & A4 & ->). model_of K.
  rewrite foldM_cons in H. apply bind_Ok in H as (k8 & E & H).
  apply exec_Evaluate_inv in E as (m & r4 & K & V4 & ->). model_of K.
  cbn [foldM] in H. injection H as <-.
  exists m1, m2, m3, m4, r1, r2, r3, r4.
  split; [exact T1|]. split; [exact V1|]. split; [exact A2|].
  split; [exact V2|]. split; [exact T3|]. split; [exact V3|].
  split; [exact A4|]. split; [exact V4|].
  split; [reflexivity|]. split; reflexivity.
Qed.

(** The first two cells build the model; the others run from there. *)
Lemma run_notebook_from_model :
  exists k0,
    recommender_model k0 =
    Some (init (read_dataset "./data/movielens-500/trainingset.tsv"
                             "./data/movielens-500/testset.tsv")
               "../rec_result/" "../rec_weights/" noise_P noise_Q) /\
    run_notebook read_dataset noise_P noise_Q evaluate =
    foldM (exec read_dataset noise_P noise_Q evaluate)
      [Train; Evaluate true; Attack (1 / 2); Evaluate false;
       AdversarialTrain 1 (1 / 2); Evaluate true; Attack (1 / 2);
       Evaluate false] k0.
Proof.
  eexists. split; [|].
  2: { unfold run_notebook, run.
       rewrite NotebookFacts.notebook_split, foldM_app,
         NotebookFacts.foldM_two.
       rewrite NotebookFacts.exec_LoadData; cbn [bind].
       rewrite (NotebookFacts.exec_Construct _ _ _ _ _
                  (read_dataset "./data/movielens-500/trainingset.tsv"
                                "./data/movielens-500/testset.tsv"))
         by reflexivity.
       cbn [bind]. reflexivity. }
  reflexivity.
Qed.

(** The models and the metrics of a completed run, cell by cell. *)
Lemma run_notebook_chain (k : kernel) :
  run_notebook read_dataset noise_P noise_Q evaluate = Ok k ->
  exists m1 m2 m3 m4 r1 r2 r3 r4,
    train (init (read_dataset "./data/movielens-500/trainingset.tsv"
                              "./data/movielens-500/testset.tsv")
                "../rec_result/" "../rec_weights/" noise_P noise_Q)
    = Ok m1 /\
    evaluate m1 = Ok r1 /\
    execute_adversarial_attack m1 (1 / 2) = Ok m2 /\
    evaluate m2 = Ok r2 /\
    adversarial_train m2 1 (1 / 2) = Ok m3 /\
    evaluate m3 = Ok r3 /\
    execute_adversarial_attack m3 (1 / 2) = Ok m4 /\
    evaluate m4 = Ok r4 /\
    recommender_model k = Some m4 /\
    before_adv k = Some r3 /\ after_adv k = Some r4.
Proof.
  intros H. destruct run_notebook_from_model as (k0 & K0 & E).
  rewrite E in H. exact (run_model_cells k0 k _ K0 H).
Qed.

End Cells.

End NotebookRun.

(** X16.  What a completed run of the notebook leaves in the kernel.  The
    adversarial training of cell 16 starts from the model as the attack of
    cell 12 left it, perturbations included, and ends with zero
    perturbations.  [before_adv_*] hold the metrics of that defended,
    unperturbed model (the values of the first evaluation are overwritten),
    [after_adv_*] the metrics of the same embeddings under the last attack.
    The model the kernel is left with is the attacked one: its perturbations
    are the normalised and scaled gradient of the last attack and are not
    reset. *)
Theorem notebook_final_state
    (read_dataset : string -> string -> DataLoader)
    (noise_P noise_Q : nat -> nat -> R)
    (evaluate : model -> result (R * R * R)) (k : kernel) :
  run_notebook read_dataset noise_P noise_Q evaluate = Ok k ->
  exists m1 m2 m3 m4 r3 r4 g,
    train (init (read_dataset "./data/movielens-500/trainingset.tsv"%string
                              "./data/movielens-500/testset.tsv"%string)
                "../rec_result/"%string "../rec_weights/"%string
                noise_P noise_Q)
    = Ok m1 /\
    zero_perturbations m1 /\
    execute_adversarial_attack m1 (1 / 2) = Ok m2 /\
    adversarial_train m2 1 (1 / 2) = Ok m3 /\
    zero_perturbations m3 /\
    execute_adversarial_attack m3 (1 / 2) = Ok m4 /\
    embedding_P m4 = embedding_P m3 /\ embedding_Q m4 = embedding_Q m3 /\
    attack_gradient (attack_model m3) (attack_batches m3) = Ok g /\
    delta_P m4 = scale (l2_normalize (fst g)) (1 / 2) /\
    delta_Q m4 = scale (l2_normalize (snd g)) (1 / 2) /\
    evaluate m3 = Ok r3 /\ before_adv k = Some r3 /\
    evaluate m4 = Ok r4 /\ after_adv k = Some r4 /\
    recommender_model k = Some m4.
Proof.
  intros H.
  destruct (NotebookRun.run_notebook_chain _ _ _ _ _ H)
    as (m1 & m2 & m3 & m4 & r1 & r2 & r3 & r4 &
        T1 & V1 & A2 & V2 & T3 & V3 & A4 & V4 & K & B & A).
  assert (G : exists g,
             attack_gradient (attack_model m3) (attack_batches m3) = Ok g /\
             delta_P m4 = scale (l2_normalize (fst g)) (1 / 2) /\
             delta_Q m4 = scale (l2_normalize (snd g)) (1 / 2)).
  { pose proof A4 as A4'. rewrite Attack.attack_unfold in A4'.
    apply bind_Ok in A4' as (g & Hg & A4'). injection A4' as <-.
    exists g. split; [exact Hg|]. split; reflexivity. }
  destruct G as (g & Hg & GP & GQ).
  exists m1, m2, m3, m4, r3, r4, g.
  split; [exact T1|].
  split.
  { destruct (same_perturbations_train _ _ T1) as [DP DQ].
    destruct (same_config_train _ _ T1) as (_ & N1 & N2 & N3 & _).
    unfold zero_perturbations. rewrite DP, DQ, N1, N2, N3.
    split; reflexivity. }
  split; [exact A2|]. split; [exact T3|].
  split.
  { rewrite Frames.adversarial_train_S in T3.
    apply bind_Ok in T3 as (m & _ & T3).
    eapply Frames.zero_perturbations__adversarial_train_step; eauto. }
  split; [exact A4|].
  destruct (Slots.attack_keeps_slots _ _ _ A4) as (_ & _ & EP & EQ & _).
  split; [exact EP|]. split; [exact EQ|].
  split; [exact Hg|]. split; [exact GP|]. split; [exact GQ|].
  split; [exact V3|]. split; [exact B|].
  split; [exact V4|]. split; [exact A|]. exact K.
Qed.

Lemma notebook_final_state_witness :
  exists k m3 m4,
    run_notebook tiny_dataset small_noise small_noise level_evaluate = Ok k /\
    zero_perturbations m3 /\
    execute_adversarial_attack m3 (1 / 2) = Ok m4 /\
    embedding_P m4 = embedding_P m3 /\
    before_adv k = Some (1 / 2, 1 / 2, 1 / 2) /\
    after_adv k = Some (1 / 2, 1 / 2, 1 / 2) /\
    recommender_model k = Some m4.
Proof.
  destruct NotebookFacts.small_notebook_runs as (k & E).
  destruct (notebook_final_state _ _ _ _ _ E)
    as (m1 & m2 & m3 & m4 & r3 & r4 & g & _ & _ & _ & _ & Z & A & EP & _ & _
        & _ & _ & V3 & B & V4 & Af & K).
  exists k, m3, m4.
  split; [exact E|]. split; [exact Z|]. split; [exact A|].
  split; [exact EP|].
  injection V3 as <-. injection V4 as <-. auto.
Defined.

(** ** Which exceptions the methods raise *)

Module Raised.

Lemma raises_only_Ok {A : Type} (P : exn -> Prop) (a : A) :
  raises_only P (Ok a).
Proof. intros e H. discriminate H. Qed.

Lemma raises_only_Raise {A : Type} (P : exn -> Prop) (e : exn) :
  P e -> raises_only P (@Raise A e).
Proof. intros H e' E. injection E as <-. exact H. Qed.

Lemma raises_only_bind {A B : Type} (P : exn -> Prop) (c : result A)
    (k : A -> result B) :
  raises_only P c -> (forall a, raises_only P (k a)) ->
  raises_only P (bind c k).
Proof.
  intros Hc Hk e H. destruct c as [a|e']; simpl in H.
  - exact (Hk a e H).
  - apply Hc. injection H as ->. reflexivity.
Qed.

Lemma raises_only_mapM {A B : Type} (P : exn -> Prop) (f : A -> result B)
    (xs : list A) :
  (forall x, raises_only P (f x)) -> raises_only P (mapM f xs).
Proof.
  intros Hf. induction xs as [|x xs IH]; [apply raises_only_Ok|].
  simpl. apply raises_only_bind; [apply Hf|]. intros y.
  apply raises_only_bind; [exact IH|]. intros ys. apply raises_only_Ok.
Qed.

Lemma raises_only_foldM {A St : Type} (P : exn -> Prop)
    (f : St -> A -> result St) (xs : list A) :
  (forall s x, raises_only P (f s x)) ->
  forall s, raises_only P (foldM f xs s).
Proof.
  intros Hf. induction xs as [|x xs IH]; intros s; [apply raises_only_Ok|].
  simpl. apply raises_only_bind; [apply Hf | exact IH].
Qed.

Lemma raises_only_weaken {A : Type} (P Q : exn -> Prop) (c : result A) :
  (forall e, P e -> Q e) -> raises_only P c -> raises_only Q c.
Proof. intros H Hc e E. apply H, Hc, E. Qed.

Lemma raises_only_bcast {A B C : Type} (f : A -> B -> result C)
    (xs : list A) (ys : list B) :
  (forall x y, raises_only tf_error (f x y)) ->
  raises_only tf_error (bcast f xs ys).
Proof.
  intros Hf. unfold bcast.
  destruct (length xs =? length ys)%nat.
  - apply raises_only_mapM. intros xy. apply Hf.
  - destruct xs as [|x [|x' xs]]; destruct ys as [|y [|y' ys]];
      first [ apply raises_only_mapM; intros z; apply Hf
            | apply raises_only_Raise; exact I ].
Qed.

Lemma raises_only_binop (op : R -> R -> R) (a b : tensor) :
  raises_only tf_error (binop op a b).
Proof.
  unfold binop. apply raises_only_bcast. intros x y.
  apply raises_only_bcast. intros u v. apply raises_only_Ok.
Qed.

Lemma raises_only_embedding_lookup (t : tensor) (ids : list (list nat)) :
  raises_only tf_error (embedding_lookup t ids).
Proof.
  unfold embedding_lookup. apply raises_only_mapM. intros row.
  apply raises_only_mapM. intros id. unfold lookup_row.
  destruct (nth_error t id);
    [apply raises_only_Ok | apply raises_only_Raise; exact I].
Qed.

Lemma raises_only_matmul (n : nat) (a b : tensor) :
  raises_only tf_error (matmul n a b).
Proof.
  unfold matmul. apply raises_only_mapM. intros row.
  destruct (length row =? length b)%nat;
    [apply raises_only_Ok | apply raises_only_Raise; exact I].
Qed.

Lemma raises_only_get_inference (m : model) (users items : list (list nat)) :
  raises_only tf_error (get_inference m users items).
Proof.
  unfold get_inference.
  apply raises_only_bind; [apply raises_only_binop|]. intros P'.
  apply raises_only_bind; [apply raises_only_embedding_lookup|]. intros gp.
  apply raises_only_bind; [apply raises_only_binop|]. intros Q'.
  apply raises_only_bind; [apply raises_only_embedding_lookup|]. intros gq.
  apply raises_only_bind; [apply raises_only_binop|]. intros pq.
  apply raises_only_bind; [apply raises_only_matmul|]. intros out.
  apply raises_only_Ok.
Qed.

Lemma raises_only_get_full_inference (m : model) :
  raises_only tf_error (get_full_inference m).
Proof.
  unfold get_full_inference.
  apply raises_only_bind; [apply raises_only_binop|]. intros P'.
  apply raises_only_bind; [apply raises_only_binop|]. intros Q'.
  apply raises_only_matmul.
Qed.

Lemma raises_only_bpr_scores (m : model) (b : batch) :
  raises_only tf_error (bpr_scores m b).
Proof.
  unfold bpr_scores.
  apply raises_only_bind; [apply raises_only_get_inference|].
  intros [[o1 p1] q1].
  apply raises_only_bind; [apply raises_only_get_inference|].
  intros [[o2 p2] q2].
  apply raises_only_bind; [apply raises_only_binop|]. intros d.
  apply raises_only_Ok.
Qed.

Lemma raises_only_reg_squares (sc : scores) :
  raises_only tf_error (reg_squares sc).
Proof.
  unfold reg_squares.
  apply raises_only_bind; [apply raises_only_binop|]. intros s.
  apply raises_only_binop.
Qed.

Lemma raises_only__train_batch (m : model) (b : batch) :
  raises_only tf_error (_train_batch m b).
Proof.
  unfold _train_batch.
  apply raises_only_bind; [apply raises_only_bpr_scores|]. intros sc.
  apply raises_only_bind; [apply raises_only_reg_squares|]. intros sq.
  apply raises_only_Ok.
Qed.

Lemma raises_only__train_step (m : model) (batches : list batch) :
  raises_only tf_error (_train_step m batches).
Proof.
  unfold _train_step. apply raises_only_foldM.
  intros s x. apply raises_only__train_batch.
Qed.

Lemma raises_only_train (m : model) : raises_only tf_error (train m).
Proof.
  unfold train. apply raises_only_foldM. intros s x.
  destruct (next_shuffle s (batch_size s)) as [bs s1].
  apply raises_only__train_step.
Qed.

Lemma raises_only_attack_gradient (m : model) (b0 : batch)
    (rest : list batch) :
  raises_only tf_error (attack_gradient m (b0 :: rest)).
Proof.
  unfold attack_gradient. cbn [bind].
  apply raises_only_bind; [apply raises_only_bpr_scores|]. intros sc.
  apply raises_only_bind; [apply raises_only_reg_squares|]. intros sq.
  apply raises_only_Ok.
Qed.

Lemma attack_raises (m : model) (epsilon : R) :
  raises_only tf_or_index_error (execute_adversarial_attack m epsilon).
Proof.
  rewrite Attack.attack_unfold.
  apply raises_only_bind; [|intros g; apply raises_only_Ok].
  destruct (attack_batches m) as [|b0 rest].
  - apply raises_only_Raise. right. reflexivity.
  - eapply raises_only_weaken; [|apply raises_only_attack_gradient].
    intros e He. left. exact He.
Qed.

Lemma attack_IndexError (m : model) (epsilon : R) :
  execute_adversarial_attack m epsilon = Raise IndexError <->
  attack_batches m = [].
Proof.
  rewrite Attack.attack_unfold. split.
  - intros H. destruct (attack_batches m) as [|b0 rest]; [reflexivity|].
    apply bind_Raise in H as [H|(g & _ & H)]; [|discriminate].
    apply raises_only_attack_gradient in H. contradiction.
  - intros ->. reflexivity.
Qed.

Lemma raises_only__adversarial_train_batch (epsilon : R) (m : model)
    (b : batch) :
  raises_only tf_or_index_error (_adversarial_train_batch epsilon m b).
Proof.
  assert (W : forall e, tf_error e -> tf_or_index_error e)
    by (intros e He; left; exact He).
  unfold _adversarial_train_batch.
  apply raises_only_bind;
    [eapply raises_only_weaken; [exact W|apply raises_only_bpr_scores]|].
  intros sc.
  apply raises_only_bind;
    [eapply raises_only_weaken; [exact W|apply raises_only_reg_squares]|].
  intros sq.
  apply raises_only_bind; [apply attack_raises|]. intros m2.
  apply raises_only_bind;
    [eapply raises_only_weaken; [exact W|apply raises_only_bpr_scores]|].
  intros sc'. apply raises_only_Ok.
Qed.

Lemma raises_only__adversarial_train_step (epsilon : R) (m : model)
    (batches : list batch) :
  raises_only tf_or_index_error (_adversarial_train_step epsilon m batches).
Proof.
  unfold _adversarial_train_step.
  apply raises_only_bind; [|intros m'; apply raises_only_Ok].
  apply raises_only_foldM. intros s x.
  apply raises_only__adversarial_train_batch.
Qed.

Lemma raises_only_adversarial_train (m : model) (n : nat) (epsilon : R) :
  raises_only tf_or_index_error (adversarial_train m n epsilon).
Proof.
  unfold adversarial_train. apply raises_only_foldM. intros s x.
  destruct (next_shuffle s (batch_size s)) as [bs s1].
  apply raises_only__adversarial_train_step.
Qed.

End Raised.

(** X17.  Which exceptions leave the methods.  The inferences and the
    plain training raise nothing but TensorFlow's invalid-argument errors
    (an id outside a table, shapes that do not broadcast).  The attack
    indexes the first batch of its shuffle: it raises Python's IndexError
    exactly when that shuffle returns no batch, and TensorFlow's errors
    otherwise.  Adversarial training, which runs the attack in every batch,
    raises the one or the other. *)
Theorem exceptions_are_of_two_kinds :
  (forall m users items,
      raises_only tf_error (get_inference m users items)) /\
  (forall m, raises_only tf_error (get_full_inference m)) /\
  (forall m batches, raises_only tf_error (_train_step m batches)) /\
  (forall m, raises_only tf_error (train m)) /\
  (forall m epsilon,
      raises_only tf_or_index_error (execute_adversarial_attack m epsilon) /\
      (execute_adversarial_attack m epsilon = Raise IndexError <->
       attack_batches m = [])) /\
  (forall m epsilon batches,
      raises_only tf_or_index_error
        (_adversarial_train_step epsilon m batches)) /\
  (forall m n epsilon,
      raises_only tf_or_index_error (adversarial_train m n epsilon)).
Proof.
  split; [exact Raised.raises_only_get_inference|].
  split; [exact Raised.raises_only_get_full_inference|].
  split; [exact Raised.raises_only__train_step|].
  split; [exact Raised.raises_only_train|].
  split; [intros m epsilon; split;
          [apply Raised.attack_raises | apply Raised.attack_IndexError]|].
  split; [intros m epsilon batches;
          apply Raised.raises_only__adversarial_train_step|].
  exact Raised.raises_only_adversarial_train.
Qed.

Lemma exceptions_are_of_two_kinds_witness :
  tf_error (InvalidArgument_index 5 2) /\
  execute_adversarial_attack Tiny.idle (1 / 2) = Raise IndexError.
Proof.
  destruct exceptions_are_of_two_kinds as (_ & _ & _ & H & K & _).
  split.
  - apply (H Tiny.stray). reflexivity.
  - apply (proj2 (K Tiny.idle (1 / 2))). reflexivity.
Defined.

(** ** How far an attack moves a score *)

Module Budget.










End Budget.



(** ** Cells run out of order *)

Module NotebookOrder.

Section Cells.

Variable read_dataset : string -> string -> DataLoader.
Variables noise_P noise_Q : nat -> nat -> R.
Variable evaluate : model -> result (R * R * R).

Lemma exec_without_model (k : kernel) (s : statement) :
  recommender_model k = None -> acts_on_model s ->
  exec read_dataset noise_P noise_Q evaluate k s = Raise NameError.
Proof.
  intros Hk Hs. unfold Notebook.exec.
  destruct s; simpl in Hs; try contradiction;
    cbn [exec_statement]; unfold the_model; rewrite Hk; reflexivity.
Qed.

Lemma exec_Construct_without_data (k : kernel) (p1 p2 : string) :
  data_var k = None ->
  exec read_dataset noise_P noise_Q evaluate k (Construct p1 p2)
  = Raise NameError.
Proof.
  intros Hk. unfold Notebook.exec. cbn [exec_statement].
  rewrite Hk. reflexivity.
Qed.

Lemma loads_keep_no_model (pre : list statement) (k : kernel) :
  recommender_model k = None -> Forall loads_data pre ->
  exists k',
    foldM (exec read_dataset noise_P noise_Q evaluate) pre k = Ok k' /\
    recommender_model k' = None.
Proof.
  revert k; induction pre as [|s pre IH]; intros k Hk Hp.
  - exists k. auto.
  - apply Forall_cons_iff in Hp as [Hs Hp].
    destruct s as [tr te| | | | |]; simpl in Hs; try contradiction.
    cbn [foldM]. rewrite NotebookFacts.exec_LoadData.
    cbn [bind]. apply IH; [exact Hk | exact Hp].
Qed.

Lemma model_cell_first (pre post : list statement) (s : statement) :
  Forall loads_data pre -> acts_on_model s ->
  run read_dataset noise_P noise_Q evaluate (pre ++ s :: post) fresh_kernel
  = Raise NameError.
Proof.
  intros Hp Hs. unfold run. rewrite foldM_app.
  destruct (loads_keep_no_model pre fresh_kernel eq_refl Hp)
    as (k' & E & Hk). rewrite E. cbn [bind foldM].
  rewrite (exec_without_model k' s Hk Hs). reflexivity.
Qed.

Lemma construct_first (post : list statement) (p1 p2 : string) :
  run read_dataset noise_P noise_Q evaluate (Construct p1 p2 :: post)
    fresh_kernel
  = Raise NameError.
Proof.
  unfold run. cbn [foldM].
  rewrite exec_Construct_without_data by reflexivity. reflexivity.
Qed.

End Cells.

End NotebookOrder.

(** X19.  The cells depend on the ones before them through the variables
    of the kernel.  In a fresh kernel a cell that trains, attacks or
    evaluates the model raises NameError when no cell before it has
    constructed the model, whatever data has been loaded; the construction
    cell raises NameError when it is the first cell to run, because the
    data it is given is not defined yet.  The cells after the failing one do
    not run. *)
Theorem cells_need_their_predecessors
    (read_dataset : string -> string -> DataLoader)
    (noise_P noise_Q : nat -> nat -> R)
    (evaluate : model -> result (R * R * R)) :
  (forall pre s post,
      Forall loads_data pre -> acts_on_model s ->
      run read_dataset noise_P noise_Q evaluate (pre ++ s :: post)
        fresh_kernel
      = Raise NameError) /\
  (forall p1 p2 post,
      run read_dataset noise_P noise_Q evaluate (Construct p1 p2 :: post)
        fresh_kernel
      = Raise NameError).
Proof.
  split.
  - intros pre s post. apply NotebookOrder.model_cell_first.
  - intros p1 p2 post. apply NotebookOrder.construct_first.
Qed.

Lemma cells_need_their_predecessors_witness :
  run tiny_dataset zero_noise zero_noise null_evaluate
    ([LoadData "train.tsv" "test.tsv"] ++ Train :: [Evaluate true])
    fresh_kernel
  = Raise NameError.
Proof.
  apply (proj1 (cells_need_their_predecessors tiny_dataset zero_noise
                  zero_noise null_evaluate)).
  - repeat constructor.
  - exact I.
Defined.

(** ** Models reached from the constructor *)

Module Reachable.

Lemma constructor_config_init (dl : DataLoader) (p1 p2 : string)
    (noise_P noise_Q : nat -> nat -> R) :
  constructor_config (init dl p1 p2 noise_P noise_Q).
Proof. repeat split. Qed.

Lemma constructor_config_same (m m' : model) :
  same_config m m' -> constructor_config m -> constructor_config m'.
Proof.
  intros (Ed & N1 & N2 & N3 & Eh & Er & El & Ee & Eb & _)
         (Hh & Hd & Hl & Hr & He & Hb & Hu & Hi).
  unfold constructor_config.
  rewrite Eh, N3, El, Er, Ee, Eb, N1, N2, Ed. repeat split; assumption.
Qed.

Lemma constructed_ok (dl : DataLoader) (p1 p2 : string)
    (noise_P noise_Q : nat -> nat -> R) :
  model_ok (init dl p1 p2 noise_P noise_Q).
Proof. split; [apply shape_inv_init | reflexivity]. Qed.

Lemma reachable_inv (m : model) :
  reachable m -> model_ok m /\ slots_ok m /\ constructor_config m.
Proof.
  induction 1 as [dl p1 p2 nP nQ
                 | m m' batches _ (Hok & Hsl & Hc) H
                 | m m' _ (Hok & Hsl & Hc) H
                 | m m' epsilon _ (Hok & Hsl & Hc) H
                 | m m' epsilon batches _ (Hok & Hsl & Hc) H
                 | m m' n epsilon _ (Hok & Hsl & Hc) H].
  - split; [apply constructed_ok|].
    split; [apply Slots.slots_ok_init | apply constructor_config_init].
  - pose proof (same_config__train_step _ _ _ H) as S.
    pose proof (shape_inv__train_step _ _ _ (proj1 Hok) H) as Hs.
    split; [eapply model_ok_same_config; eauto|].
    split; [|eapply constructor_config_same; eauto].
    eapply Slots.slots_ok_grow; [|exact Hsl].
    eapply Loops.slots_grow__train_step; [apply Hok | exact H].
  - pose proof (same_config_train _ _ H) as S.
    pose proof (shape_inv_train _ _ (proj1 Hok) H) as Hs.
    split; [eapply model_ok_same_config; eauto|].
    split; [|eapply constructor_config_same; eauto].
    eapply Slots.slots_ok_grow; [|exact Hsl].
    eapply Loops.slots_grow_train; [apply Hok | exact H].
  - pose proof (same_config_execute_adversarial_attack _ _ _ H) as S.
    pose proof (shape_inv_execute_adversarial_attack _ _ _ (proj1 Hok) H)
      as Hs.
    split; [eapply model_ok_same_config; eauto|].
    split; [|eapply constructor_config_same; eauto].
    destruct (Slots.attack_keeps_slots _ _ _ H) as (AP & AQ & _).
    eapply Slots.slots_ok_grow; [|exact Hsl].
    apply Slots.slots_grow_eq; assumption.
  - pose proof (same_config__adversarial_train_step _ _ _ _ H) as S.
    pose proof (shape_inv__adversarial_train_step _ _ _ _ (proj1 Hok) H)
      as Hs.
    split; [eapply model_ok_same_config; eauto|].
    split; [|eapply constructor_config_same; eauto].
    eapply Slots.slots_ok_grow; [|exact Hsl].
    eapply Loops.slots_grow__adversarial_train_step; [apply Hok | exact H].
  - pose proof (same_config_adversarial_train _ _ _ _ H) as S.
    pose proof (shape_inv_adversarial_train _ _ _ _ (proj1 Hok) H) as Hs.
    split; [eapply model_ok_same_config; eauto|].
    split; [|eapply constructor_config_same; eauto].
    eapply Slots.slots_ok_grow; [|exact Hsl].
    eapply Loops.slots_grow_adversarial_train; [apply Hok | exact H].
Qed.

End Reachable.

(** X20.  Every model a program can hold, the constructor's and whatever
    a sequence of calls of the methods returns from it, has tensors of
    consistent shapes, accumulators at or above 0.1, the all-ones column
    [h] and the attributes of the constructor (64 factors, learning rate
    0.05, reg 0, 5 epochs, batches of 512).  Since [reg] is never anything
    but 0, the regularisation component is inactive: [reg_loss] is 0 and so
    is the coefficient of its gradient, so what is optimised is the BPR
    loss alone. *)
Theorem reachable_models_keep_invariants (m : model) :
  reachable m ->
  model_ok m /\ slots_ok m /\ constructor_config m /\
  (forall sq, reg_loss m sq = 0 /\ reg_coeff m sq = 0).
Proof.
  intros H. destruct (Reachable.reachable_inv m H) as (Hok & Hsl & Hc).
  split; [exact Hok|]. split; [exact Hsl|]. split; [exact Hc|].
  intros sq. destruct Hc as (_ & _ & _ & Hr & _).
  unfold reg_loss, reg_coeff. rewrite Hr. split; unfold Rdiv; ring.
Qed.

Lemma reachable_models_keep_invariants_witness :
  model_ok (init Tiny.loader "../rec_result/" "../rec_weights/"
              Notebook.zero_noise Notebook.zero_noise) /\
  reg (init Tiny.loader "../rec_result/" "../rec_weights/"
         Notebook.zero_noise Notebook.zero_noise) = 0.
Proof.
  destruct (reachable_models_keep_invariants
              (init Tiny.loader "../rec_result/" "../rec_weights/"
                 Notebook.zero_noise Notebook.zero_noise)
              (reach_init _ _ _ _ _)) as (Hok & _ & Hc & _).
  split; [exact Hok | apply Hc].
Defined.

(** X21.  With ids in range nothing raises.  On a model with consistent
    shapes whose data loader hands out only ids below [num_users] and
    [num_items], [train] returns; if moreover the shuffle of the whole data
    set is never empty, [execute_adversarial_attack] and [adversarial_train]
    return as well, for every epsilon and every number of epochs.  The
    model returned satisfies the same conditions, so the calls can be
    chained. *)
Theorem methods_return_on_valid_data (m : model) :
  model_ok m -> valid_data m ->
  (exists m', train m = Ok m' /\ model_ok m' /\ valid_data m') /\
  (nonempty_data m ->
   (forall epsilon,
       exists m',
         execute_adversarial_attack m epsilon = Ok m' /\
         model_ok m' /\ valid_data m' /\ nonempty_data m') /\
   (forall n epsilon,
       exists m',
         adversarial_train m n epsilon = Ok m' /\
         model_ok m' /\ valid_data m' /\ nonempty_data m')).
Proof.
  intros Hm Hv. split.
  - destruct (train_total m Hm Hv) as (m' & E & Hm' & Hc).
    exists m'. split; [exact E|]. split; [exact Hm'|].
    exact (valid_data_same_config _ _ Hc Hv).
  - intros Hn. split.
    + intros epsilon.
      destruct (execute_adversarial_attack_total m epsilon Hm Hv Hn)
        as (m' & E & Hm' & Hc).
      exists m'. split; [exact E|]. split; [exact Hm'|].
      split; [exact (valid_data_same_config _ _ Hc Hv)
             | exact (nonempty_data_same_config _ _ Hc Hn)].
    + intros n epsilon.
      destruct (adversarial_train_total m n epsilon Hm Hv Hn)
        as (m' & E & Hm' & Hc).
      exists m'. split; [exact E|]. split; [exact Hm'|].
      split; [exact (valid_data_same_config _ _ Hc Hv)
             | exact (nonempty_data_same_config _ _ Hc Hn)].
Qed.

Lemma methods_return_on_valid_data_witness :
  (exists m', train Tiny.start = Ok m') /\
  (exists m', adversarial_train Tiny.start 1 (1 / 2) = Ok m').
Proof.
  destruct (methods_return_on_valid_data Tiny.start TinyFacts.start_ok
              TinyFacts.start_valid_data) as [(m1 & E1 & _) H].
  destruct (H TinyFacts.start_nonempty_data) as [_ K].
  destruct (K 1%nat (1 / 2)) as (m2 & E2 & _).
  split; [exists m1; exact E1 | exists m2; exact E2].
Defined.

(** X22.  What the optimizer receives in [_train_step] is the gradient of
    the loss of the batch.  On a model with consistent shapes and the
    all-ones [h], for a batch of known ids with no score difference at an
    end of the clipping range, [_train_batch] applies to the model the two
    tensors that hold, entry by entry, the partial derivatives of
    [loss_opt] = [loss] + [reg_loss] with respect to the entries of
    [embedding_P] and of [embedding_Q]: the derivative, at 0, of the loss of
    the batch as a function of what is added to that entry. *)
Theorem optimizer_receives_the_gradient (m m' : model) (b : batch) :
  model_ok m -> h m = fill 1 (embedding_size m) 1 ->
  valid_batch m b -> b <> [] ->
  _train_batch m b = Ok m' ->
  exists sc g,
    bpr_scores m b = Ok sc /\
    m' = apply_gradients (set_loss m (bpr_loss sc)) g /\
    (off_the_kinks sc -> is_gradient_at m b g).
Proof.
  intros Hm Hh Hb _ H.
  destruct (Untouched._train_batch_unfold _ _ _ H) as (sc & sq & Hsc & Hsq & ->).
  exists sc, (gradient m b sc 1 (reg_coeff m sq)).
  split; [exact Hsc|]. split; [reflexivity|].
  intros Hk.
  exact (Gradient.gradient_is_derivative m b sc sq Hm Hh Hb Hsc Hsq Hk).
Qed.

Lemma optimizer_receives_the_gradient_witness :
  exists m' sc g,
    _train_batch Tiny.start [(0, 0, 1)]%nat = Ok m' /\
    bpr_scores Tiny.start [(0, 0, 1)]%nat = Ok sc /\
    m' = apply_gradients (set_loss Tiny.start (bpr_loss sc)) g /\
    is_gradient_at Tiny.start [(0, 0, 1)]%nat g.
Proof.
  destruct (_train_batch_total Tiny.start [(0, 0, 1)]%nat TinyFacts.start_ok
              TinyFacts.start_valid_batch) as (m' & E & _).
  destruct (optimizer_receives_the_gradient Tiny.start m' [(0, 0, 1)]%nat
              TinyFacts.start_ok eq_refl TinyFacts.start_valid_batch
              ltac:(discriminate) E) as (sc & g & Hsc & Hm' & Hg).
  exists m', sc, g. split; [exact E|]. split; [exact Hsc|].
  split; [exact Hm'|]. apply Hg.
  rewrite (Gradient.bpr_scores_rows Tiny.start [(0, 0, 1)]%nat
             TinyFacts.start_ok eq_refl TinyFacts.start_valid_batch) in Hsc.
  injection Hsc as <-.
  unfold off_the_kinks. cbn [diff map].
  repeat constructor; run; unfold clip_lo, clip_hi; lra.
Defined.

(** ** One step on one triple *)

Module Margin.




End Margin.

Module MarginRows.






End MarginRows.

Module MarginStep.






End MarginStep.

Module MarginProof.




End MarginProof.


